(** * dphutils: a shallow embedding of the array helpers and of the
    accelerated Richardson-Lucy deconvolution of [src/__init__.py].

    Numbers are IEEE doubles in the source.  They are modelled as exact
    rationals extended with the three special values the code can observe
    ([nan], [+inf], [-inf]); rounding is not modelled, and there is a single
    zero.  Overflow to an infinity is modelled where a statement depends on
    it ([f64], in [scale]).  The theorems on the behaviour of the module
    are stated so as to hold of the doubles too: they compare values, or
    state a formula of the code, or are restricted to inputs on which the
    arithmetic is exact; the lemmas behind them are in exact arithmetic.
    Arrays are [numpy] arrays of floats: a shape and row-major data. *)

From Stdlib Require String.
Import String.StringSyntax.
Delimit Scope string_scope with string.
From Stdlib Require Import QArith Qcanon ZArith List Bool Arith Lia Lqa.
From Stdlib Require Import Permutation.
Import ListNotations.

(** ** Extended rationals *)

Module Fl.

Inductive fl : Type :=
| Fin (q : Qc)
| PInf
| NInf
| NaN.

Definition zero : fl := Fin 0%Qc.
Definition one : fl := Fin 1%Qc.
Definition of_Z (z : Z) : fl := Fin (Q2Qc (inject_Z z)).
Definition of_Q (q : Q) : fl := Fin (Q2Qc q).

Definition isfinite (x : fl) : bool :=
  match x with Fin _ => true | _ => false end.

Definition isnan (x : fl) : bool :=
  match x with NaN => true | _ => false end.

Definition neg (x : fl) : fl :=
  match x with
  | Fin q => Fin (- q)%Qc
  | PInf => NInf
  | NInf => PInf
  | NaN => NaN
  end.

Definition add (x y : fl) : fl :=
  match x, y with
  | NaN, _ | _, NaN => NaN
  | Fin a, Fin b => Fin (a + b)%Qc
  | PInf, NInf | NInf, PInf => NaN
  | PInf, _ | _, PInf => PInf
  | NInf, _ | _, NInf => NInf
  end.

Definition sub (x y : fl) : fl := add x (neg y).

(** The sign of a rational as a comparison with zero. *)
Definition sgn (q : Qc) : comparison := (q ?= 0)%Qc.

(** An infinity times a value of sign [s]; [inf * 0] is [nan]. *)
Definition inf_times (pos : bool) (s : comparison) : fl :=
  match s with
  | Eq => NaN
  | Gt => if pos then PInf else NInf
  | Lt => if pos then NInf else PInf
  end.

Definition mul (x y : fl) : fl :=
  match x, y with
  | NaN, _ | _, NaN => NaN
  | Fin a, Fin b => Fin (a * b)%Qc
  | PInf, Fin b => inf_times true (sgn b)
  | NInf, Fin b => inf_times false (sgn b)
  | Fin a, PInf => inf_times true (sgn a)
  | Fin a, NInf => inf_times false (sgn a)
  | PInf, PInf | NInf, NInf => PInf
  | PInf, NInf | NInf, PInf => NInf
  end.

(** Division as numpy does it on float64: [0/0] and [inf/inf] are [nan],
    [x/0] is an infinity of the sign of [x], none of them raises. *)
Definition div (x y : fl) : fl :=
  match x, y with
  | NaN, _ | _, NaN => NaN
  | Fin a, Fin b =>
      match sgn b with
      | Eq => match sgn a with Eq => NaN | Gt => PInf | Lt => NInf end
      | _ => Fin (a / b)%Qc
      end
  | Fin _, (PInf | NInf) => zero
  | PInf, Fin b => match sgn b with Lt => NInf | _ => PInf end
  | NInf, Fin b => match sgn b with Lt => PInf | _ => NInf end
  | (PInf | NInf), (PInf | NInf) => NaN
  end.

(** [x < y]; every comparison with [nan] is false. *)
Definition ltb (x y : fl) : bool :=
  match x, y with
  | NaN, _ | _, NaN => false
  | Fin a, Fin b => match (a ?= b)%Qc with Lt => true | _ => false end
  | NInf, NInf => false
  | NInf, _ => true
  | _, NInf => false
  | PInf, _ => false
  | _, PInf => true
  end.

Definition gtb (x y : fl) : bool := ltb y x.

(** [x == y] on floats: [nan] differs from itself. *)
Definition eqb (x y : fl) : bool :=
  match x, y with
  | Fin a, Fin b => match (a ?= b)%Qc with Eq => true | _ => false end
  | PInf, PInf | NInf, NInf => true
  | _, _ => false
  end.

Definition leb (x y : fl) : bool := ltb x y || eqb x y.
Definition geb (x y : fl) : bool := leb y x.

(** Python's builtin [min(a, b)] and [max(a, b)]: the first argument is kept
    unless the second one compares strictly better. *)
Definition pymin (a b : fl) : fl := if ltb b a then b else a.
Definition pymax (a b : fl) : fl := if gtb b a then b else a.

Definition sum (l : list fl) : fl := fold_left add l zero.

(** [np.nanmin] and [np.nanmax] on the flattened data: [nan]s are skipped;
    an array of [nan]s only gives [nan]; an empty one raises (see [scale]). *)
Definition nanmin2 (acc x : fl) : fl :=
  match acc, x with
  | NaN, _ => x
  | _, NaN => acc
  | _, _ => if ltb x acc then x else acc
  end.

Definition nanmax2 (acc x : fl) : fl :=
  match acc, x with
  | NaN, _ => x
  | _, NaN => acc
  | _, _ => if ltb acc x then x else acc
  end.

Definition nanmin (l : list fl) : fl := fold_left nanmin2 l NaN.
Definition nanmax (l : list fl) : fl := fold_left nanmax2 l NaN.

(** The limit of float64: the largest value is [(2 - 2^-52) * 2^1023], and
    a result whose magnitude reaches [2^1024 - 2^970], halfway between it
    and [2^1024], is rounded to an infinity. *)
Definition overflow_bound : Qc := Q2Qc (inject_Z (2 ^ 1024 - 2 ^ 970)).

(** The result of an operation as float64 holds it: an infinity when it
    overflows.  The rounding of a result that does not overflow is not
    modelled. *)
Definition f64 (x : fl) : fl :=
  match x with
  | Fin q =>
      if ltb x (Fin overflow_bound)
      then if ltb (Fin (- overflow_bound)%Qc) x then x else NInf
      else PInf
  | _ => x
  end.

(** The four operations with their overflow. *)
Definition add64 (x y : fl) : fl := f64 (add x y).
Definition sub64 (x y : fl) : fl := f64 (sub x y).
Definition mul64 (x y : fl) : fl := f64 (mul x y).
Definition div64 (x y : fl) : fl := f64 (div x y).

End Fl.
Export Fl.

Declare Scope fl_scope.
Delimit Scope fl_scope with fl.
Infix "+" := Fl.add : fl_scope.
Infix "-" := Fl.sub : fl_scope.
Infix "*" := Fl.mul : fl_scope.
Infix "/" := Fl.div : fl_scope.

(** ** Python exceptions and numpy arrays *)

Inductive exn : Type :=
| ValueError
| AssertionError
| TypeError
| IndexError
| NameError.

Inductive res (A : Type) : Type :=
| Ok (a : A)
| Raise (e : exn).
Arguments Ok {A} a.
Arguments Raise {A} e.

Definition bind {A B : Type} (m : res A) (f : A -> res B) : res B :=
  match m with
  | Ok a => f a
  | Raise e => Raise e
  end.

Notation "x <- m ;; k" := (bind m (fun x => k))
  (at level 61, m at next level, right associativity).

(** An [ndarray] of floats: its shape and its elements in row-major (C)
    order.  [ndim] and [size] are the attributes of the same names. *)
Record ndarray : Type := mk_array {
  shape : list nat;
  data : list fl
}.

Definition prod_shape (s : list nat) : nat := fold_right Nat.mul 1%nat s.
Definition ndim (a : ndarray) : nat := length (shape a).
Definition size (a : ndarray) : nat := prod_shape (shape a).

(** The arrays numpy can build: as many elements as the shape says. *)
Definition wf (a : ndarray) : Prop := length (data a) = size a.

Definition all_finite (a : ndarray) : bool := forallb isfinite (data a).

(** Elementwise operations; a Python scalar operand is broadcast. *)
Definition amap (f : fl -> fl) (a : ndarray) : ndarray :=
  mk_array (shape a) (map f (data a)).

Fixpoint zip_with (f : fl -> fl -> fl) (l1 l2 : list fl) : list fl :=
  match l1, l2 with
  | x :: l1', y :: l2' => f x y :: zip_with f l1' l2'
  | _, _ => []
  end.

(** [n] consecutive blocks of [k] elements. *)
Fixpoint chunks (n k : nat) (l : list fl) : list (list fl) :=
  match n with
  | O => []
  | S n' => firstn k l :: chunks n' k (skipn k l)
  end.

(** numpy broadcasting.  Shapes are aligned on their last axis; two lengths
    agree when they are equal or one of them is 1. *)
Definition bdim (n m : nat) : option nat :=
  if (n =? m)%nat then Some n
  else if (n =? 1)%nat then Some m
  else if (m =? 1)%nat then Some n
  else None.

Fixpoint bshape_rev (s t : list nat) : option (list nat) :=
  match s, t with
  | [], _ => Some t
  | _, [] => Some s
  | n :: s', m :: t' =>
      match bdim n m, bshape_rev s' t' with
      | Some d, Some r => Some (d :: r)
      | _, _ => None
      end
  end.

Definition broadcast_shape (s t : list nat) : option (list nat) :=
  option_map (@rev nat) (bshape_rev (rev s) (rev t)).

(** The data of an array of shape [s] seen with shape [t], where [s] has
    as many axes as [t]: an axis of length 1 is repeated. *)
Fixpoint expand (s t : list nat) (d : list fl) : list fl :=
  match s, t with
  | n :: s', m :: t' =>
      let cs := chunks n (prod_shape s') d in
      let cs' := if (n =? m)%nat then cs else repeat (hd [] cs) m in
      flat_map (expand s' t') cs'
  | _, _ => d
  end.

Definition broadcast_data (a : ndarray) (t : list nat) : list fl :=
  expand (repeat 1%nat (length t - ndim a) ++ shape a) t (data a).

(** A binary elementwise operation on two arrays; shapes that do not
    broadcast raise. *)
Definition amap2 (f : fl -> fl -> fl) (a b : ndarray) : res ndarray :=
  match broadcast_shape (shape a) (shape b) with
  | None => Raise ValueError
  | Some t =>
      Ok (mk_array t (zip_with f (broadcast_data a t) (broadcast_data b t)))
  end.

Definition asum (a : ndarray) : fl := Fl.sum (data a).

(** [a[a < 0] = v], in place in the source, on an array nothing else holds. *)
Definition clamp_below (v : fl) (a : ndarray) : ndarray :=
  amap (fun x => if Fl.ltb x zero then v else x) a.

(** ** [scale] *)

(** What [np.iinfo(dtype)] or [np.finfo(dtype)] gives for a dtype, and the
    conversion [astype(dtype)] does on one element. *)
Record dtype_info : Type := mk_dtype {
  tmin_of : fl;
  tmax_of : fl;
  cast : fl -> fl
}.

(** [data] is an array of floats, as every [ndarray] here: the integer
    arrays numpy also accepts, whose differences wrap around, are outside
    this type.  Each operation of the expression overflows as float64
    does: with a range [dmax - dmin] beyond the largest float the range is
    [inf] and [inf / inf] is [nan]. *)
Definition scale (a : ndarray) (dtype : option dtype_info) : res ndarray :=
  match data a with
  | [] => Raise ValueError
  | _ =>
      let dmin := nanmin (data a) in
      let dmax := nanmax (data a) in
      let tmin := match dtype with None => zero | Some d => tmin_of d end in
      let tmax := match dtype with None => one | Some d => tmax_of d end in
      let astype := match dtype with None => (fun x => x) | Some d => cast d end in
      Ok (amap (fun x =>
                  astype (add64 (mul64 (div64 (sub64 x dmin) (sub64 dmax dmin))
                                       (sub64 tmax tmin))
                                tmin)) a)
  end.

(** [a.max()] and [a.min()] on the flattened data of a non-empty array: [nan]
    as soon as one element is. *)
Definition amax (a : ndarray) : fl :=
  if existsb isnan (data a) then NaN else nanmax (data a).

Definition amin (a : ndarray) : fl :=
  if existsb isnan (data a) then NaN else nanmin (data a).

(** ** [nextpow2] and [_calc_pad] *)

Definition bit_length (z : Z) : Z :=
  if (z =? 0)%Z then 0%Z else (Z.log2 (Z.abs z) + 1)%Z.

Definition nextpow2 (n : Z) : res Z :=
  if (n <? 0)%Z then Raise ValueError
  else Ok (Z.shiftl 1 (bit_length (n - 1))).

Definition _calc_pad (oldnum newnum : Z) : Z * Z :=
  let width := (newnum - oldnum)%Z in
  let pad1 := (width / 2)%Z in
  let pad2 := (width - pad1)%Z in
  (pad2, pad1).

(** ** [np.pad] and [fft_pad] *)

(** The two modes this module hands to [np.pad]: ['constant'] (with its
    default fill value 0) and ['median'] (over the whole axis). *)
Inductive pad_mode : Type :=
| Constant
| Median.

Fixpoint insert_sorted (x : fl) (l : list fl) : list fl :=
  match l with
  | [] => [x]
  | y :: l' => if Fl.ltb y x then y :: insert_sorted x l' else x :: y :: l'
  end.

Definition sort (l : list fl) : list fl := fold_right insert_sorted [] l.

(** [np.median] of a vector: [nan] as soon as one element is, or when there
    is none; the mean of the two middle elements when the count is even. *)
Definition median (l : list fl) : fl :=
  if existsb isnan l then NaN
  else
    let s := sort l in
    let n := length l in
    match n with
    | O => NaN
    | _ =>
        if Nat.even n
        then ((nth (n / 2 - 1) s NaN + nth (n / 2) s NaN) / of_Z 2)%fl
        else nth (n / 2) s NaN
    end.

(** The block [np.pad] repeats along the first axis: zeros, or, lane by lane
    along that axis, the median of the lane. *)
Definition fill_block (mode : pad_mode) (k : nat) (cs : list (list fl)) : list fl :=
  match mode with
  | Constant => repeat zero k
  | Median => map (fun j => median (map (fun c => nth j c NaN) cs)) (seq 0 k)
  end.

(** Padding axis after axis, first axis first: the blocks added along an axis
    are themselves padded along the axes that follow. *)
Fixpoint pad_data (mode : pad_mode) (s : list nat) (pads : list (nat * nat))
    (d : list fl) : list fl :=
  match s, pads with
  | n :: s', (before, after) :: pads' =>
      let cs := chunks n (prod_shape s') d in
      let blk := fill_block mode (prod_shape s') cs in
      flat_map (pad_data mode s' pads')
               (repeat blk before ++ cs ++ repeat blk after)
  | _, _ => d
  end.

Fixpoint pad_shape (s : list nat) (pads : list (nat * nat)) : list nat :=
  match s, pads with
  | n :: s', (before, after) :: pads' =>
      (before + n + after)%nat :: pad_shape s' pads'
  | _, _ => s
  end.

Definition pad_negative (p : Z * Z) : bool :=
  ((fst p <? 0) || (snd p <? 0))%Z.

Definition pad_to_nat (p : Z * Z) : nat * nat :=
  (Z.to_nat (fst p), Z.to_nat (snd p)).

(** [np.pad(array, padding, mode=mode)]: one [(before, after)] pair per axis,
    or a single pair for all of them; a negative width raises, and so does
    an empty [padding], which fits no array, not even one without axes (the
    padding [fft_pad] builds for a 0-d array). *)
Definition np_pad (a : ndarray) (padding : list (Z * Z)) (mode : pad_mode)
  : res ndarray :=
  if (length padding =? 0)%nat then Raise ValueError
  else if existsb pad_negative padding then Raise ValueError
  else
    let per_axis :=
      if (length padding =? ndim a)%nat then Some padding
      else match padding with
           | [p] => Some (repeat p (ndim a))
           | _ => None
           end in
    match per_axis with
    | None => Raise ValueError
    | Some ps =>
        let ps := map pad_to_nat ps in
        Ok (mk_array (pad_shape (shape a) ps)
                     (pad_data mode (shape a) ps (data a)))
    end.

(** The [pad_width] argument of [fft_pad]: absent, one integer for every
    axis, or a sequence whose entries may be [None]. *)
Inductive pad_width_arg : Type :=
| PwNone
| PwInt (n : Z)
| PwSeq (l : list (option Z)).

Fixpoint mapM_res {A B : Type} (f : A -> res B) (l : list A) : res (list B) :=
  match l with
  | [] => Ok []
  | x :: l' => y <- f x ;; ys <- mapM_res f l' ;; Ok (y :: ys)
  end.

Fixpoint zip_pads (olds : list Z) (news : list (option Z)) : list (Z * Z) :=
  match olds, news with
  | o :: olds', n :: news' =>
      match n with
      | Some n => _calc_pad o n
      | None => _calc_pad o o
      end :: zip_pads olds' news'
  | _, _ => []
  end.

Definition fft_pad (a : ndarray) (pad_width : pad_width_arg) (mode : pad_mode)
  : res ndarray :=
  let oldshape := map Z.of_nat (shape a) in
  newshape <-
    match pad_width with
    | PwNone => ns <- mapM_res nextpow2 oldshape ;; Ok (map Some ns)
    | PwInt n => Ok (map (fun _ => Some n) oldshape)
    | PwSeq l => Ok l
    end ;;
  let padding := zip_pads oldshape newshape in
  np_pad a padding mode.

(** [image.shape] given as the [pad_width] of [fft_pad]. *)
Definition shape_arg (s : list nat) : pad_width_arg :=
  PwSeq (map (fun n => Some (Z.of_nat n)) s).

(** ** Shifts and slices *)

Definition rotl {A : Type} (k : nat) (l : list A) : list A :=
  skipn k l ++ firstn k l.

(** [ifftshift]: along every axis of length [n], the element at index [j]
    of the result is the one at index [(j + n // 2) mod n] of the input. *)
Fixpoint ifftshift_data (s : list nat) (d : list fl) : list fl :=
  match s with
  | [] => d
  | n :: s' =>
      flat_map (ifftshift_data s') (rotl (n / 2) (chunks n (prod_shape s') d))
  end.

Definition ifftshift (a : ndarray) : ndarray :=
  mk_array (shape a) (ifftshift_data (shape a) (data a)).

(** A Python [slice(start, stop)] applied to an axis of length [n]: a
    negative bound counts from the end, and both are clipped to [0..n]. *)
Definition slice_bound (n : nat) (i : Z) : nat :=
  let i := if (i <? 0)%Z then (i + Z.of_nat n)%Z else i in
  Nat.min n (Z.to_nat i).

Definition slice_len (n : nat) (sl : Z * Z) : nat :=
  (slice_bound n (snd sl) - slice_bound n (fst sl))%nat.

Fixpoint slice_data (s : list nat) (sls : list (Z * Z)) (d : list fl) : list fl :=
  match s, sls with
  | n :: s', sl :: sls' =>
      let cs := chunks n (prod_shape s') d in
      let lo := slice_bound n (fst sl) in
      flat_map (slice_data s' sls') (firstn (slice_len n sl) (skipn lo cs))
  | _, _ => d
  end.

Fixpoint slice_shape (s : list nat) (sls : list (Z * Z)) : list nat :=
  match s, sls with
  | n :: s', sl :: sls' => slice_len n sl :: slice_shape s' sls'
  | _, _ => s
  end.

(** [a[slices]] for a tuple of slices; more slices than axes raise. *)
Definition getitem (a : ndarray) (sls : list (Z * Z)) : res ndarray :=
  if (ndim a <? length sls)%nat then Raise IndexError
  else Ok (mk_array (slice_shape (shape a) sls)
                    (slice_data (shape a) sls (data a))).

(** ** [win_nd] *)

(** A 1-D window function such as [scipy.signal.hann] or [np.ones]: the
    window of a given length. *)
Definition window_fun : Type := nat -> list fl.

Definition np_ones : window_fun := fun n => repeat one n.

(** The shape [(1, .., k, .., 1)] with [k] on axis [j]. *)
Definition axis_shape (nd j k : nat) : list nat :=
  map (fun i => if (i =? j)%nat then k else 1%nat) (seq 0 nd).

Definition win_nd (sz : list nat) (win_func : window_fun) : res ndarray :=
  let nd := length sz in
  fold_left
    (fun acc jk =>
       toreturn <- acc ;;
       let newshape := axis_shape nd (fst jk) (snd jk) in
       let w := win_func (list_max newshape) in
       if (length w =? prod_shape newshape)%nat
       then amap2 Fl.mul toreturn (mk_array newshape w)
       else Raise ValueError)
    (combine (seq 0 nd) sz)
    (Ok (mk_array [] [one])).

(** [winshape = np.array(shape); winshape[-1] = winshape[-1] // 2 + 1] *)
Definition rfft_winshape (s : list nat) : res (list nat) :=
  match rev s with
  | [] => Raise IndexError
  | n :: r => Ok (rev ((n / 2 + 1)%nat :: r))
  end.

(** ** Richardson-Lucy deconvolution *)

(** The right-hand sides [0] and arrays that [h1_t] and [h2_t] are bound to. *)
Inductive hval : Type :=
| HZero
| HArr (a : ndarray).

(** The variables the loop of [richardson_lucy] reads and rebinds.  [None]
    is Python's [None] for the estimates and residuals, and a name not bound
    yet for [alpha], [h1_t] and [h2_t]. *)
Record rl_state : Type := mk_rl {
  u_tm2 : option ndarray;
  u_tm1 : option ndarray;
  u_t : option ndarray;
  g_tm2 : option ndarray;
  g_tm1 : option ndarray;
  y_t : ndarray;
  alpha : option fl;
  h1_t : option hval;
  h2_t : option hval
}.

Definition rl_init (image : ndarray) : rl_state :=
  mk_rl None None None None None image None None None.

(** An operand that may still be [None]. *)
Definition need (o : option ndarray) : res ndarray :=
  match o with
  | Some a => Ok a
  | None => Raise TypeError
  end.

(** A name read in an expression. *)
Definition lookup (o : option hval) : res hval :=
  match o with
  | Some h => Ok h
  | None => Raise NameError
  end.

(** [s * h] for a float [s] and [h] either [0] or an array. *)
Definition scalar_times (s : fl) (h : hval) : hval :=
  match h with
  | HZero => HZero
  | HArr a => HArr (amap (Fl.mul s) a)
  end.

(** [a + s * h]; with [h = 0] the product is the float [s * 0]. *)
Definition add_scaled (a : ndarray) (s : fl) (h : hval) : res ndarray :=
  match h with
  | HZero => Ok (amap (fun x => x + s * zero)%fl a)
  | HArr b => amap2 Fl.add a (amap (Fl.mul s) b)
  end.

(** [enusure_positive(a)] with its default [eps = 0]. *)
Definition enusure_positive (a : ndarray) : res ndarray :=
  if all_finite a then Ok (clamp_below zero a) else Raise AssertionError.

(** [psf_norm = fft_pad(scale(psf), image.shape, mode='constant')] followed by
    [psf_norm /= psf_norm.sum()]. *)
Definition psf_normalize (psf : ndarray) (image_shape : list nat) : res ndarray :=
  scaled <- scale psf None ;;
  psf_norm <- fft_pad scaled (shape_arg image_shape) Constant ;;
  let total := asum psf_norm in
  Ok (amap (fun x => x / total)%fl psf_norm).

(** The normalisation as the specification words it, for comparison: the
    same steps with the padding in mode ['median'] instead. *)
Definition psf_normalize_median (psf : ndarray) (image_shape : list nat)
  : res ndarray :=
  scaled <- scale psf None ;;
  psf_norm <- fft_pad scaled (shape_arg image_shape) Median ;;
  let total := asum psf_norm in
  Ok (amap (fun x => x / total)%fl psf_norm).

(** [(a * b).sum()]: the dot product of the flattened arrays. *)
Definition dot (a b : ndarray) : res fl :=
  p <- amap2 Fl.mul a b ;;
  Ok (asum p).

(** [(a**2).sum()] *)
Definition sum_squares (a : ndarray) : fl :=
  asum (amap (fun x => x * x)%fl a).

(** [max(min(alpha, 1), 0)] *)
Definition clamp_unit (x : fl) : fl := pymax (pymin x one) zero.

(** [if not np.isfinite(alpha): alpha = 0] *)
Definition finite_or_zero (x : fl) : fl := if isfinite x then x else zero.

(** The acceleration coefficient of iteration [i] from the two residuals. *)
Definition rl_alpha (i : nat) (g1 g2 : option ndarray) : res fl :=
  if (1 <? i)%nat then
    g_tm1 <- need g1 ;;
    g_tm2 <- need g2 ;;
    num <- dot g_tm1 g_tm2 ;;
    let alpha := (num / sum_squares g_tm2)%fl in
    let alpha := clamp_unit alpha in
    let alpha := finite_or_zero alpha in
    if negb (Fl.geb alpha zero) then Raise AssertionError
    else if negb (Fl.leb alpha one) then Raise AssertionError
    else Ok alpha
  else Ok zero.

Section Deconvolution.

(** The unitary real FFT pair of the module [uft], which this file does not
    hold, on a type [freq] of complex spectra, with the elementwise product
    and conjugate of spectra and the product of a real window with a
    spectrum. *)
Variable freq : Type.
Variable urfftn : ndarray -> res freq.
Variable uirfftn : freq -> res ndarray.
Variable fmul : freq -> freq -> res freq.
Variable fconj : freq -> freq.
Variable fwin : ndarray -> freq -> res freq.

(** A Python float where numpy expects an array: a 0-d array. *)
Definition scalar (x : fl) : ndarray := mk_array [] [x].

(** [window]: the float [1.0] without a window function, otherwise
    [ifftshift(win_nd(winshape, win_func=win_func))]. *)
Definition rl_window (image : ndarray) (win_func : option window_fun)
  : res ndarray :=
  match win_func with
  | None => Ok (scalar one)
  | Some wf =>
      winshape <- rfft_winshape (shape image) ;;
      w <- win_nd winshape wf ;;
      Ok (ifftshift w)
  end.

(** [otf = window * urfftn(ifftshift(psf_norm))] *)
Definition rl_otf (window : ndarray) (psf_norm : ndarray) : res freq :=
  f <- urfftn (ifftshift psf_norm) ;;
  fwin window f.

(** The Richardson-Lucy step from the predicted image [y]:
    [u_tp1 = y_t * estimate] made non-negative.  [np.real] of the real
    array [uirfftn] returns is that array. *)
Definition rl_update (image : ndarray) (otf : freq) (y : ndarray) : res ndarray :=
  fy <- urfftn y ;;
  prod <- fmul otf fy ;;
  reblur <- uirfftn prod ;;
  im_ratio <- amap2 Fl.div image reblur ;;
  fr <- urfftn im_ratio ;;
  prod' <- fmul (fconj otf) fr ;;
  estimate <- uirfftn prod' ;;
  u_tp1 <- amap2 Fl.mul y estimate ;;
  Ok (clamp_below zero u_tp1).

(** The body of the [for] loop at index [i]. *)
Definition rl_step (image : ndarray) (otf : freq) (prediction_order : Z)
    (i : nat) (st : rl_state) : res rl_state :=
  u_tp1 <- rl_update image otf (y_t st) ;;
  let u_tm2' := u_tm1 st in
  let u_tm1' := u_t st in
  let u_t' := u_tp1 in
  let g_tm2' := g_tm1 st in
  g_tm1' <- amap2 Fl.sub u_tp1 (y_t st) ;;
  alpha <- rl_alpha i (Some g_tm1') g_tm2' ;;
  hs <-
    (if negb (Fl.eqb alpha zero) then
       if (0 <? prediction_order)%Z then
         prev <- need u_tm1' ;;
         h1 <- amap2 Fl.sub u_t' prev ;;
         if (1 <? prediction_order)%Z then
           twice <- amap2 Fl.sub u_t' (amap (Fl.mul (of_Z 2)) prev) ;;
           prev2 <- need u_tm2' ;;
           h2 <- amap2 Fl.add twice prev2 ;;
           Ok (Some (HArr h1), Some (HArr h2))
         else Ok (Some (HArr h1), Some HZero)
       else Ok (Some HZero, h2_t st)
     else Ok (Some HZero, Some HZero)) ;;
  h1 <- lookup (fst hs) ;;
  first <- add_scaled u_t' alpha h1 ;;
  h2 <- lookup (snd hs) ;;
  y <- add_scaled first (alpha * alpha / of_Z 2)%fl h2 ;;
  y <- enusure_positive y ;;
  if forallb (fun x => Fl.geb x zero) (data y)
  then Ok (mk_rl u_tm2' u_tm1' (Some u_t') g_tm2' (Some g_tm1') y (Some alpha)
                 (fst hs) (snd hs))
  else Raise AssertionError.

(** [for i in range(iterations)], from index [i] on. *)
Fixpoint rl_loop (image : ndarray) (otf : freq) (prediction_order : Z)
    (n i : nat) (st : rl_state) : res rl_state :=
  match n with
  | O => Ok st
  | S n' =>
      st' <- rl_step image otf prediction_order i st ;;
      rl_loop image otf prediction_order n' (S i) st'
  end.

Definition clip_array (a : ndarray) : ndarray :=
  let a := amap (fun x => if Fl.gtb x one then one else x) a in
  amap (fun x => if Fl.ltb x (neg one) then neg one else x) a.

(** The variables after [k] iterations. *)
Definition rl_state_after (image : ndarray) (otf : freq) (prediction_order : Z)
    (k : nat) : res rl_state :=
  rl_loop image otf prediction_order k 0 (rl_init image).

Definition richardson_lucy (image psf : ndarray) (iterations : Z) (clip : bool)
    (prediction_order : Z) (win_func : option window_fun)
  : res (option ndarray) :=
  if negb (ndim psf =? ndim image)%nat then Raise AssertionError
  else
    window <- rl_window image win_func ;;
    psf_norm <- psf_normalize psf (shape image) ;;
    otf <- rl_otf window psf_norm ;;
    st <- rl_loop image otf prediction_order (Z.to_nat iterations) 0 (rl_init image) ;;
    let im_deconv := u_t st in
    if clip then
      a <- need im_deconv ;;
      Ok (Some (clip_array a))
    else Ok im_deconv.

(** The unaccelerated Richardson-Lucy iteration, for comparison: the new
    estimate is the step applied to the current estimate, with no predicted
    image, residual or coefficient; it stops on a value that is not finite
    as [enusure_positive] does. *)
Fixpoint vanilla_loop (image : ndarray) (otf : freq) (n : nat) (u : ndarray)
  : res ndarray :=
  match n with
  | O => Ok u
  | S n' =>
      u' <- rl_update image otf u ;;
      if all_finite u' then vanilla_loop image otf n' u'
      else Raise AssertionError
  end.

Definition vanilla_richardson_lucy (image psf : ndarray) (iterations : Z)
    (clip : bool) (win_func : option window_fun) : res (option ndarray) :=
  if negb (ndim psf =? ndim image)%nat then Raise AssertionError
  else
    window <- rl_window image win_func ;;
    psf_norm <- psf_normalize psf (shape image) ;;
    otf <- rl_otf window psf_norm ;;
    match Z.to_nat iterations with
    | O => if clip then Raise TypeError else Ok None
    | n =>
        u <- vanilla_loop image otf n image ;;
        Ok (Some (if clip then clip_array u else u))
    end.

End Deconvolution.

(** ** [fftconvolve] *)

(** [scipy.fftpack.helper.next_fast_len]: the smallest number not below the
    target whose prime factors are among 2, 3 and 5. *)
Fixpoint strip_factor (fuel p n : nat) : nat :=
  match fuel with
  | O => n
  | S fuel' =>
      if ((0 <? n) && (n mod p =? 0))%nat
      then strip_factor fuel' p (n / p)
      else n
  end.

Definition is_fast_len (n : nat) : bool :=
  (strip_factor n 5 (strip_factor n 3 (strip_factor n 2 n)) =? 1)%nat.

Definition next_fast_len (target : nat) : nat :=
  if (target <=? 6)%nat then target
  else match find is_fast_len (seq target (S target)) with
       | Some m => m
       | None => target
       end.

(** [scipy.signal.signaltools._inputs_swap_needed] *)
Definition _inputs_swap_needed (mode : String.string) (s1 s2 : list nat)
  : res bool :=
  if String.eqb mode "valid"%string then
    let ok1 := forallb (fun p => (snd p <=? fst p)%nat) (combine s1 s2) in
    let ok2 := forallb (fun p => (fst p <=? snd p)%nat) (combine s1 s2) in
    if negb (ok1 || ok2) then Raise ValueError else Ok (negb ok1)
  else Ok false.

(** [scipy.signal.signaltools._centered] *)
Definition _centered (arr : ndarray) (newshape : list Z) : res ndarray :=
  let currshape := map Z.of_nat (shape arr) in
  let myslice :=
    map (fun cn => let startind := ((fst cn - snd cn) / 2)%Z in
                   (startind, (startind + snd cn)%Z))
        (combine currshape newshape) in
  getitem arr myslice.

Fixpoint map2 {A B C : Type} (f : A -> B -> C) (l1 : list A) (l2 : list B)
  : list C :=
  match l1, l2 with
  | x :: l1', y :: l2' => f x y :: map2 f l1' l2'
  | _, _ => []
  end.

Section Convolution.

(** numpy's (or pyfftw's) FFT routines on a type [freq] of complex arrays:
    the real pair, the complex pair followed by [.real], the product of two
    spectra and of a spectrum with a real array.  [rfft_free] tells whether
    the real routines may be used ([_rfft_mt_safe], or the lock acquired). *)
Variable freq : Type.
Variable rfftn : ndarray -> res freq.
Variable irfftn : freq -> list nat -> res ndarray.
Variable fftn : ndarray -> list nat -> res freq.
Variable ifftn_real : freq -> res ndarray.
Variable fmul : freq -> freq -> res freq.
Variable fwin : freq -> ndarray -> res freq.
Variable rfft_free : bool.

Definition fftconvolve (in1 in2 : ndarray) (mode : String.string)
    (win_func : window_fun) : res ndarray :=
  if ((ndim in1 =? 0) && (ndim in2 =? 0))%nat then amap2 Fl.mul in1 in2
  else if negb (ndim in1 =? ndim in2)%nat then Raise ValueError
  else if ((size in1 =? 0) || (size in2 =? 0))%nat then Ok (mk_array [0%nat] [])
  else
    let s1 := shape in1 in
    let s2 := shape in2 in
    let shp := map2 Nat.max s1 s2 in
    swap <- _inputs_swap_needed mode s1 s2 ;;
    let '(in1, s1, in2, s2) :=
      if (swap : bool) then (in2, s2, in1, s1) else (in1, s1, in2, s2) in
    let fshape := map next_fast_len shp in
    let fslice := map (fun sz => (0%Z, Z.of_nat sz)) shp in
    let fshape_arg := shape_arg fshape in
    ret <-
      (if rfft_free then
         winshape <- rfft_winshape fshape ;;
         p1 <- fft_pad in1 fshape_arg Median ;;
         f1 <- rfftn p1 ;;
         p2 <- fft_pad in2 fshape_arg Constant ;;
         f2 <- rfftn (ifftshift p2) ;;
         f12 <- fmul f1 f2 ;;
         w <- win_nd winshape win_func ;;
         fw <- fwin f12 (ifftshift w) ;;
         full <- irfftn fw fshape ;;
         getitem full fslice
       else
         f1 <- fftn in1 fshape ;;
         f2 <- fftn in2 fshape ;;
         f12 <- fmul f1 f2 ;;
         full <- ifftn_real f12 ;;
         getitem full fslice) ;;
    if String.eqb mode "full"%string then Ok ret
    else if String.eqb mode "same"%string then _centered ret (map Z.of_nat s1)
    else if String.eqb mode "valid"%string then
      _centered ret (map2 (fun a b => (Z.of_nat a - Z.of_nat b + 1)%Z) s1 s2)
    else Raise ValueError.

End Convolution.

(** ** [radial_profile] *)

(** [np.round(np.sqrt(q))] for a rational [q >= 0], computed exactly: with
    [m] the integer part of [2 * sqrt q], the root lies in the lower half of
    a unit interval when [m] is even; it is exactly halfway when
    [4 * q = m * m], and then goes to the even neighbour. *)
Definition round_sqrt (q : Q) : Z :=
  let m := Z.sqrt ((4 * Qnum q) / Zpos (Qden q)) in
  if Z.even m then (m / 2)%Z
  else
    let k := ((m - 1) / 2)%Z in
    if ((4 * Qnum q =? m * m * Zpos (Qden q))%Z && Z.even k)%bool
    then k else (k + 1)%Z.

(** [np.round(np.sqrt(d2) / binsize).astype(np.int)] for one pixel.  A zero
    [binsize] gives [inf] or [nan], whose conversion to an integer is the
    most negative one. *)
Definition radius_bin (d2 binsize : Qc) : option Z :=
  match (binsize ?= 0)%Qc with
  | Eq => None
  | Gt => Some (round_sqrt (d2 / (binsize * binsize))%Qc)
  | Lt => Some (- round_sqrt (d2 / (binsize * binsize))%Qc)%Z
  end.

Definition qc_of_nat (n : nat) : Qc := Q2Qc (inject_Z (Z.of_nat n)).

(** The bin of every pixel of a [rows] by [cols] array, in row-major order. *)
Definition radial_bins (rows cols : nat) (y0 x0 binsize : Qc)
  : list (option Z) :=
  flat_map
    (fun i =>
       map (fun j =>
              let dx := (qc_of_nat j - x0)%Qc in
              let dy := (qc_of_nat i - y0)%Qc in
              radius_bin (dx * dx + dy * dy)%Qc binsize)
           (seq 0 cols))
    (seq 0 rows).

(** The integers [np.bincount] accepts: none below zero. *)
Definition bin_index (r : option Z) : res nat :=
  match r with
  | Some z => if (z <? 0)%Z then Raise ValueError else Ok (Z.to_nat z)
  | None => Raise ValueError
  end.

Definition bincount_len (r : list nat) : nat :=
  match r with
  | [] => O
  | _ => S (list_max r)
  end.

(** [np.bincount(r, weights)]: per bin, the sum of the weights found there. *)
Definition bincount_weighted (r : list nat) (w : list fl) : list fl :=
  map (fun k =>
         Fl.sum (map snd (filter (fun p => (fst p =? k)%nat) (combine r w))))
      (seq 0 (bincount_len r)).

(** How many entries of [r] fall in bin [k]. *)
Definition bin_count (r : list nat) (k : nat) : nat :=
  length (filter (fun x => (x =? k)%nat) r).

(** [np.bincount(r)]: per bin, how many entries fall there. *)
Definition bincount (r : list nat) : list nat :=
  map (bin_count r) (seq 0 (bincount_len r)).

Definition fl_of_nat (n : nat) : fl := Fin (qc_of_nat n).

(** The centre: the one given, or [np.array(data.shape) / 2]. *)
Definition profile_center (rows cols : nat) (center : option (Qc * Qc))
  : Qc * Qc :=
  match center with
  | Some c => c
  | None => ((qc_of_nat rows / Q2Qc 2)%Qc, (qc_of_nat cols / Q2Qc 2)%Qc)
  end.

Section RadialProfile.

(** [np.sqrt] on one float. *)
Variable np_sqrt : fl -> fl.

(** The sums of [np.bincount] and the quotients are exact here, where
    float64 rounds each addition: the two agree on the images whose sums
    are exact in float64, such as an image of ones or of small whole
    numbers, and on no other image is a value of the profile stated. *)
Definition radial_profile (a : ndarray) (center : option (Qc * Qc))
    (binsize : Qc) : res (list fl * list fl) :=
  match shape a with
  | [rows; cols] =>
      let c := profile_center rows cols center in
      let y0 := fst c in
      let x0 := snd c in
      r <- mapM_res bin_index (radial_bins rows cols y0 x0 binsize) ;;
      let tbin := bincount_weighted r (data a) in
      let tbin2 := bincount_weighted r (map (fun x => x * x)%fl (data a)) in
      let nr := map fl_of_nat (bincount r) in
      let radial_mean := zip_with Fl.div tbin nr in
      let radial_std :=
        map np_sqrt
            (zip_with Fl.sub (zip_with Fl.div tbin2 nr)
                      (map (fun m => m * m)%fl radial_mean)) in
      Ok (radial_mean, radial_std)
  | _ => Raise ValueError
  end.

End RadialProfile.

(** [np.sqrt] where the root is a rational number; [nan] below zero.  The
    other finite values have no root in exact arithmetic: they are given
    [nan] here and do not occur where this function is used. *)
Definition sqrt_rational (x : fl) : fl :=
  match x with
  | Fin q =>
      let n := Qnum q in
      let d := Zpos (Qden q) in
      if ((0 <=? n) && (Z.sqrt n * Z.sqrt n =? n) && (Z.sqrt d * Z.sqrt d =? d))%Z
      then of_Q (Z.sqrt n # Z.to_pos (Z.sqrt d))
      else NaN
  | PInf => PInf
  | NInf => NaN
  | NaN => NaN
  end.

(** [np.ones((rows, cols))] *)
Definition np_ones2 (rows cols : nat) : ndarray :=
  mk_array [rows; cols] (repeat one (rows * cols)).

(** ** The unitary transform on 2 by 2 images

    On a 2 by 2 array the discrete Fourier transform has the entries
    [+1] and [-1] only, its unitary scaling is [1/2], the spectrum is real,
    and the transform is its own inverse.  This is a size at which the
    transform is exact on rationals; it serves to run the code on concrete
    images.  Other shapes are refused. *)
Module Small.

Definition half : fl := of_Q (1 # 2).

Definition hadamard (d : list fl) : res (list fl) :=
  match d with
  | [a; b; c; e] =>
      Ok [ (half * (((a + b) + c) + e))%fl;
           (half * (((a - b) + c) - e))%fl;
           (half * (((a + b) - c) - e))%fl;
           (half * (((a - b) - c) + e))%fl ]
  | _ => Raise ValueError
  end.

Definition freq : Type := ndarray.

Definition urfftn (a : ndarray) : res freq :=
  match shape a with
  | [2%nat; 2%nat] => d <- hadamard (data a) ;; Ok (mk_array [2%nat; 2%nat] d)
  | _ => Raise ValueError
  end.

Definition uirfftn (f : freq) : res ndarray := urfftn f.

Definition fmul (f g : freq) : res freq := amap2 Fl.mul f g.

Definition fconj (f : freq) : freq := f.

Definition fwin (w : ndarray) (f : freq) : res freq := amap2 Fl.mul w f.

Definition richardson_lucy := richardson_lucy freq urfftn uirfftn fmul fconj fwin.
Definition rl_step := rl_step freq urfftn uirfftn fmul fconj.
Definition rl_loop := rl_loop freq urfftn uirfftn fmul fconj.
Definition rl_state_after := rl_state_after freq urfftn uirfftn fmul fconj.
Definition rl_update := rl_update freq urfftn uirfftn fmul fconj.
Definition rl_otf := rl_otf freq urfftn fwin.

Definition vanilla_richardson_lucy :=
  vanilla_richardson_lucy freq urfftn uirfftn fmul fconj fwin.
Definition vanilla_loop := vanilla_loop freq urfftn uirfftn fmul fconj.

Definition img (a b c e : Z) : ndarray :=
  mk_array [2%nat; 2%nat] [of_Z a; of_Z b; of_Z c; of_Z e].

End Small.

(** ** The unitary transform on a single element

    On an array of one element the discrete Fourier transform is the
    identity, whatever the number of axes. *)
Module Tiny.

Definition freq : Type := ndarray.

Definition urfftn (a : ndarray) : res freq :=
  match data a with
  | [_] => if (prod_shape (shape a) =? 1)%nat then Ok a else Raise ValueError
  | _ => Raise ValueError
  end.

Definition uirfftn (f : freq) : res ndarray := urfftn f.

Definition fmul (f g : freq) : res freq := amap2 Fl.mul f g.

Definition fconj (f : freq) : freq := f.

Definition fwin (w : ndarray) (f : freq) : res freq := amap2 Fl.mul w f.

Definition richardson_lucy := richardson_lucy freq urfftn uirfftn fmul fconj fwin.

Definition pixel (z : Z) : ndarray := mk_array [1%nat] [of_Z z].

End Tiny.

(** ** numpy's transform on vectors of length 2

    On a vector of length 2 numpy's real transform is [(a + b, a - b)] and
    its inverse halves the sum and the difference; the spectrum is real.
    These serve to run [fftconvolve] on concrete vectors. *)
Module Small2.

Definition freq : Type := ndarray.

Definition rfftn (a : ndarray) : res freq :=
  match shape a, data a with
  | [2%nat], [a0; a1] => Ok (mk_array [2%nat] [(a0 + a1)%fl; (a0 - a1)%fl])
  | _, _ => Raise ValueError
  end.

Definition irfftn (f : freq) (s : list nat) : res ndarray :=
  match shape f, data f, s with
  | [2%nat], [f0; f1], [2%nat] =>
      Ok (mk_array [2%nat] [((f0 + f1) / of_Z 2)%fl; ((f0 - f1) / of_Z 2)%fl])
  | _, _, _ => Raise ValueError
  end.

Definition fftn (a : ndarray) (s : list nat) : res freq :=
  match s with
  | [2%nat] => rfftn a
  | _ => Raise ValueError
  end.

Definition ifftn_real (f : freq) : res ndarray := irfftn f [2%nat].

Definition fmul (f g : freq) : res freq := amap2 Fl.mul f g.

Definition fwin (f : freq) (w : ndarray) : res freq := amap2 Fl.mul f w.

Definition fftconvolve :=
  fftconvolve freq rfftn irfftn fftn ifftn_real fmul fwin true.

Definition vec (l : list Z) : ndarray := mk_array [length l] (map of_Z l).

End Small2.

(** The spectra of vectors of length 2. *)
Definition small2_good (f : Small2.freq) : Prop :=
  shape f = [2%nat] /\ length (data f) = 2%nat.

(** ** Notions the statements and proofs below use *)

Section Auxiliary.

Local Open Scope Qc_scope.

(** One element through the arithmetic of [scale] without a dtype. *)
Definition unit_scaled (m M v : Qc) : Qc :=
  (v + - m) / (M + - m) * (1 + - 0) + 0.

(** The shape ["full"] mode returns, [np.maximum(s1, s2)], the size the
    two operands are padded to, [next_fast_len] of it along every axis, and
    the slices [fslice] that crop the one to the other. *)
Definition full_shape (in1 in2 : ndarray) : list nat :=
  map2 Nat.max (shape in1) (shape in2).

Definition fast_shape (in1 in2 : ndarray) : list nat :=
  map next_fast_len (full_shape in1 in2).

Definition crop_to (shp : list nat) : list (Z * Z) :=
  map (fun sz => (0%Z, Z.of_nat sz)) shp.

(** The elements of [d] with zeros added, in some order. *)
Definition zero_padded (d padded : list fl) : Prop :=
  Permutation padded (d ++ repeat zero (length padded - length d)).

(** The range [dmax - dmin] of the values is a float: the subtraction does
    not overflow. *)
Definition range_fits (l : list fl) : Prop :=
  isfinite (sub64 (nanmax l) (nanmin l)) = true.

Fixpoint qsum (l : list Qc) : Qc :=
  match l with
  | [] => 0
  | x :: l' => x + qsum l'
  end.

Definition finite_part (x : fl) : Qc :=
  match x with Fin q => q | _ => 0 end.

(** The sum of the finite elements of a list. *)
Definition ftotal (l : list fl) : Qc := qsum (map finite_part l).

(** Equality of two floats as values, [nan] included. *)
Definition fl_same (x y : fl) : bool :=
  match x, y with
  | Fin a, Fin b => Qeq_bool a b
  | PInf, PInf | NInf, NInf | NaN, NaN => true
  | _, _ => false
  end.

Fixpoint list_same (l1 l2 : list fl) : bool :=
  match l1, l2 with
  | [], [] => true
  | x :: l1', y :: l2' => fl_same x y && list_same l1' l2'
  | _, _ => false
  end.

Definition array_same (a b : ndarray) : bool :=
  (if list_eq_dec Nat.eq_dec (shape a) (shape b) then true else false)
  && list_same (data a) (data b).

End Auxiliary.

(** What the loop of [richardson_lucy] keeps true from one iteration to the
    next when [prediction_order] is 0: the arrays have the image's shape,
    the predicted image is the current estimate, and [h2_t] is bound to 0. *)
Definition order0_inv (image : ndarray) (i : nat) (st : rl_state) : Prop :=
  shape (y_t st) = shape image /\ wf (y_t st) /\
  ((1 <= i)%nat ->
   (exists g, g_tm1 st = Some g /\ shape g = shape image /\ wf g) /\
   h2_t st = Some HZero /\
   u_t st = Some (y_t st)).

Section Residuals.

Variables (freq : Type)
          (urfftn : ndarray -> res freq) (uirfftn : freq -> res ndarray)
          (fmul : freq -> freq -> res freq) (fconj : freq -> freq).
Variables (image : ndarray) (otf : freq) (prediction_order : Z).

Let state_after :=
  rl_state_after freq urfftn uirfftn fmul fconj image otf prediction_order.

(** The residual [g(k) = u(k+1) - y(k)] of the iteration of index [k]: what
    [g_tm1] holds once that iteration is done. *)
Definition rl_residual (k : nat) : res ndarray :=
  st <- state_after (S k) ;;
  need (g_tm1 st).

(** The coefficient [alpha] of the iteration of index [i]. *)
Definition rl_alpha_at (i : nat) : res fl :=
  st <- state_after (S i) ;;
  match alpha st with
  | Some a => Ok a
  | None => Raise NameError
  end.

(** The coefficient of iteration [i] computed from the residuals [g(j)] and
    [g(j - 1)]: 0 for [i <= 1], otherwise the quotient of the dot products
    clamped to [0, 1] and reset to 0 when it is not finite. *)
Definition alpha_from_residuals (i j : nat) : res fl :=
  if (i <=? 1)%nat then Ok zero
  else
    g1 <- rl_residual j ;;
    g2 <- rl_residual (j - 1) ;;
    num <- dot g1 g2 ;;
    Ok (finite_or_zero (clamp_unit (num / sum_squares g2)%fl)).

(** The coefficient as the specification words it, from [g(i-1)] and
    [g(i-2)]. *)
Definition alpha_as_worded (i : nat) : res fl := alpha_from_residuals i (i - 1).

End Residuals.

(** The coefficients of a run on a 2 by 2 image, without a window function. *)
Module SmallRun.

Definition otf_of (image psf : ndarray) : res Small.freq :=
  psf_norm <- psf_normalize psf (shape image) ;;
  Small.rl_otf (scalar one) psf_norm.

Definition alpha_at (image psf : ndarray) (prediction_order : Z) (i : nat)
  : res fl :=
  otf <- otf_of image psf ;;
  rl_alpha_at Small.freq Small.urfftn Small.uirfftn Small.fmul Small.fconj
              image otf prediction_order i.

Definition alpha_as_worded (image psf : ndarray) (prediction_order : Z) (i : nat)
  : res fl :=
  otf <- otf_of image psf ;;
  alpha_as_worded Small.freq Small.urfftn Small.uirfftn Small.fmul Small.fconj
                  image otf prediction_order i.

End SmallRun.

(** ** Direct convolution of two vectors, for comparison

    The linear convolution in the spatial domain: element [k] of the result
    is the sum of the [a[i] * b[k - i]], and there are
    [len(a) + len(b) - 1] of them. *)
Definition direct_term (a b : list fl) (k i : nat) : fl :=
  if (i <=? k)%nat
  then (nth i a zero * nth (k - i) b zero)%fl
  else zero.

Definition direct_convolve (a b : list fl) : list fl :=
  map (fun k => Fl.sum (map (direct_term a b k) (seq 0 (length a))))
      (seq 0 (length a + length b - 1)).

Definition direct_convolve_vec (a b : ndarray) : ndarray :=
  mk_array [(length (data a) + length (data b) - 1)%nat]
           (direct_convolve (data a) (data b)).

(** ** The identity kernel *)

(** The unit impulse at the origin of an array of shape [s]: 1 at index
    [(0, .., 0)], 0 elsewhere. *)
Definition impulse0 (s : list nat) : ndarray :=
  mk_array s (match prod_shape s with
              | O => []
              | S n => one :: repeat zero n
              end).

(** An image of finite, strictly positive pixels. *)
Definition positive (x : fl) : Prop := exists q, x = Fin q /\ (0 < q)%Qc.

Definition positive_image (a : ndarray) : Prop := Forall positive (data a).

(** The array of zeros of the shape of [a]. *)
Definition zeros_like (a : ndarray) : ndarray :=
  mk_array (shape a) (repeat zero (length (data a))).

(** The array of the shape of [a] filled with [v]. *)
Definition full_like (a : ndarray) (v : fl) : ndarray :=
  mk_array (shape a) (repeat v (length (data a))).

(** [2^-k], the scaling of the unitary transform on [4^k] pixels; it and
    its inverse [2^k] are floats, and multiplying or dividing a float by
    them is exact. *)
Definition half_power (k : nat) : Qc := Qcpower (Q2Qc (1 # 2)) k.

(** What the loop of [richardson_lucy] keeps true on a positive image when
    the kernel is the identity: the predicted image is the image, the last
    residual, if any, is zero, and after one iteration the estimate is the
    image. *)
Definition identity_inv (image : ndarray) (i : nat) (st : rl_state) : Prop :=
  y_t st = image /\
  ((1 <= i)%nat ->
   g_tm1 st = Some (zeros_like image) /\ u_t st = Some image).

(** The transfer function of the unit impulse on 2 by 2 images. *)
Definition small_identity_otf : Small.freq :=
  mk_array [2%nat; 2%nat] (repeat Small.half 4).

(** The unit impulse at the centre of an array of shape [s]: 1 at index
    [(n1 // 2, .., nk // 2)], 0 elsewhere, for axes of length at least 1. *)
Fixpoint centred_data (s : list nat) : list fl :=
  match s with
  | [] => [one]
  | n :: s' =>
      repeat zero (n / 2 * prod_shape s')
      ++ centred_data s'
      ++ repeat zero ((n - n / 2 - 1) * prod_shape s')
  end.

Definition centred_impulse (s : list nat) : ndarray :=
  mk_array s (centred_data s).

(** The data of [impulse0], axis by axis. *)
Fixpoint origin_data (s : list nat) : list fl :=
  match s with
  | [] => [one]
  | n :: s' => origin_data s' ++ repeat zero ((n - 1) * prod_shape s')
  end.

(** The values of a unit impulse. *)
Definition zero_or_one (x : fl) : Prop := x = zero \/ x = one.

(** ** [slice_maker] *)

(** Python's [int(x)] on a number: the integer part, towards zero. *)
Definition py_int (x : Qc) : Z := Z.quot (Qnum x) (Zpos (Qden x)).

(** A [slice(start, stop)] object. *)
Record py_slice : Type := mk_slice {
  slice_start : Z;
  slice_stop : Z
}.

Definition slice_maker (y0 x0 : Qc) (width : Z) : list py_slice :=
  let y0 := py_int y0 in
  let x0 := py_int x0 in
  let half1 := (width / 2)%Z in
  let half2 := (width - half1)%Z in
  let ystart := (y0 - half1)%Z in
  let xstart := (x0 - half1)%Z in
  let yend := (y0 + half2)%Z in
  let xend := (x0 + half2)%Z in
  [mk_slice (Z.max 0 ystart) yend; mk_slice (Z.max 0 xstart) xend].

(** ** [scale_uint16] *)

(** [astype('uint16')] on one float: the integer part, towards zero, taken
    modulo [2^16]; what a value that is not finite becomes depends on the
    platform and is the parameter [special]. *)
Definition astype_uint16 (special : fl) (x : fl) : fl :=
  match x with
  | Fin q => of_Z (py_int q mod 65536)
  | _ => special
  end.

(** [np.iinfo(np.uint16)] and the conversion to that type. *)
Definition uint16 (special : fl) : dtype_info :=
  mk_dtype (of_Z 0) (of_Z 65535) (astype_uint16 special).

Definition scale_uint16 (special : fl) (a : ndarray) : res ndarray :=
  scaled <- scale a None ;;
  Ok (amap (astype_uint16 special)
           (amap (fun x => x * of_Z (2 ^ 16 - 1))%fl scaled)).

(** A slice of [width] elements around [c], cut at index 0: it never starts
    below 0, it stops [width - width // 2] after [c], it is never longer
    than [width], and it is not cut when [c] is at least [width // 2]. *)
Definition centred_slice (width c : Z) (s : py_slice) : Prop :=
  (0 <= slice_start s)%Z /\
  slice_stop s = (c + (width - width / 2))%Z /\
  (slice_stop s - slice_start s <= width)%Z /\
  ((width / 2 <= c)%Z ->
   slice_start s = (c - width / 2)%Z /\
   (slice_stop s - slice_start s = width)%Z).

(** ** The default target of [fft_pad] *)

(** [nextpow2] on the length of an axis. *)
Definition pow2_ceil (n : nat) : nat :=
  Z.to_nat (Z.shiftl 1 (bit_length (Z.of_nat n - 1))).

Definition power_of_two (m : nat) : Prop := exists k : nat, m = (2 ^ k)%nat.

(** ** Bounds of an estimate *)

(** No element compares below 0. *)
Definition no_negative (a : ndarray) : Prop :=
  Forall (fun x => Fl.ltb x zero = false) (data a).

(** No element compares above 1. *)
Definition none_above_one (a : ndarray) : Prop :=
  Forall (fun x => Fl.gtb x one = false) (data a).

(** ** Shapes of the modes of [fftconvolve] *)

(** [s1 - s2 + 1] along every axis. *)
Definition valid_shape (s1 s2 : list nat) : list nat :=
  map2 (fun a b => (a - b + 1)%nat) s1 s2.

(** Every extent of [s2] is at most the one of [s1]. *)
Definition fits_in (s2 s1 : list nat) : Prop := Forall2 le s2 s1.

Definition known_mode (mode : String.string) : Prop :=
  mode = "full"%string \/ mode = "same"%string \/ mode = "valid"%string.

(** ** Values of a scaled array *)

(** A [nan] stays a [nan]; a finite value becomes one between 0 and 1. *)
Definition scaled_value (x y : fl) : Prop :=
  (x = NaN /\ y = NaN) \/
  (exists q r, x = Fin q /\ y = Fin r /\ (0 <= r <= 1)%Qc).

(** Every element is finite or a [nan]. *)
Definition finite_or_nan (l : list fl) : Prop :=
  Forall (fun x => isfinite x = true \/ x = NaN) l.

Definition not_nan (x : fl) : bool := negb (isnan x).

(** The 16-bit value of a number between 0 and 1: the integer part of
    [r * 65535]. *)
Definition to_uint16 (r : Qc) : Z := py_int (r * Q2Qc (inject_Z 65535))%Qc.

(** ** Constant images *)

(** [np.full((rows, cols), v)] *)
Definition np_full (rows cols : nat) (v : fl) : ndarray :=
  mk_array [rows; cols] (repeat v (rows * cols)).

(** ** Arrays of the shape of the image *)

(** An array numpy can build, of the shape of [image]. *)
Definition like (image a : ndarray) : Prop :=
  shape a = shape image /\ wf a.

Definition opt_like (image : ndarray) (o : option ndarray) : Prop :=
  match o with
  | Some a => like image a
  | None => True
  end.

Definition hval_like (image : ndarray) (h : hval) : Prop :=
  match h with
  | HArr a => like image a
  | HZero => True
  end.

Definition bound_like (image : ndarray) (o : option hval) : Prop :=
  match o with
  | Some h => hval_like image h
  | None => True
  end.

(** What the variables of the loop of [richardson_lucy] keep between two
    iterations: the arrays among them have the shape of the image. *)
Definition shape_inv (image : ndarray) (st : rl_state) : Prop :=
  like image (y_t st) /\ opt_like image (u_t st) /\
  opt_like image (u_tm1 st) /\ bound_like image (h2_t st).

(** ** Calls that return *)

(** Whether a call returned, rather than raised. *)
Definition returns {A : Type} (r : res A) : bool :=
  match r with
  | Ok _ => true
  | Raise _ => false
  end.

(** * Properties *)

(** ** Arithmetic on canonical rationals *)

Module QcFacts.

Local Open Scope Qc_scope.

(** Goals and hypotheses on [Qc] read on [Q], where [lra] applies. *)
Ltac to_Q :=
  unfold Qcle, Qclt, Qcminus, Qcdiv, Qcplus, Qcopp, Qcmult, Qcinv in *;
  cbn [this Q2Qc] in *;
  rewrite ?Qred_correct in *.

Lemma compare_refl (q : Qc) : (q ?= q) = Eq.
Proof. now apply Qceq_alt. Qed.

Lemma sub_pos (m M : Qc) : m <= M -> m <> M -> (M + - m ?= 0) = Gt.
Proof.
  intros Hle Hne.
  assert (Hlt : m < M).
  { destruct (Qclt_le_dec m M) as [H | H]; [exact H |].
    exfalso. apply Hne. now apply Qcle_antisym. }
  apply Qcgt_alt. to_Q. lra.
Qed.

Lemma ratio_bounds (v m M : Qc) :
  m <= v -> v <= M -> m < M ->
  0 <= (v + - m) / (M + - m) * (1 + - 0) + 0 <= 1.
Proof.
  intros H1 H2 H3.
  assert (Hpos : 0 < M + - m) by (to_Q; lra).
  assert (Hd : M + - m <> 0) by (apply not_eq_sym, Qclt_not_eq, Hpos).
  replace ((v + - m) / (M + - m) * (1 + - 0) + 0) with ((v + - m) / (M + - m))
    by (field; exact Hd).
  split.
  - apply Qcmult_lt_0_le_reg_r with (z := M + - m); [exact Hpos |].
    replace ((v + - m) / (M + - m) * (M + - m)) with (v + - m)
      by (field; exact Hd).
    to_Q. lra.
  - apply Qcmult_lt_0_le_reg_r with (z := M + - m); [exact Hpos |].
    replace ((v + - m) / (M + - m) * (M + - m)) with (v + - m)
      by (field; exact Hd).
    to_Q. lra.
Qed.

Lemma ratio_top (m M : Qc) :
  m <> M -> (M + - m) / (M + - m) * (1 + - 0) + 0 = 1.
Proof.
  intro Hne. field. intro E. apply Hne.
  symmetry. rewrite <- (Qcplus_0_r m), <- E. ring.
Qed.

Lemma ratio_bottom (m M : Qc) :
  m <> M -> (m + - m) / (M + - m) * (1 + - 0) + 0 = 0.
Proof.
  intro Hne. field. intro E. apply Hne.
  symmetry. rewrite <- (Qcplus_0_r m), <- E. ring.
Qed.

End QcFacts.

(** ** Deciding equalities of computed arrays *)

Lemma fl_same_eq (x y : fl) : fl_same x y = true -> x = y.
Proof.
  destruct x as [a | | |], y as [b | | |]; cbn; try discriminate; try reflexivity.
  intro H. f_equal. apply Qc_is_canon. now apply Qeq_bool_eq.
Qed.

Lemma list_same_eq (l1 : list fl) : forall l2, list_same l1 l2 = true -> l1 = l2.
Proof.
  induction l1 as [| x l1 IH]; intros [| y l2] H; try discriminate H.
  - reflexivity.
  - cbn in H. apply andb_true_iff in H as [Hx Hl].
    now rewrite (fl_same_eq x y Hx), (IH l2 Hl).
Qed.

Lemma array_same_eq (a b : ndarray) : array_same a b = true -> a = b.
Proof.
  destruct a as [sa da], b as [sb db]. unfold array_same. cbn [shape data].
  destruct (list_eq_dec Nat.eq_dec sa sb) as [-> | ]; [| discriminate].
  cbn [andb]. intro H. now rewrite (list_same_eq da db H).
Qed.

Lemma ok_array_same (r : res ndarray) (b : ndarray) :
  match r with Ok a => array_same a b | Raise _ => false end = true ->
  r = Ok b.
Proof.
  destruct r as [a | e]; [| discriminate].
  intro H. now rewrite (array_same_eq a b H).
Qed.

(** A computed array equals the one written out. *)
Ltac same_array := apply ok_array_same; vm_compute; reflexivity.

Lemma ok_fl_same (r : res fl) (y : fl) :
  match r with Ok x => fl_same x y | Raise _ => false end = true ->
  r = Ok y.
Proof.
  destruct r as [x | e]; [| discriminate].
  intro H. now rewrite (fl_same_eq x y H).
Qed.

(** A computed float equals the one written out. *)
Ltac same_fl := apply ok_fl_same; vm_compute; reflexivity.

(** ** Pad widths *)

Lemma calc_pad_sum (o n : Z) :
  (fst (_calc_pad o n) + snd (_calc_pad o n) = n - o)%Z.
Proof. unfold _calc_pad; simpl; lia. Qed.

(** C7, as the spec words it, fails: from 11 to 16 the padding is 5, and the
    larger half, 3, comes first. *)
Lemma calc_pad_smaller_first_fails :
  _calc_pad 11 16 = (3, 2)%Z /\
  Z.odd (16 - 11) = true /\
  ~ (fst (_calc_pad 11 16) < snd (_calc_pad 11 16))%Z.
Proof. vm_compute; repeat split; intro H; discriminate H. Qed.

(** C7 (amended): for every old size and strictly larger new size,
    [_calc_pad] splits the padding into two non-negative halves that add up
    to it and differ by at most one; when the padding is odd the larger half
    comes first (before the array) and the smaller one second. *)
Theorem calc_pad_split (oldnum newnum : Z) (Hlt : (oldnum < newnum)%Z) :
  let before := fst (_calc_pad oldnum newnum) in
  let after := snd (_calc_pad oldnum newnum) in
  (before + after = newnum - oldnum)%Z /\
  (0 <= after <= before)%Z /\
  (before - after <= 1)%Z /\
  (Z.odd (newnum - oldnum) = true -> before = after + 1)%Z /\
  (Z.even (newnum - oldnum) = true -> before = after)%Z.
Proof.
  unfold _calc_pad; cbn [fst snd].
  set (w := (newnum - oldnum)%Z).
  assert (Hw : (0 < w)%Z) by (unfold w; lia).
  pose proof (Z.div_mod w 2 ltac:(lia)) as Hdm.
  pose proof (Z.mod_pos_bound w 2 ltac:(lia)) as Hb.
  repeat split; try lia.
  - intro Hodd. rewrite Zmod_odd, Hodd in Hb, Hdm. lia.
  - intro Hev. rewrite Zmod_even, Hev in Hb, Hdm. lia.
Qed.

Lemma calc_pad_split_witness :
  (10 < 17)%Z /\
  _calc_pad 10 17 = (4, 3)%Z /\
  (fst (_calc_pad 10 17) = snd (_calc_pad 10 17) + 1)%Z.
Proof.
  split; [lia | split; [reflexivity |]].
  pose proof (calc_pad_split 10 17 ltac:(lia)) as H; cbv zeta in H.
  destruct H as (_ & _ & _ & Hodd & _).
  exact (Hodd eq_refl).
Defined.

(** ** Guards on the number of dimensions *)

Section Guards.

Variables (rfreq : Type)
          (urfftn : ndarray -> res rfreq) (uirfftn : rfreq -> res ndarray)
          (ufmul : rfreq -> rfreq -> res rfreq) (fconj : rfreq -> rfreq)
          (ufwin : ndarray -> rfreq -> res rfreq).
Variables (cfreq : Type)
          (rfftn : ndarray -> res cfreq)
          (irfftn : cfreq -> list nat -> res ndarray)
          (fftn : ndarray -> list nat -> res cfreq)
          (ifftn_real : cfreq -> res ndarray)
          (fmul : cfreq -> cfreq -> res cfreq)
          (fwin : cfreq -> ndarray -> res cfreq)
          (rfft_free : bool).

Let rl := richardson_lucy rfreq urfftn uirfftn ufmul fconj ufwin.
Let conv := fftconvolve cfreq rfftn irfftn fftn ifftn_real fmul fwin rfft_free.

(** C5: [richardson_lucy] raises on its first statement that can fail, the
    assertion on the numbers of dimensions, whenever image and PSF differ in
    rank, and [fftconvolve] raises in its second test whenever its operands
    do; nothing catches either error and nothing is computed before. *)
Theorem rank_mismatch_raises :
  (forall image psf iterations clip prediction_order win_func,
      ndim psf <> ndim image ->
      rl image psf iterations clip prediction_order win_func
      = Raise AssertionError) /\
  (forall in1 in2 mode win_func,
      ndim in1 <> ndim in2 ->
      conv in1 in2 mode win_func = Raise ValueError).
Proof.
  split.
  - intros image psf iterations clip order win_func Hne.
    unfold rl, richardson_lucy.
    apply Nat.eqb_neq in Hne. now rewrite Hne.
  - intros in1 in2 mode win_func Hne.
    unfold conv, fftconvolve.
    destruct (Nat.eqb_spec (ndim in1) 0) as [H1 | H1];
      destruct (Nat.eqb_spec (ndim in2) 0) as [H2 | H2]; cbn [andb];
      try congruence;
      apply Nat.eqb_neq in Hne; now rewrite Hne.
Qed.

(** C10 (amended): when the operands have the same number of dimensions
    and one of them is empty, [fftconvolve] returns [np.array([])] for every
    mode string, recognised or not: the test on the sizes comes before the
    mode is looked at (and after the test on the ranks). *)
Theorem empty_operand_returns_empty in1 in2 mode win_func :
  ndim in1 = ndim in2 ->
  size in1 = 0%nat \/ size in2 = 0%nat ->
  conv in1 in2 mode win_func = Ok (mk_array [0%nat] []).
Proof.
  intros Hnd Hsz.
  unfold conv, fftconvolve.
  assert (Hpos : ndim in1 <> 0%nat).
  { intro H0. unfold ndim, size in *.
    destruct (shape in1); [| discriminate H0].
    destruct (shape in2); [| discriminate Hnd].
    cbn in Hsz. destruct Hsz; discriminate. }
  apply Nat.eqb_neq in Hpos. rewrite Hpos. cbn [andb].
  apply Nat.eqb_eq in Hnd. rewrite Hnd. cbn [negb].
  destruct Hsz as [Hz | Hz]; apply Nat.eqb_eq in Hz; rewrite Hz;
    [reflexivity | now rewrite orb_true_r].
Qed.

End Guards.

Lemma rank_mismatch_raises_witness :
  ndim (Small2.vec [1; 2]%Z) <> ndim (Small.img 1 2 3 4) /\
  Small.richardson_lucy (Small.img 1 2 3 4) (Small2.vec [1; 2]%Z) 3 false 2 None
  = Raise AssertionError /\
  Small2.fftconvolve (Small2.vec [1; 2]%Z) (Small.img 1 2 3 4) "full"%string np_ones
  = Raise ValueError.
Proof.
  assert (Hne : ndim (Small2.vec [1; 2]%Z) <> ndim (Small.img 1 2 3 4))
    by (cbn; lia).
  split; [exact Hne | split].
  - apply (proj1 (rank_mismatch_raises Small.freq Small.urfftn Small.uirfftn
                    Small.fmul Small.fconj Small.fwin
                    Small2.freq Small2.rfftn Small2.irfftn Small2.fftn
                    Small2.ifftn_real Small2.fmul Small2.fwin true)).
    exact Hne.
  - apply (proj2 (rank_mismatch_raises Small.freq Small.urfftn Small.uirfftn
                    Small.fmul Small.fconj Small.fwin
                    Small2.freq Small2.rfftn Small2.irfftn Small2.fftn
                    Small2.ifftn_real Small2.fmul Small2.fwin true)).
    exact Hne.
Defined.

(** C10, as worded, fails: an empty vector convolved with a 2 by 2 array
    raises, because the ranks are compared first. *)
Lemma empty_operand_other_rank_raises :
  size (mk_array [0%nat] []) = 0%nat /\
  Small2.fftconvolve (mk_array [0%nat] []) (Small.img 1 2 3 4) "anything"%string np_ones
  = Raise ValueError.
Proof. split; reflexivity. Qed.

Lemma empty_operand_returns_empty_witness :
  ndim (mk_array [0%nat] []) = ndim (Small2.vec [1; 2]%Z) /\
  (size (mk_array [0%nat] []) = 0%nat \/ size (Small2.vec [1; 2]%Z) = 0%nat) /\
  Small2.fftconvolve (mk_array [0%nat] []) (Small2.vec [1; 2]%Z) "anything"%string np_ones
  = Ok (mk_array [0%nat] []).
Proof.
  split; [reflexivity | split; [left; reflexivity |]].
  apply (empty_operand_returns_empty Small2.freq Small2.rfftn Small2.irfftn
           Small2.fftn Small2.ifftn_real Small2.fmul Small2.fwin true);
    [reflexivity | left; reflexivity].
Defined.

(** ** [scale] *)

Section ScaleFacts.

Local Open Scope Qc_scope.

Lemma finite_list (l : list fl) :
  forallb isfinite l = true -> exists qs, l = map Fin qs.
Proof.
  induction l as [| x l IH]; intro H.
  - now exists [].
  - cbn in H. apply andb_true_iff in H as [Hx Hl].
    destruct (IH Hl) as [qs ->].
    destruct x as [q | | |]; try discriminate Hx.
    now exists (q :: qs).
Qed.

Lemma ltb_Fin (x y : Qc) : Fl.ltb (Fin x) (Fin y) = true <-> x < y.
Proof.
  cbn. rewrite Qclt_alt. destruct (x ?= y); split; congruence.
Qed.

Lemma ltb_Fin_false (x y : Qc) : Fl.ltb (Fin x) (Fin y) = false <-> y <= x.
Proof.
  split; intro H.
  - apply Qcnot_lt_le. intro Hlt. apply ltb_Fin in Hlt. congruence.
  - destruct (Fl.ltb (Fin x) (Fin y)) eqn:E; [| reflexivity].
    apply ltb_Fin in E. exfalso. now apply (Qcle_not_lt _ _ H).
Qed.

Lemma nanmin_fold (qs : list Qc) : forall q,
  exists m, fold_left nanmin2 (map Fin qs) (Fin q) = Fin m /\
            m <= q /\ Forall (Qcle m) qs /\ In m (q :: qs).
Proof.
  induction qs as [| x qs IH]; intro q; cbn [map fold_left].
  - exists q. repeat split; [apply Qcle_refl | constructor | now left].
  - cbn [nanmin2]. destruct (Fl.ltb (Fin x) (Fin q)) eqn:E.
    + apply ltb_Fin in E. destruct (IH x) as (m & Hm & Hle & Hall & Hin).
      exists m. repeat split.
      * exact Hm.
      * apply Qcle_trans with x; [exact Hle | now apply Qclt_le_weak].
      * now constructor.
      * destruct Hin as [-> | Hin]; [right; now left | right; now right].
    + apply ltb_Fin_false in E. destruct (IH q) as (m & Hm & Hle & Hall & Hin).
      exists m. repeat split.
      * exact Hm.
      * exact Hle.
      * constructor; [now apply Qcle_trans with q | exact Hall].
      * destruct Hin as [-> | Hin]; [now left | right; now right].
Qed.

Lemma nanmax_fold (qs : list Qc) : forall q,
  exists M, fold_left nanmax2 (map Fin qs) (Fin q) = Fin M /\
            q <= M /\ Forall (fun x => x <= M) qs /\ In M (q :: qs).
Proof.
  induction qs as [| x qs IH]; intro q; cbn [map fold_left].
  - exists q. repeat split; [apply Qcle_refl | constructor | now left].
  - cbn [nanmax2]. destruct (Fl.ltb (Fin q) (Fin x)) eqn:E.
    + apply ltb_Fin in E. destruct (IH x) as (M & HM & Hle & Hall & Hin).
      exists M. repeat split.
      * exact HM.
      * apply Qcle_trans with x; [now apply Qclt_le_weak | exact Hle].
      * now constructor.
      * destruct Hin as [-> | Hin]; [right; now left | right; now right].
    + apply ltb_Fin_false in E. destruct (IH q) as (M & HM & Hle & Hall & Hin).
      exists M. repeat split.
      * exact HM.
      * exact Hle.
      * constructor; [now apply Qcle_trans with q | exact Hall].
      * destruct Hin as [-> | Hin]; [now left | right; now right].
Qed.

(** The extremes of a non-empty list of finite values are finite members of
    the list and bound it. *)
Lemma nan_extremes (q : Qc) (qs : list Qc) :
  exists m M,
    nanmin (map Fin (q :: qs)) = Fin m /\ nanmax (map Fin (q :: qs)) = Fin M /\
    Forall (fun x => m <= x <= M) (q :: qs) /\
    In m (q :: qs) /\ In M (q :: qs).
Proof.
  destruct (nanmin_fold qs q) as (m & Hm & Hmq & Hmall & Hmin).
  destruct (nanmax_fold qs q) as (M & HM & HMq & HMall & HMin).
  exists m, M. repeat split; try assumption.
  constructor; [now split |].
  rewrite Forall_forall in *. intros x Hx. split; auto.
Qed.

Lemma no_nan_finite (qs : list Qc) : existsb isnan (map Fin qs) = false.
Proof. induction qs; [reflexivity | exact IHqs]. Qed.

Lemma bound_above_one : 1 < overflow_bound.
Proof. vm_compute. reflexivity. Qed.

(** A result between the two limits is kept. *)
Lemma f64_keeps (q : Qc) :
  - overflow_bound < q -> q < overflow_bound -> f64 (Fin q) = Fin q.
Proof.
  intros Hlo Hhi. unfold f64.
  rewrite (proj2 (ltb_Fin q overflow_bound) Hhi).
  now rewrite (proj2 (ltb_Fin (- overflow_bound) q) Hlo).
Qed.

Lemma f64_finite (q : Qc) :
  isfinite (f64 (Fin q)) = true ->
  - overflow_bound < q /\ q < overflow_bound.
Proof.
  unfold f64.
  destruct (Fl.ltb (Fin q) (Fin overflow_bound)) eqn:Ehi; [| discriminate].
  destruct (Fl.ltb (Fin (- overflow_bound)) (Fin q)) eqn:Elo; [| discriminate].
  intros _. split; now apply ltb_Fin.
Qed.

(** A result between 0 and one that is kept is kept. *)
Lemma f64_below (q d : Qc) :
  0 <= q -> q <= d -> d < overflow_bound -> f64 (Fin q) = Fin q.
Proof.
  intros H0 Hd Hb. apply f64_keeps.
  - apply Qclt_le_trans with (y := 0); [| exact H0].
    pose proof bound_above_one as H1. QcFacts.to_Q. revert H1.
    QcFacts.to_Q. intro H1. lra.
  - now apply Qcle_lt_trans with (y := d).
Qed.

Lemma f64_unit (q : Qc) : 0 <= q <= 1 -> f64 (Fin q) = Fin q.
Proof.
  intros [H0 H1]. apply (f64_below q 1 H0 H1 bound_above_one).
Qed.

Lemma scale_elem (m M v : Qc) :
  m <= v -> v <= M -> m <> M -> M + - m < overflow_bound ->
  add64 (mul64 (div64 (sub64 (Fin v) (Fin m)) (sub64 (Fin M) (Fin m)))
               (sub64 one zero))
        zero
  = Fin (unit_scaled m M v).
Proof.
  intros Hmv HvM Hne Hfit.
  assert (Hle : m <= M) by now apply Qcle_trans with (y := v).
  assert (Hlt : m < M).
  { destruct (Qclt_le_dec m M) as [H | H]; [exact H |].
    exfalso. apply Hne. now apply Qcle_antisym. }
  assert (Hunit : 0 <= unit_scaled m M v <= 1)
    by exact (QcFacts.ratio_bounds v m M Hmv HvM Hlt).
  assert (Hd : M + - m <> 0).
  { intro E. apply Hne. symmetry. rewrite <- (Qcplus_0_r m), <- E. ring. }
  assert (Hnum : 0 <= v + - m /\ v + - m <= M + - m)
    by (split; QcFacts.to_Q; lra).
  assert (Hden : 0 <= M + - m /\ M + - m <= M + - m)
    by (split; QcFacts.to_Q; lra).
  unfold add64, mul64, div64, sub64, one, zero.
  cbn [Fl.sub Fl.neg Fl.add].
  rewrite (f64_below (v + - m) (M + - m) (proj1 Hnum) (proj2 Hnum) Hfit).
  rewrite (f64_below (M + - m) (M + - m) (proj1 Hden) (proj2 Hden) Hfit).
  assert (Hone : f64 (Fin (1 + - 0)) = Fin (1 + - 0)).
  { apply f64_unit. split; QcFacts.to_Q; lra. }
  rewrite Hone.
  unfold Fl.div, sgn. rewrite (QcFacts.sub_pos m M Hle Hne).
  assert (Hq : (v + - m) / (M + - m) = unit_scaled m M v)
    by (unfold unit_scaled; field; exact Hd).
  rewrite Hq, (f64_unit _ Hunit).
  cbn [Fl.mul].
  assert (Hp : unit_scaled m M v * (1 + - 0) = unit_scaled m M v) by ring.
  rewrite Hp, (f64_unit _ Hunit).
  cbn [Fl.add].
  assert (Hs : unit_scaled m M v + 0 = unit_scaled m M v) by ring.
  rewrite Hs. apply (f64_unit _ Hunit).
Qed.

(** The range of finite values with extremes [m] and [M] that fits. *)
Lemma range_fits_Fin (l : list fl) (m M : Qc) :
  nanmin l = Fin m -> nanmax l = Fin M -> range_fits l ->
  M + - m < overflow_bound.
Proof.
  unfold range_fits, sub64. intros -> ->. cbn [Fl.sub Fl.neg Fl.add].
  intro H. exact (proj2 (f64_finite _ H)).
Qed.

End ScaleFacts.

(** What [scale] without a dtype returns on finite values that are not all
    equal and whose range fits: finite values between 0 and 1, both
    reached. *)
Lemma scale_finite_form (a : ndarray) :
  all_finite a = true ->
  nanmin (data a) <> nanmax (data a) ->
  range_fits (data a) ->
  exists out : list Qc,
    scale a None = Ok (mk_array (shape a) (map Fin out)) /\
    length out = length (data a) /\
    (forall r, In r out -> (0 <= r <= 1)%Qc) /\
    In 1%Qc out /\ In 0%Qc out.
Proof.
  intros Hfin Hrange Hfit.
  destruct (finite_list _ Hfin) as [qs Hqs].
  destruct qs as [| q qs]; [rewrite Hqs in Hrange; now contradiction Hrange |].
  destruct (nan_extremes q qs) as (m & M & Hm & HM & Hall & Hmin & HMin).
  assert (HmM : m <> M) by (intros ->; apply Hrange; rewrite Hqs; congruence).
  assert (Hle : (m <= M)%Qc).
  { rewrite Forall_forall in Hall.
    destruct (Hall q (or_introl eq_refl)) as [H1 H2].
    now apply Qcle_trans with q. }
  assert (Hlt : (m < M)%Qc).
  { destruct (Qclt_le_dec m M) as [H | H]; [exact H |].
    exfalso. apply HmM. now apply Qcle_antisym. }
  assert (Hb : (M + - m < overflow_bound)%Qc).
  { apply (range_fits_Fin (data a)); [now rewrite Hqs | now rewrite Hqs | exact Hfit]. }
  exists (map (unit_scaled m M) (q :: qs)).
  split.
  { unfold scale, amap. rewrite Hqs.
    rewrite Hm, HM, !map_map.
    cbn [map]. cbv iota. do 2 f_equal.
    change (map (fun x : Qc =>
                   add64 (mul64 (div64 (sub64 (Fin x) (Fin m))
                                       (sub64 (Fin M) (Fin m)))
                                (sub64 one zero)) zero)
                (q :: qs)
            = map (fun x => Fin (unit_scaled m M x)) (q :: qs)).
    apply map_ext_in. intros v Hv.
    rewrite Forall_forall in Hall. destruct (Hall v Hv) as [H1 H2].
    now apply scale_elem. }
  split; [now rewrite Hqs, !length_map |].
  split.
  { intros r Hr. apply in_map_iff in Hr as (v & <- & Hv).
    rewrite Forall_forall in Hall. destruct (Hall v Hv).
    now apply QcFacts.ratio_bounds. }
  split; apply in_map_iff.
  - exists M. split; [now apply QcFacts.ratio_top | exact HMin].
  - exists m. split; [now apply QcFacts.ratio_bottom | exact Hmin].
Qed.

(** C8, as worded, fails: on a constant array the range [dmax - dmin] is
    zero and every element becomes [0/0]. *)
Lemma scale_constant_array_is_nan :
  existsb isnan (data (Small2.vec [5; 5]%Z)) = false /\
  scale (Small2.vec [5; 5]%Z) None = Ok (mk_array [2%nat] [NaN; NaN]).
Proof. split; [reflexivity | same_array]. Qed.

(** Nor does it hold on every array that is not constant: between
    [-2^1023] and [2^1023] the range overflows to [inf], and the largest
    value becomes [inf / inf]. *)
Lemma scale_overflowing_range_is_nan :
  all_finite (Small2.vec [- 2 ^ 1023; 2 ^ 1023]%Z) = true /\
  scale (Small2.vec [- 2 ^ 1023; 2 ^ 1023]%Z) None
  = Ok (mk_array [2%nat] [zero; NaN]).
Proof. split; [reflexivity | same_array]. Qed.

(** C8 (amended): for every non-empty array of finite floats that are not
    all equal and whose range [dmax - dmin] does not overflow, [scale]
    without a dtype returns an array of the same shape whose values all lie
    in [0,1], whose maximum is exactly 1 and whose minimum is exactly 0. *)
Theorem scale_unit_range (a : ndarray) :
  data a <> [] ->
  all_finite a = true ->
  nanmin (data a) <> nanmax (data a) ->
  range_fits (data a) ->
  exists b,
    scale a None = Ok b /\
    shape b = shape a /\
    length (data b) = length (data a) /\
    (forall x, In x (data b) -> exists q, x = Fin q /\ (0 <= q <= 1)%Qc) /\
    amax b = one /\ amin b = zero.
Proof.
  intros _ Hfin Hrange Hfit.
  destruct (scale_finite_form a Hfin Hrange Hfit)
    as (out & Hs & Hlen & Hin01 & H1 & H0).
  exists (mk_array (shape a) (map Fin out)).
  split; [exact Hs | split; [reflexivity |]].
  split; [cbn [data]; now rewrite length_map |].
  split.
  { cbn [data]. intros x Hx. apply in_map_iff in Hx as (r & <- & Hr).
    exists r. split; [reflexivity | now apply Hin01]. }
  unfold amax, amin; cbn [data]. rewrite no_nan_finite.
  destruct out as [| r0 rs]; [contradiction H1 |].
  destruct (nan_extremes r0 rs) as (lo & hi & Hlo & Hhi & Hbound & Hloin & Hhiin).
  rewrite Hlo, Hhi.
  rewrite Forall_forall in Hbound.
  unfold one, zero.
  split; f_equal; apply Qcle_antisym.
  - now apply Hin01.
  - now apply Hbound.
  - now apply Hbound.
  - now apply Hin01.
Qed.

Lemma scale_unit_range_witness :
  data (Small2.vec [2; 5; 3]%Z) <> [] /\
  all_finite (Small2.vec [2; 5; 3]%Z) = true /\
  nanmin (data (Small2.vec [2; 5; 3]%Z)) <> nanmax (data (Small2.vec [2; 5; 3]%Z)) /\
  range_fits (data (Small2.vec [2; 5; 3]%Z)) /\
  exists b,
    scale (Small2.vec [2; 5; 3]%Z) None = Ok b /\
    shape b = shape (Small2.vec [2; 5; 3]%Z) /\
    length (data b) = length (data (Small2.vec [2; 5; 3]%Z)) /\
    (forall x, In x (data b) -> exists q, x = Fin q /\ (0 <= q <= 1)%Qc) /\
    amax b = one /\ amin b = zero.
Proof.
  assert (H1 : data (Small2.vec [2; 5; 3]%Z) <> []) by discriminate.
  assert (H2 : all_finite (Small2.vec [2; 5; 3]%Z) = true) by reflexivity.
  assert (H3 : nanmin (data (Small2.vec [2; 5; 3]%Z))
               <> nanmax (data (Small2.vec [2; 5; 3]%Z))).
  { intro E. apply (f_equal (fun x => match x with Fin q => Qnum (this q) | _ => 0%Z end)) in E.
    vm_compute in E. discriminate E. }
  assert (H4 : range_fits (data (Small2.vec [2; 5; 3]%Z)))
    by (vm_compute; reflexivity).
  split; [exact H1 | split; [exact H2 | split; [exact H3 | split; [exact H4 |]]]].
  exact (scale_unit_range (Small2.vec [2; 5; 3]%Z) H1 H2 H3 H4).
Defined.

(** ** Sums of finite values *)

Section Totals.

Local Open Scope Qc_scope.

Lemma qsum_app (l1 l2 : list Qc) : qsum (l1 ++ l2) = qsum l1 + qsum l2.
Proof.
  induction l1 as [| x l1 IH]; cbn [app qsum]; [ring | rewrite IH; ring].
Qed.

Lemma ftotal_app (l1 l2 : list fl) : ftotal (l1 ++ l2) = ftotal l1 + ftotal l2.
Proof. unfold ftotal. now rewrite map_app, qsum_app. Qed.

Lemma ftotal_zeros (k : nat) : ftotal (repeat zero k) = 0.
Proof.
  induction k as [| k IH]; [reflexivity |].
  unfold ftotal in *. cbn [repeat map qsum finite_part zero]. rewrite IH. ring.
Qed.

Lemma fold_add_Fin (qs : list Qc) : forall acc,
  fold_left Fl.add (map Fin qs) (Fin acc) = Fin (acc + qsum qs).
Proof.
  induction qs as [| q qs IH]; intro acc; cbn [map fold_left qsum Fl.add].
  - f_equal. ring.
  - rewrite IH. f_equal. ring.
Qed.

Lemma sum_Fin (qs : list Qc) : Fl.sum (map Fin qs) = Fin (qsum qs).
Proof.
  unfold Fl.sum, zero. rewrite fold_add_Fin. f_equal. ring.
Qed.

Lemma ftotal_Fin (qs : list Qc) : ftotal (map Fin qs) = qsum qs.
Proof.
  unfold ftotal. rewrite map_map. cbn [finite_part]. now rewrite map_id.
Qed.

Lemma sum_finite (l : list fl) :
  forallb isfinite l = true -> Fl.sum l = Fin (ftotal l).
Proof.
  intro H. destruct (finite_list l H) as [qs ->].
  now rewrite sum_Fin, ftotal_Fin.
Qed.

Lemma qsum_nonneg (l : list Qc) :
  (forall r, In r l -> 0 <= r) -> 0 <= qsum l.
Proof.
  induction l as [| x l IH]; intro H; cbn [qsum].
  - apply Qcle_refl.
  - assert (0 <= x) by (apply H; now left).
    assert (0 <= qsum l) by (apply IH; intros; apply H; now right).
    QcFacts.to_Q. lra.
Qed.

Lemma qsum_ge_member (l : list Qc) (v : Qc) :
  (forall r, In r l -> 0 <= r) -> In v l -> v <= qsum l.
Proof.
  induction l as [| x l IH]; intros H Hin; [contradiction |].
  cbn [qsum]. destruct Hin as [-> | Hin].
  - assert (0 <= qsum l) by (apply qsum_nonneg; intros; apply H; now right).
    QcFacts.to_Q. lra.
  - assert (0 <= x) by (apply H; now left).
    assert (v <= qsum l) by (apply IH; [intros; apply H; now right | exact Hin]).
    QcFacts.to_Q. lra.
Qed.

Lemma qsum_map_div (l : list Qc) (t : Qc) :
  t <> 0 -> qsum (map (fun p => p / t) l) = qsum l / t.
Proof.
  intro Ht. induction l as [| x l IH]; cbn [map qsum].
  - field. exact Ht.
  - rewrite IH. field. exact Ht.
Qed.

End Totals.

(** ** Blocks and padding *)

Section Padding.

Local Open Scope nat_scope.

Lemma chunks_count (n k : nat) : forall d, length (chunks n k d) = n.
Proof.
  induction n as [| n IH]; intro d; cbn [chunks length]; [reflexivity |].
  now rewrite IH.
Qed.

Lemma chunks_concat (n k : nat) : forall d,
  length d = n * k -> concat (chunks n k d) = d.
Proof.
  induction n as [| n IH]; intros d Hlen; cbn [chunks concat].
  - destruct d; [reflexivity | discriminate Hlen].
  - rewrite IH; [apply firstn_skipn |].
    rewrite length_skipn, Hlen. cbn [Nat.mul]. lia.
Qed.

Lemma chunks_length (n k : nat) : forall d,
  length d = n * k -> Forall (fun c => length c = k) (chunks n k d).
Proof.
  induction n as [| n IH]; intros d Hlen; cbn [chunks]; constructor.
  - rewrite length_firstn, Hlen. cbn [Nat.mul]. lia.
  - apply IH. rewrite length_skipn, Hlen. cbn [Nat.mul]. lia.
Qed.

Lemma flat_map_length_const {A B : Type} (f : A -> list B) (m : nat) (l : list A) :
  Forall (fun c => length (f c) = m) l ->
  length (flat_map f l) = length l * m.
Proof.
  induction 1 as [| c l Hc Hl IH]; cbn [flat_map length]; [reflexivity |].
  rewrite length_app, IH, Hc. cbn [Nat.mul]. lia.
Qed.

Lemma ftotal_flat_map (f : list fl -> list fl) (l : list (list fl)) :
  Forall (fun c => ftotal (f c) = ftotal c) l ->
  ftotal (flat_map f l) = ftotal (concat l).
Proof.
  induction 1 as [| c l Hc Hl IH]; cbn [flat_map concat]; [reflexivity |].
  now rewrite !ftotal_app, IH, Hc.
Qed.

Lemma forallb_flat_map {A B : Type} (p : B -> bool) (f : A -> list B) (l : list A) :
  Forall (fun c => forallb p (f c) = true) l ->
  forallb p (flat_map f l) = true.
Proof.
  induction 1 as [| c l Hc Hl IH]; cbn [flat_map]; [reflexivity |].
  rewrite forallb_app, Hc, IH. reflexivity.
Qed.

Lemma forallb_concat_elim {A : Type} (p : A -> bool) (l : list (list A)) :
  forallb p (concat l) = true -> Forall (fun c => forallb p c = true) l.
Proof.
  induction l as [| c l IH]; cbn [concat]; intro H; constructor.
  - rewrite forallb_app in H. now apply andb_true_iff in H.
  - apply IH. rewrite forallb_app in H. now apply andb_true_iff in H.
Qed.

Lemma zeros_finite (k : nat) : forallb isfinite (repeat zero k) = true.
Proof. induction k; [reflexivity | exact IHk]. Qed.

Lemma Forall_repeat {A : Type} (P : A -> Prop) (x : A) (n : nat) :
  P x -> Forall P (repeat x n).
Proof. intro H. induction n; cbn; constructor; assumption. Qed.

(** The blocks [np.pad] lays out along the first axis in mode ['constant']:
    as many as the padded axis is long, each as large as one block of the
    input, and together the input with zeros around. *)
Lemma constant_blocks (n k before after : nat) (d : list fl) :
  length d = n * k ->
  let L := repeat (repeat zero k) before ++ chunks n k d
           ++ repeat (repeat zero k) after in
  length L = before + n + after /\
  Forall (fun c => length c = k) L /\
  ftotal (concat L) = ftotal d /\
  (forallb isfinite d = true -> Forall (fun c => forallb isfinite c = true) L).
Proof.
  intros Hlen L. unfold L. repeat split.
  - rewrite !length_app, !repeat_length, chunks_count. lia.
  - rewrite !Forall_app. repeat split;
      [apply Forall_repeat, repeat_length | now apply chunks_length
       | apply Forall_repeat, repeat_length].
  - rewrite !concat_app, !ftotal_app, chunks_concat by exact Hlen.
    assert (Hz : forall m, ftotal (concat (repeat (repeat zero k) m)) = 0%Qc).
    { induction m as [| m IH]; [reflexivity |].
      cbn [repeat concat]. rewrite ftotal_app, ftotal_zeros, IH. ring. }
    rewrite !Hz. ring.
  - intro Hfin. rewrite !Forall_app. repeat split;
      [apply Forall_repeat, zeros_finite | | apply Forall_repeat, zeros_finite].
    apply forallb_concat_elim. now rewrite chunks_concat.
Qed.

Lemma pad_constant_facts (s : list nat) : forall pads d,
  length d = prod_shape s ->
  length (pad_data Constant s pads d) = prod_shape (pad_shape s pads) /\
  ftotal (pad_data Constant s pads d) = ftotal d /\
  (forallb isfinite d = true ->
   forallb isfinite (pad_data Constant s pads d) = true).
Proof.
  induction s as [| n s IH]; intros pads d Hlen.
  - cbn. auto.
  - destruct pads as [| [before after] pads]; [cbn; auto |].
    cbn [pad_data pad_shape fill_block prod_shape fold_right].
    cbn [prod_shape fold_right] in Hlen.
    fold (prod_shape s) in *. fold (prod_shape (pad_shape s pads)).
    destruct (constant_blocks n (prod_shape s) before after d Hlen)
      as (HL & Hk & Htot & Hfin).
    set (L := repeat (repeat zero (prod_shape s)) before
              ++ chunks n (prod_shape s) d
              ++ repeat (repeat zero (prod_shape s)) after) in *.
    repeat split.
    + rewrite flat_map_length_const with (m := prod_shape (pad_shape s pads)).
      * now rewrite HL.
      * eapply Forall_impl; [| exact Hk]. intros c Hc. now apply IH.
    + rewrite ftotal_flat_map; [exact Htot |].
      eapply Forall_impl; [| exact Hk]. intros c Hc. now apply IH.
    + intro Hd. apply forallb_flat_map.
      specialize (Hfin Hd). rewrite Forall_forall in *.
      intros c Hc. apply IH; auto.
Qed.

Lemma concat_zero_blocks (k m : nat) :
  concat (repeat (repeat zero k) m) = repeat zero (m * k).
Proof.
  induction m as [| m IH]; [reflexivity |].
  cbn [repeat concat Nat.mul]. now rewrite IH, repeat_app.
Qed.

(** Blocks that each gain [e] zeros gain them all together. *)
Lemma flat_map_gains_zeros (f : list fl -> list fl) (e : nat)
    (L : list (list fl)) :
  Forall (fun c => Permutation (f c) (c ++ repeat zero e)) L ->
  Permutation (flat_map f L) (concat L ++ repeat zero (length L * e)).
Proof.
  induction 1 as [| c L Hc HL IH]; [reflexivity |].
  cbn [flat_map concat length Nat.mul].
  rewrite repeat_app.
  transitivity ((c ++ repeat zero e) ++ concat L ++ repeat zero (length L * e)).
  { now apply Permutation_app. }
  rewrite <- !app_assoc. apply Permutation_app_head.
  apply Permutation_app_swap_app.
Qed.

(** In mode ['constant'] the padded data are the data and zeros. *)
Lemma pad_constant_perm (s : list nat) : forall pads d,
  length d = prod_shape s ->
  Permutation (pad_data Constant s pads d)
              (d ++ repeat zero (prod_shape (pad_shape s pads) - prod_shape s)).
Proof.
  induction s as [| n s IH]; intros pads d Hlen.
  - cbn. now rewrite app_nil_r.
  - destruct pads as [| [before after] pads].
    { cbn [pad_data pad_shape]. rewrite Nat.sub_diag. cbn. now rewrite app_nil_r. }
    cbn [pad_data pad_shape fill_block prod_shape fold_right].
    cbn [prod_shape fold_right] in Hlen.
    fold (prod_shape s) in *. fold (prod_shape (pad_shape s pads)).
    set (k := prod_shape s) in *.
    set (k' := prod_shape (pad_shape s pads)).
    destruct (constant_blocks n k before after d Hlen) as (HL & Hk & _ & _).
    set (L := repeat (repeat zero k) before ++ chunks n k d
              ++ repeat (repeat zero k) after) in *.
    assert (Hkk : k <= k').
    { pose proof (proj1 (pad_constant_facts s pads (repeat zero k)
                           (repeat_length zero k))) as Hp.
      pose proof (Permutation_length
                    (IH pads (repeat zero k) (repeat_length zero k))) as Hq.
      fold k k' in Hp, Hq. rewrite Hp, length_app, !repeat_length in Hq. lia. }
    transitivity (concat L ++ repeat zero (length L * (k' - k))).
    { apply flat_map_gains_zeros.
      eapply Forall_impl; [| exact Hk]. intros c Hc. now apply IH. }
    unfold L at 1. rewrite !concat_app, !concat_zero_blocks.
    rewrite chunks_concat by exact Hlen. rewrite HL.
    replace ((before + n + after) * k' - n * k)
      with (before * k + (after * k + (before + n + after) * (k' - k))) by nia.
    rewrite !repeat_app, <- !app_assoc.
    apply Permutation_app_swap_app.
Qed.

End Padding.

Section PadToShape.

Lemma calc_pad_fit (o n : nat) :
  (o <= n)%nat ->
  pad_negative (_calc_pad (Z.of_nat o) (Z.of_nat n)) = false /\
  (fst (pad_to_nat (_calc_pad (Z.of_nat o) (Z.of_nat n))) + o
   + snd (pad_to_nat (_calc_pad (Z.of_nat o) (Z.of_nat n))) = n)%nat.
Proof.
  intro Hle. unfold pad_negative, pad_to_nat, _calc_pad. cbn [fst snd].
  set (w := (Z.of_nat n - Z.of_nat o)%Z).
  assert (Hw : (0 <= w)%Z) by (unfold w; lia).
  pose proof (Z.div_mod w 2 ltac:(lia)) as Hdm.
  pose proof (Z.mod_pos_bound w 2 ltac:(lia)) as Hb.
  split.
  - apply orb_false_iff. split; apply Z.ltb_ge; lia.
  - unfold w in *. lia.
Qed.

(** The pad widths [fft_pad] computes towards a shape that is nowhere
    smaller than the array's are accepted by [np.pad] and lead to it. *)
Lemma zip_pads_fit (s0 s : list nat) :
  Forall2 le s0 s ->
  let padding := zip_pads (map Z.of_nat s0)
                          (map (fun n => Some (Z.of_nat n)) s) in
  existsb pad_negative padding = false /\
  length padding = length s0 /\
  pad_shape s0 (map pad_to_nat padding) = s.
Proof.
  induction 1 as [| o n s0 s Hle Hall IH]; [cbn; auto |].
  cbn [map zip_pads existsb length pad_shape].
  destruct IH as (Hneg & Hlen & Hshape).
  destruct (calc_pad_fit o n Hle) as [Hn Hsum].
  repeat split.
  - now rewrite Hn, Hneg.
  - now rewrite Hlen.
  - destruct (pad_to_nat (_calc_pad (Z.of_nat o) (Z.of_nat n))) as [b a] eqn:E.
    cbn [pad_shape]. cbn [fst snd] in Hsum. now rewrite Hshape, Hsum.
Qed.

Lemma fft_pad_to_shape (a : ndarray) (s : list nat) (mode : pad_mode) :
  shape a <> [] ->
  Forall2 le (shape a) s ->
  exists pads,
    fft_pad a (shape_arg s) mode
    = Ok (mk_array s (pad_data mode (shape a) pads (data a))) /\
    pad_shape (shape a) pads = s.
Proof.
  intros Hrank Hfit.
  destruct (zip_pads_fit _ _ Hfit) as (Hneg & Hlen & Hshape).
  eexists. split; [| exact Hshape].
  unfold fft_pad, shape_arg, np_pad. cbn [bind].
  assert (Hne : (length (zip_pads (map Z.of_nat (shape a))
                                  (map (fun n => Some (Z.of_nat n)) s)) =? 0)%nat
                = false).
  { apply Nat.eqb_neq. rewrite Hlen. destruct (shape a); [now contradiction Hrank |].
    discriminate. }
  rewrite Hne, Hneg. unfold ndim. rewrite Hlen, Nat.eqb_refl, Hshape.
  reflexivity.
Qed.

End PadToShape.

(** ** Normalisation of the point spread function *)

(** C1, as worded, fails: [richardson_lucy] asks [fft_pad] for the mode
    ['constant'].  A two-pixel PSF padded to four pixels gets zeros on both
    sides, where the median fill of the wording would put one half. *)
Lemma psf_padding_is_not_median :
  psf_normalize (Small2.vec [1; 3]%Z) [4%nat]
  = Ok (mk_array [4%nat] [zero; zero; one; zero]) /\
  psf_normalize_median (Small2.vec [1; 3]%Z) [4%nat]
  = Ok (mk_array [4%nat] [of_Q (1 # 4); zero; of_Q (1 # 2); of_Q (1 # 4)]) /\
  psf_normalize (Small2.vec [1; 3]%Z) [4%nat]
  <> psf_normalize_median (Small2.vec [1; 3]%Z) [4%nat].
Proof.
  assert (H1 : psf_normalize (Small2.vec [1; 3]%Z) [4%nat]
               = Ok (mk_array [4%nat] [zero; zero; one; zero])) by same_array.
  assert (H2 : psf_normalize_median (Small2.vec [1; 3]%Z) [4%nat]
               = Ok (mk_array [4%nat] [of_Q (1 # 4); zero; of_Q (1 # 2); of_Q (1 # 4)]))
    by same_array.
  split; [exact H1 | split; [exact H2 |]].
  rewrite H1, H2. intro E.
  apply (f_equal (fun r => match r with
                           | Ok a => fl_same (hd NaN (data a)) zero
                           | Raise _ => false
                           end)) in E.
  vm_compute in E. discriminate E.
Qed.

(** Values that are not all equal are at least two. *)
Lemma two_values_have_axis (a : ndarray) :
  wf a -> all_finite a = true -> nanmin (data a) <> nanmax (data a) ->
  shape a <> [].
Proof.
  intros Hwf Hfin Hrange E. unfold wf, size in Hwf. rewrite E in Hwf.
  unfold all_finite in Hfin.
  destruct (data a) as [| x [| y l]]; try discriminate Hwf.
  destruct x as [q | | |]; try discriminate Hfin.
  now apply Hrange.
Qed.

(** C1 (amended): for a PSF of finite floats that are not all equal, whose
    range does not overflow, and an image shape nowhere smaller than the
    PSF's, [richardson_lucy] normalises the PSF by min-max rescaling to
    [0,1] (both reached), then pads it to the image's shape with zeros
    (mode ['constant']: the padded array holds the scaled values and
    zeros), and finally divides every element by the sum of the padded
    array, a finite number that is at least 1. *)
Theorem psf_normalize_zero_fill (psf : ndarray) (s : list nat) :
  wf psf ->
  all_finite psf = true ->
  nanmin (data psf) <> nanmax (data psf) ->
  range_fits (data psf) ->
  Forall2 le (shape psf) s ->
  exists scaled padded total,
    scale psf None = Ok scaled /\
    (forall x, In x (data scaled) -> exists q, x = Fin q /\ (0 <= q <= 1)%Qc) /\
    In one (data scaled) /\ In zero (data scaled) /\
    fft_pad scaled (shape_arg s) Constant = Ok padded /\
    shape padded = s /\ wf padded /\
    zero_padded (data scaled) (data padded) /\
    asum padded = Fin total /\ (1 <= total)%Qc /\
    psf_normalize psf s = Ok (amap (fun x => x / asum padded)%fl padded).
Proof.
  intros Hwf Hfin Hrange Hrfit Hfit.
  pose proof (two_values_have_axis psf Hwf Hfin Hrange) as Hrank.
  destruct (scale_finite_form psf Hfin Hrange Hrfit)
    as (out & Hs & Hlen & Hin01 & H1 & H0).
  set (scaled := mk_array (shape psf) (map Fin out)) in *.
  destruct (fft_pad_to_shape scaled s Constant Hrank Hfit) as (pads & Hpad & Hshape).
  cbn [shape data scaled] in Hpad, Hshape.
  set (pdata := pad_data Constant (shape psf) pads (map Fin out)) in *.
  assert (Hlen' : length (map Fin out) = prod_shape (shape psf))
    by (rewrite length_map, Hlen; exact Hwf).
  destruct (pad_constant_facts (shape psf) pads (map Fin out) Hlen')
    as (Hplen & Hptot & Hpfin).
  pose proof (pad_constant_perm (shape psf) pads (map Fin out) Hlen') as Hperm.
  fold pdata in Hplen, Hptot, Hpfin, Hperm.
  assert (Hofin : forallb isfinite (map Fin out) = true).
  { clear. induction out; [reflexivity | exact IHout]. }
  specialize (Hpfin Hofin).
  rewrite ftotal_Fin in Hptot.
  assert (Hsum : Fl.sum pdata = Fin (qsum out))
    by (now rewrite (sum_finite pdata Hpfin), Hptot).
  assert (HT : (1 <= qsum out)%Qc).
  { apply qsum_ge_member; [| exact H1]. intros r Hr. now apply Hin01. }
  exists scaled, (mk_array s pdata), (qsum out).
  split; [exact Hs |].
  split.
  { cbn [data scaled]. intros x Hx. apply in_map_iff in Hx as (r & <- & Hr).
    exists r. split; [reflexivity | now apply Hin01]. }
  split; [cbn [data scaled]; apply in_map_iff; now exists 1%Qc |].
  split; [cbn [data scaled]; apply in_map_iff; now exists 0%Qc |].
  split; [exact Hpad |].
  split; [reflexivity |].
  split; [unfold wf, size; cbn [data shape]; now rewrite Hplen, Hshape |].
  split.
  { unfold zero_padded. cbn [data scaled].
    rewrite Hplen, Hlen', Hshape in *. exact Hperm. }
  split; [exact Hsum |].
  split; [exact HT |].
  unfold psf_normalize. rewrite Hs. cbn [bind]. rewrite Hpad. reflexivity.
Qed.

Lemma psf_normalize_zero_fill_witness :
  wf (Small2.vec [1; 3]%Z) /\
  all_finite (Small2.vec [1; 3]%Z) = true /\
  nanmin (data (Small2.vec [1; 3]%Z)) <> nanmax (data (Small2.vec [1; 3]%Z)) /\
  range_fits (data (Small2.vec [1; 3]%Z)) /\
  Forall2 le (shape (Small2.vec [1; 3]%Z)) [4%nat] /\
  exists scaled padded total,
    scale (Small2.vec [1; 3]%Z) None = Ok scaled /\
    (forall x, In x (data scaled) -> exists q, x = Fin q /\ (0 <= q <= 1)%Qc) /\
    In one (data scaled) /\ In zero (data scaled) /\
    fft_pad scaled (shape_arg [4%nat]) Constant = Ok padded /\
    shape padded = [4%nat] /\ wf padded /\
    zero_padded (data scaled) (data padded) /\
    asum padded = Fin total /\ (1 <= total)%Qc /\
    psf_normalize (Small2.vec [1; 3]%Z) [4%nat]
    = Ok (amap (fun x => x / asum padded)%fl padded).
Proof.
  assert (H1 : wf (Small2.vec [1; 3]%Z)) by reflexivity.
  assert (H2 : all_finite (Small2.vec [1; 3]%Z) = true) by reflexivity.
  assert (H3 : nanmin (data (Small2.vec [1; 3]%Z))
               <> nanmax (data (Small2.vec [1; 3]%Z))).
  { intro E.
    apply (f_equal (fun x => fl_same x (of_Z 1))) in E.
    vm_compute in E. discriminate E. }
  assert (H4 : range_fits (data (Small2.vec [1; 3]%Z)))
    by (vm_compute; reflexivity).
  assert (H5 : Forall2 le (shape (Small2.vec [1; 3]%Z)) [4%nat])
    by (repeat constructor).
  repeat (split; [assumption |]).
  exact (psf_normalize_zero_fill (Small2.vec [1; 3]%Z) [4%nat] H1 H2 H3 H4 H5).
Defined.

(** ** Elementwise operations on arrays of one shape *)

Section SameShape.

Lemma bdim_refl (n : nat) : bdim n n = Some n.
Proof. unfold bdim. now rewrite Nat.eqb_refl. Qed.

Lemma bshape_rev_refl (s : list nat) : bshape_rev s s = Some s.
Proof.
  induction s as [| n s IH]; [reflexivity |].
  cbn [bshape_rev]. now rewrite bdim_refl, IH.
Qed.

Lemma broadcast_shape_refl (s : list nat) : broadcast_shape s s = Some s.
Proof.
  unfold broadcast_shape. rewrite bshape_rev_refl. cbn. now rewrite rev_involutive.
Qed.

Lemma flat_map_id (f : list fl -> list fl) (l : list (list fl)) :
  Forall (fun c => f c = c) l -> flat_map f l = concat l.
Proof.
  induction 1 as [| c l Hc Hl IH]; cbn [flat_map concat]; [reflexivity |].
  now rewrite Hc, IH.
Qed.

Lemma expand_refl (s : list nat) : forall d,
  length d = prod_shape s -> expand s s d = d.
Proof.
  induction s as [| n s IH]; intros d Hlen; [reflexivity |].
  cbn [expand]. rewrite Nat.eqb_refl.
  cbn [prod_shape fold_right] in Hlen. fold (prod_shape s) in Hlen.
  rewrite flat_map_id; [now apply chunks_concat |].
  eapply Forall_impl; [| now apply chunks_length].
  intros c Hc. now apply IH.
Qed.

Lemma broadcast_data_refl (a : ndarray) :
  wf a -> broadcast_data a (shape a) = data a.
Proof.
  intro Hwf. unfold broadcast_data, ndim. rewrite Nat.sub_diag. cbn [repeat app].
  now apply expand_refl.
Qed.

(** On two well-formed arrays of one shape a binary operation is the
    elementwise one, and cannot raise. *)
Lemma amap2_same_shape (f : fl -> fl -> fl) (a b : ndarray) :
  wf a -> wf b -> shape b = shape a ->
  amap2 f a b = Ok (mk_array (shape a) (zip_with f (data a) (data b))).
Proof.
  intros Ha Hb Hs. unfold amap2. rewrite Hs, broadcast_shape_refl.
  rewrite broadcast_data_refl by exact Ha.
  rewrite <- Hs at 2. now rewrite broadcast_data_refl by exact Hb.
Qed.

Lemma zip_with_length (f : fl -> fl -> fl) (l1 : list fl) : forall l2,
  length l1 = length l2 -> length (zip_with f l1 l2) = length l1.
Proof.
  induction l1 as [| x l1 IH]; intros [| y l2] H; try discriminate H; cbn.
  - reflexivity.
  - f_equal. apply IH. now injection H.
Qed.

Lemma amap2_same_shape_wf (f : fl -> fl -> fl) (a b c : ndarray) :
  wf a -> wf b -> shape b = shape a ->
  amap2 f a b = Ok c -> shape c = shape a /\ wf c.
Proof.
  intros Ha Hb Hs H. rewrite (amap2_same_shape f a b Ha Hb Hs) in H.
  injection H as <-. split; [reflexivity |].
  unfold wf, size in *. cbn [data shape].
  rewrite zip_with_length; [exact Ha |]. rewrite Ha, Hb. now rewrite Hs.
Qed.

Lemma amap_wf (f : fl -> fl) (a : ndarray) : wf a -> wf (amap f a).
Proof. unfold wf, size, amap. cbn [data shape]. now rewrite length_map. Qed.

End SameShape.

(** ** The acceleration coefficient *)

Section Alpha.

Local Open Scope Qc_scope.

(** Whatever the quotient of the two sums is, the coefficient that is kept
    is a finite number between 0 and 1. *)
Lemma alpha_in_unit (x : fl) :
  exists q, finite_or_zero (clamp_unit x) = Fin q /\ 0 <= q <= 1.
Proof.
  assert (H01 : 0 <= 0 <= 1 /\ 0 <= 1 <= 1)
    by (repeat split; QcFacts.to_Q; lra).
  destruct x as [q | | |]; unfold clamp_unit, pymin, pymax, Fl.gtb.
  - destruct (Fl.ltb one (Fin q)) eqn:E1.
    + exists 1. split; [reflexivity | apply H01].
    + apply ltb_Fin_false in E1.
      destruct (Fl.ltb (Fin q) zero) eqn:E2.
      * exists 0. split; [reflexivity | apply H01].
      * apply ltb_Fin_false in E2. exists q. now split.
  - exists 1. split; [reflexivity | apply H01].
  - exists 0. split; [reflexivity | apply H01].
  - exists 0. split; [reflexivity | apply H01].
Qed.

Lemma geb_zero_Fin (q : Qc) : 0 <= q -> Fl.geb (Fin q) zero = true.
Proof.
  intro H. unfold Fl.geb, Fl.leb, Fl.ltb, Fl.eqb, zero.
  destruct (0 ?= q) eqn:E; try reflexivity.
  exfalso. apply Qcgt_alt in E. now apply (Qcle_not_lt _ _ H).
Qed.

Lemma leb_Fin (p q : Qc) : p <= q -> Fl.leb (Fin p) (Fin q) = true.
Proof.
  intro H. unfold Fl.leb, Fl.ltb, Fl.eqb.
  destruct (p ?= q) eqn:E; try reflexivity.
  exfalso. apply Qcgt_alt in E. now apply (Qcle_not_lt _ _ H).
Qed.

(** [rl_alpha] never trips its two assertions. *)
Lemma rl_alpha_value (i : nat) (g1 g2 : ndarray) (num : fl) :
  (1 < i)%nat ->
  dot g1 g2 = Ok num ->
  rl_alpha i (Some g1) (Some g2)
  = Ok (finite_or_zero (clamp_unit (num / sum_squares g2)%fl)).
Proof.
  intros Hi Hdot. unfold rl_alpha.
  apply Nat.ltb_lt in Hi. rewrite Hi. cbn [need bind]. rewrite Hdot. cbn [bind].
  destruct (alpha_in_unit (num / sum_squares g2)%fl) as (q & Hq & H0 & H1).
  rewrite Hq. rewrite geb_zero_Fin by exact H0.
  unfold one. rewrite leb_Fin by exact H1. reflexivity.
Qed.

Lemma rl_alpha_early (i : nat) (g1 g2 : option ndarray) :
  (i <= 1)%nat -> rl_alpha i g1 g2 = Ok zero.
Proof.
  intro Hi. unfold rl_alpha.
  apply Nat.ltb_ge in Hi. now rewrite Hi.
Qed.

(** Adding the float [s * 0] for a finite [s] changes no element. *)
Lemma add_finite_zero (s : Qc) (x : fl) : (x + Fin s * zero)%fl = x.
Proof.
  destruct x as [v | | |]; cbn; try reflexivity.
  f_equal. ring.
Qed.

Lemma add_scaled_zero (a : ndarray) (s : Qc) :
  add_scaled a (Fin s) HZero = Ok a.
Proof.
  unfold add_scaled, amap. destruct a as [sh d]. cbn [shape data].
  do 2 f_equal. rewrite map_ext with (g := fun x => x).
  - apply map_id.
  - intro x. apply add_finite_zero.
Qed.

Lemma half_square_finite (q : Qc) :
  exists r, (Fin q * Fin q / of_Z 2)%fl = Fin r.
Proof. eexists. cbn. reflexivity. Qed.

End Alpha.

(** ** The loop without prediction *)

Lemma clamp_below_idem (a : ndarray) :
  clamp_below zero (clamp_below zero a) = clamp_below zero a.
Proof.
  unfold clamp_below, amap. cbn [shape data]. f_equal.
  rewrite map_map. apply map_ext. intro x.
  destruct (Fl.ltb x zero) eqn:E; [reflexivity | now rewrite E].
Qed.

Lemma clamped_nonneg (a : ndarray) :
  all_finite (clamp_below zero a) = true ->
  forallb (fun x => Fl.geb x zero) (data (clamp_below zero a)) = true.
Proof.
  unfold all_finite, clamp_below, amap. cbn [data].
  induction (data a) as [| x l IH]; [reflexivity |].
  cbn [map forallb]. intro H. apply andb_true_iff in H as [Hx Hl].
  rewrite (IH Hl), andb_true_r.
  destruct (Fl.ltb x zero) eqn:E; [reflexivity |].
  destruct x as [v | | |]; try discriminate Hx.
  apply geb_zero_Fin. now apply ltb_Fin_false in E.
Qed.

Section Order0.

Variables (freq : Type)
          (urfftn : ndarray -> res freq) (uirfftn : freq -> res ndarray)
          (fmul : freq -> freq -> res freq) (fconj : freq -> freq)
          (fwin : ndarray -> freq -> res freq).
Variable image : ndarray.

(** The image is an array numpy can build, and the inverse transform
    returns arrays of the image's shape. *)
Hypothesis image_wf : wf image.
Hypothesis uirfftn_shape :
  forall f a, uirfftn f = Ok a -> shape a = shape image /\ wf a.

Let update := rl_update freq urfftn uirfftn fmul fconj image.
Let step := rl_step freq urfftn uirfftn fmul fconj image.
Let loop := rl_loop freq urfftn uirfftn fmul fconj image.
Let vanilla := vanilla_loop freq urfftn uirfftn fmul fconj image.

Lemma rl_update_shape (otf : freq) (y u : ndarray) :
  shape y = shape image -> wf y ->
  update otf y = Ok u ->
  shape u = shape image /\ wf u /\ clamp_below zero u = u.
Proof.
  intros Hs Hwf. unfold update, rl_update.
  destruct (urfftn y) as [fy |]; [cbn [bind] | discriminate].
  destruct (fmul otf fy) as [p |]; [cbn [bind] | discriminate].
  destruct (uirfftn p) as [reblur |]; [cbn [bind] | discriminate].
  destruct (amap2 Fl.div image reblur) as [ratio |]; [cbn [bind] | discriminate].
  destruct (urfftn ratio) as [fr |]; [cbn [bind] | discriminate].
  destruct (fmul (fconj otf) fr) as [p' |]; [cbn [bind] | discriminate].
  destruct (uirfftn p') as [estimate |] eqn:He; [cbn [bind] | discriminate].
  destruct (uirfftn_shape _ _ He) as [Hes Hewf].
  destruct (amap2 Fl.mul y estimate) as [u0 |] eqn:Hu; [cbn [bind] | discriminate].
  intro H. injection H as <-.
  destruct (amap2_same_shape_wf Fl.mul y estimate u0 Hwf Hewf) as [Hu0 Hu0wf];
    [congruence | exact Hu | ].
  repeat split.
  - cbn [clamp_below amap shape]. congruence.
  - now apply amap_wf.
  - apply clamp_below_idem.
Qed.

Lemma rl_step_order0 (otf : freq) (i : nat) (st : rl_state) :
  order0_inv image i st ->
  match update otf (y_t st) with
  | Raise e => step otf 0%Z i st = Raise e
  | Ok u' =>
      if all_finite u'
      then exists st', step otf 0%Z i st = Ok st' /\ y_t st' = u' /\
                       order0_inv image (S i) st'
      else step otf 0%Z i st = Raise AssertionError
  end.
Proof.
  intros (Hys & Hywf & Hprev).
  destruct (update otf (y_t st)) as [u' | e] eqn:Hup;
    unfold step, rl_step; fold update; rewrite Hup; cbn [bind];
    [| reflexivity].
  destruct (rl_update_shape otf (y_t st) u' Hys Hywf Hup) as (Hus & Huwf & Hclamp).
  assert (Hg : amap2 Fl.sub u' (y_t st)
               = Ok (mk_array (shape u') (zip_with Fl.sub (data u') (data (y_t st)))))
    by (apply amap2_same_shape; [assumption | assumption | congruence]).
  destruct (amap2_same_shape_wf Fl.sub u' (y_t st) _ Huwf Hywf
              ltac:(congruence) Hg) as [Hgs Hgwf].
  rewrite Hg. cbn [bind].
  set (g := mk_array (shape u') (zip_with Fl.sub (data u') (data (y_t st)))) in *.
  assert (Halpha : exists a : Qc,
             rl_alpha i (Some g) (g_tm1 st) = Ok (Fin a) /\
             ((i <= 1)%nat -> Fl.eqb (Fin a) zero = true)).
  { destruct (Nat.le_gt_cases i 1) as [Hi | Hi].
    - exists 0%Qc. split; [now apply rl_alpha_early | reflexivity].
    - destruct (Hprev ltac:(lia)) as ((g0 & Hg0 & Hg0s & Hg0wf) & _ & _).
      rewrite Hg0.
      assert (Hdot : dot g g0 = Ok (asum (mk_array (shape g)
                                            (zip_with Fl.mul (data g) (data g0))))).
      { unfold dot. rewrite amap2_same_shape by (try assumption; congruence).
        reflexivity. }
      rewrite (rl_alpha_value i g g0 _ Hi Hdot).
      destruct (alpha_in_unit (asum (mk_array (shape g)
                                       (zip_with Fl.mul (data g) (data g0)))
                               / sum_squares g0)%fl) as (q & Hq & _).
      exists q. split; [now rewrite Hq | intro; lia]. }
  destruct Halpha as (a & Ha & Hearly). rewrite Ha. cbn [bind].
  assert (Hhs : (if negb (Fl.eqb (Fin a) zero)
                 then if (0 <? 0)%Z
                      then prev <- need (u_t st) ;;
                           h1 <- amap2 Fl.sub u' prev ;;
                           (if (1 <? 0)%Z
                            then twice <- amap2 Fl.sub u' (amap (Fl.mul (of_Z 2)) prev) ;;
                                 prev2 <- need (u_tm1 st) ;;
                                 h2 <- amap2 Fl.add twice prev2 ;;
                                 Ok (Some (HArr h1), Some (HArr h2))
                            else Ok (Some (HArr h1), Some HZero))
                      else Ok (Some HZero, h2_t st)
                 else Ok (Some HZero, Some HZero))
                = Ok (Some HZero, Some HZero)).
  { destruct (Fl.eqb (Fin a) zero) eqn:E; cbn [negb]; [reflexivity |].
    cbn [Z.ltb Z.compare].
    destruct (Nat.le_gt_cases i 1) as [Hi | Hi];
      [specialize (Hearly Hi); congruence |].
    destruct (Hprev ltac:(lia)) as (_ & Hh2 & _). now rewrite Hh2. }
  rewrite Hhs. cbn [bind fst snd lookup].
  rewrite add_scaled_zero. cbn [bind].
  destruct (half_square_finite a) as [r Hr]. rewrite Hr.
  rewrite add_scaled_zero. cbn [bind].
  unfold enusure_positive.
  destruct (all_finite u') eqn:Hfin; [| reflexivity].
  cbn [bind]. rewrite Hclamp.
  assert (Hnn : forallb (fun x => Fl.geb x zero) (data u') = true).
  { rewrite <- Hclamp. apply clamped_nonneg. now rewrite Hclamp. }
  rewrite Hnn.
  eexists. split; [reflexivity |]. split; [reflexivity |].
  unfold order0_inv. cbn [y_t g_tm1 h2_t u_t].
  repeat split; try assumption.
  exists g. repeat split; [congruence | exact Hgwf].
Qed.

Lemma rl_loop_order0 (otf : freq) (n : nat) : forall i st,
  order0_inv image i st ->
  match loop otf 0%Z n i st with
  | Ok st' => vanilla otf n (y_t st) = Ok (y_t st') /\
              order0_inv image (i + n) st'
  | Raise e => vanilla otf n (y_t st) = Raise e
  end.
Proof.
  induction n as [| n IH]; intros i st Hinv.
  - cbn. split; [reflexivity | now rewrite Nat.add_0_r].
  - unfold loop, vanilla. cbn [rl_loop vanilla_loop].
    fold loop. fold vanilla. fold step. fold update.
    pose proof (rl_step_order0 otf i st Hinv) as Hstep.
    destruct (update otf (y_t st)) as [u' | e]; cbn [bind].
    + destruct (all_finite u').
      * destruct Hstep as (st' & Hst' & Hy & Hinv').
        rewrite Hst'. cbn [bind]. rewrite <- Hy.
        specialize (IH (S i) st' Hinv').
        destruct (loop otf 0%Z n (S i) st') as [st'' | e]; [| exact IH].
        now rewrite Nat.add_succ_r.
      * now rewrite Hstep.
    + now rewrite Hstep.
Qed.

Lemma order0_inv_init : order0_inv image 0 (rl_init image).
Proof.
  unfold order0_inv, rl_init. cbn [y_t].
  repeat split; [exact image_wf | lia | lia | lia].
Qed.

(** C2: with [prediction_order = 0] the predicted image is the current
    estimate after every iteration, the estimates are those of the
    unaccelerated iteration, and [richardson_lucy] returns what the
    unaccelerated algorithm returns, errors included. *)
Theorem order0_is_vanilla :
  (forall otf k,
      match rl_state_after freq urfftn uirfftn fmul fconj image otf 0%Z k with
      | Ok st => vanilla otf k image = Ok (y_t st) /\
                 ((1 <= k)%nat -> u_t st = Some (y_t st))
      | Raise e => vanilla otf k image = Raise e
      end) /\
  (forall psf iterations clip win_func,
      richardson_lucy freq urfftn uirfftn fmul fconj fwin
                      image psf iterations clip 0%Z win_func
      = vanilla_richardson_lucy freq urfftn uirfftn fmul fconj fwin
                                image psf iterations clip win_func).
Proof.
  assert (Hloop : forall otf k,
      match rl_state_after freq urfftn uirfftn fmul fconj image otf 0%Z k with
      | Ok st => vanilla otf k image = Ok (y_t st) /\
                 ((1 <= k)%nat -> u_t st = Some (y_t st))
      | Raise e => vanilla otf k image = Raise e
      end).
  { intros otf k. unfold rl_state_after. fold loop.
    pose proof (rl_loop_order0 otf k 0 (rl_init image) order0_inv_init) as H.
    cbn [y_t rl_init] in H.
    destruct (loop otf 0%Z k 0%nat (rl_init image)) as [st | e]; [| exact H].
    destruct H as [Hv (_ & _ & Hu)]. split; [exact Hv |].
    intro Hk. now apply Hu. }
  split; [exact Hloop |].
  intros psf iterations clip win_func.
  unfold richardson_lucy, vanilla_richardson_lucy.
  destruct (negb (ndim psf =? ndim image)%nat); [reflexivity |].
  destruct (rl_window image win_func) as [window |]; [cbn [bind] | reflexivity].
  destruct (psf_normalize psf (shape image)) as [psf_norm |];
    [cbn [bind] | reflexivity].
  destruct (rl_otf freq urfftn fwin window psf_norm) as [otf |];
    [cbn [bind] | reflexivity].
  specialize (Hloop otf (Z.to_nat iterations)).
  unfold rl_state_after in Hloop. fold vanilla.
  destruct (Z.to_nat iterations) as [| n] eqn:En.
  - cbn [rl_loop bind rl_init u_t]. destruct clip; reflexivity.
  - destruct (rl_loop freq urfftn uirfftn fmul fconj image otf 0%Z (S n) 0
                      (rl_init image)) as [st | e].
    + destruct Hloop as [Hv Hu]. specialize (Hu ltac:(lia)).
      rewrite Hv. cbn [bind]. rewrite Hu. cbn [bind need].
      destruct clip; reflexivity.
    + rewrite Hloop. reflexivity.
Qed.

End Order0.

Lemma small_uirfftn_shape (f a : ndarray) :
  Small.uirfftn f = Ok a -> shape a = [2%nat; 2%nat] /\ wf a.
Proof.
  unfold Small.uirfftn, Small.urfftn, Small.hadamard.
  destruct (shape f) as [| [| [| [|?]]] [| [| [| [|?]]] [|? ?]]]; try discriminate.
  destruct (data f) as [| ? [| ? [| ? [| ? [|? ?]]]]]; try discriminate.
  cbn [bind]. intro H. injection H as <-. split; reflexivity.
Qed.

Lemma order0_is_vanilla_witness :
  wf (Small.img 4 2 1 3) /\
  (forall f a, Small.uirfftn f = Ok a ->
               shape a = shape (Small.img 4 2 1 3) /\ wf a) /\
  Small.richardson_lucy (Small.img 4 2 1 3) (Small.img 0 1 1 4) 3 false 0 None
  = Small.vanilla_richardson_lucy (Small.img 4 2 1 3) (Small.img 0 1 1 4) 3 false None.
Proof.
  assert (H1 : wf (Small.img 4 2 1 3)) by reflexivity.
  split; [exact H1 | split; [exact small_uirfftn_shape |]].
  exact (proj2 (order0_is_vanilla Small.freq Small.urfftn Small.uirfftn
                  Small.fmul Small.fconj Small.fwin (Small.img 4 2 1 3)
                  H1 small_uirfftn_shape)
               (Small.img 0 1 1 4) 3%Z false None).
Defined.

(** ** The residuals behind the coefficient *)

Section Coefficient.

Variables (freq : Type)
          (urfftn : ndarray -> res freq) (uirfftn : freq -> res ndarray)
          (fmul : freq -> freq -> res freq) (fconj : freq -> freq).
Variables (image : ndarray) (otf : freq) (prediction_order : Z).

Let step := rl_step freq urfftn uirfftn fmul fconj image otf prediction_order.
Let loop := rl_loop freq urfftn uirfftn fmul fconj image otf prediction_order.
Let state_after :=
  rl_state_after freq urfftn uirfftn fmul fconj image otf prediction_order.
Let residual :=
  rl_residual freq urfftn uirfftn fmul fconj image otf prediction_order.

Lemma bind_ok {A : Type} (m : res A) : (x <- m ;; Ok x) = m.
Proof. now destruct m. Qed.

(** The last iteration of [n + 1] is the step of index [i + n]. *)
Lemma rl_loop_last (n : nat) : forall i st0,
  loop (S n) i st0 = (st <- loop n i st0 ;; step (i + n)%nat st).
Proof.
  induction n as [| n IH]; intros i st0.
  - unfold loop. cbn [rl_loop bind]. fold step.
    rewrite Nat.add_0_r. apply bind_ok.
  - change (loop (S (S n)) i st0)
      with (st1 <- step i st0 ;; loop (S n) (S i) st1).
    change (loop (S n) i st0) with (st1 <- step i st0 ;; loop n (S i) st1).
    destruct (step i st0) as [st1 | e]; cbn [bind]; [| reflexivity].
    rewrite IH. now rewrite Nat.add_succ_r.
Qed.

(** What one iteration that completes has bound. *)
Lemma rl_step_bindings (i : nat) (st st' : rl_state) :
  step i st = Ok st' ->
  exists u g a,
    amap2 Fl.sub u (y_t st) = Ok g /\
    rl_alpha i (Some g) (g_tm1 st) = Ok a /\
    u_t st' = Some u /\ g_tm1 st' = Some g /\ g_tm2 st' = g_tm1 st /\
    alpha st' = Some a.
Proof.
  unfold step, rl_step.
  destruct (rl_update freq urfftn uirfftn fmul fconj image otf (y_t st))
    as [u |]; [cbn [bind] | discriminate].
  destruct (amap2 Fl.sub u (y_t st)) as [g |] eqn:Hg; [cbn [bind] | discriminate].
  destruct (rl_alpha i (Some g) (g_tm1 st)) as [a |] eqn:Ha;
    [cbn [bind] | discriminate].
  match goal with |- bind ?m _ = _ -> _ => destruct m as [hs |] end;
    [cbn [bind] | discriminate].
  destruct (lookup (fst hs)) as [h1 |]; [cbn [bind] | discriminate].
  destruct (add_scaled u a h1) as [first |]; [cbn [bind] | discriminate].
  destruct (lookup (snd hs)) as [h2 |]; [cbn [bind] | discriminate].
  match goal with |- bind ?m _ = _ -> _ => destruct m as [y |] end;
    [cbn [bind] | discriminate].
  destruct (enusure_positive y) as [y' |]; [cbn [bind] | discriminate].
  destruct (forallb _ _); [| discriminate].
  intro H. injection H as <-.
  exists u, g, a. cbn. repeat split; assumption.
Qed.

(** C3 (amended): in the loop of [richardson_lucy] the coefficient [alpha]
    is 0 in the first two iterations ([i <= 1]); in every later iteration
    that completes it is [dot(g(i), g(i-1)) / dot(g(i-1), g(i-1))] over the
    flattened residuals, [g(k) = u(k+1) - y(k)] being the residual of
    iteration [k] (so the residual just computed and the one before),
    clamped to [0, 1] and reset to 0 when the value is not finite. *)
Theorem alpha_from_latest_residuals (i : nat) (st' : rl_state) :
  state_after (S i) = Ok st' ->
  ((i <= 1)%nat -> alpha st' = Some zero) /\
  ((1 < i)%nat ->
   exists g_i g_prev num,
     residual i = Ok g_i /\
     residual (i - 1) = Ok g_prev /\
     dot g_i g_prev = Ok num /\
     alpha st'
     = Some (finite_or_zero (clamp_unit (num / sum_squares g_prev)%fl)) /\
     exists q, alpha st' = Some (Fin q) /\ (0 <= q <= 1)%Qc).
Proof.
  intro Hrun.
  assert (Hlast : exists st, state_after i = Ok st /\ step i st = Ok st').
  { unfold state_after, rl_state_after in Hrun |- *.
    fold loop in Hrun |- *.
    rewrite rl_loop_last in Hrun.
    destruct (loop i 0%nat (rl_init image)) as [st |]; [| discriminate].
    exists st. split; [reflexivity | exact Hrun]. }
  destruct Hlast as (st & Hst & Hstep).
  destruct (rl_step_bindings i st st' Hstep)
    as (u & g & a & Hg & Ha & Hu & Hg1 & Hg2 & Halpha).
  split.
  - intro Hi. rewrite rl_alpha_early in Ha by exact Hi. congruence.
  - intro Hi.
    assert (Hprev : exists g0, g_tm1 st = Some g0).
    { unfold rl_alpha in Ha. apply Nat.ltb_lt in Hi. rewrite Hi in Ha.
      cbn [need bind] in Ha.
      destruct (g_tm1 st) as [g0 |]; [now exists g0 | discriminate Ha]. }
    destruct Hprev as [g0 Hg0]. rewrite Hg0 in Ha.
    assert (Hdot : exists num, dot g g0 = Ok num).
    { unfold rl_alpha in Ha. apply Nat.ltb_lt in Hi. rewrite Hi in Ha.
      cbn [need bind] in Ha.
      destruct (dot g g0) as [num |]; [now exists num | discriminate Ha]. }
    destruct Hdot as [num Hnum].
    rewrite (rl_alpha_value i g g0 num Hi Hnum) in Ha.
    exists g, g0, num.
    split.
    { unfold residual, rl_residual. fold state_after.
      rewrite Hrun. cbn [bind]. now rewrite Hg1. }
    split.
    { unfold residual, rl_residual. fold state_after.
      replace (S (i - 1)) with i by lia.
      rewrite Hst. cbn [bind]. now rewrite Hg0. }
    split; [exact Hnum |].
    split; [congruence |].
    destruct (alpha_in_unit (num / sum_squares g0)%fl) as (q & Hq & Hq01).
    exists q. split; [congruence | exact Hq01].
Qed.

End Coefficient.

(** C3, as worded, fails: on the image [[1, 2], [2, 1]] blurred along its
    rows, the coefficient of the iteration of index 2 is the one of
    [g(2)] and [g(1)], not the one of [g(1)] and [g(0)]. *)
Lemma alpha_is_not_from_older_residuals :
  SmallRun.alpha_at (Small.img 1 2 2 1) (Small.img 0 0 1 2) 2 2
  = Ok (of_Q (46000 # 53671)) /\
  SmallRun.alpha_as_worded (Small.img 1 2 2 1) (Small.img 0 0 1 2) 2 2
  = Ok (of_Q (189 # 221)) /\
  SmallRun.alpha_at (Small.img 1 2 2 1) (Small.img 0 0 1 2) 2 2
  <> SmallRun.alpha_as_worded (Small.img 1 2 2 1) (Small.img 0 0 1 2) 2 2.
Proof.
  assert (H1 : SmallRun.alpha_at (Small.img 1 2 2 1) (Small.img 0 0 1 2) 2 2
               = Ok (of_Q (46000 # 53671))) by same_fl.
  assert (H2 : SmallRun.alpha_as_worded (Small.img 1 2 2 1) (Small.img 0 0 1 2) 2 2
               = Ok (of_Q (189 # 221))) by same_fl.
  split; [exact H1 | split; [exact H2 |]].
  rewrite H1, H2. intro E.
  apply (f_equal (fun r => match r with
                           | Ok x => fl_same x (of_Q (189 # 221))
                           | Raise _ => false
                           end)) in E.
  vm_compute in E. discriminate E.
Qed.

Lemma alpha_from_latest_residuals_witness :
  exists otf st',
    SmallRun.otf_of (Small.img 1 2 2 1) (Small.img 0 0 1 2) = Ok otf /\
    Small.rl_state_after (Small.img 1 2 2 1) otf 2 3 = Ok st' /\
    exists g_i g_prev num,
      rl_residual Small.freq Small.urfftn Small.uirfftn Small.fmul Small.fconj
                  (Small.img 1 2 2 1) otf 2 2 = Ok g_i /\
      rl_residual Small.freq Small.urfftn Small.uirfftn Small.fmul Small.fconj
                  (Small.img 1 2 2 1) otf 2 1 = Ok g_prev /\
      dot g_i g_prev = Ok num /\
      alpha st' = Some (finite_or_zero (clamp_unit (num / sum_squares g_prev)%fl)).
Proof.
  destruct (SmallRun.otf_of (Small.img 1 2 2 1) (Small.img 0 0 1 2))
    as [otf | e] eqn:Hotf; [| vm_compute in Hotf; discriminate Hotf].
  destruct (Small.rl_state_after (Small.img 1 2 2 1) otf 2 3)
    as [st' | e] eqn:Hrun.
  - exists otf, st'. split; [reflexivity | split; [exact Hrun |]].
    destruct (proj2 (alpha_from_latest_residuals
                       Small.freq Small.urfftn Small.uirfftn Small.fmul
                       Small.fconj (Small.img 1 2 2 1) otf 2%Z 2%nat st' Hrun)
                    ltac:(lia))
      as (g_i & g_prev & num & H1 & H2 & H3 & H4 & _).
    exists g_i, g_prev, num. repeat split; assumption.
  - exfalso. vm_compute in Hotf. injection Hotf as <-.
    vm_compute in Hrun. discriminate Hrun.
Defined.

(** ** The shape [fftconvolve] returns *)

Section FastLen.

Lemma next_fast_len_ge (n : nat) : (n <= next_fast_len n)%nat.
Proof.
  unfold next_fast_len. destruct (n <=? 6)%nat; [lia |].
  destruct (find is_fast_len (seq n (S n))) as [m |] eqn:E; [| lia].
  apply find_some in E as [Hin _]. apply in_seq in Hin. lia.
Qed.

Lemma map2_max_length (s1 : list nat) : forall s2,
  length s1 = length s2 -> length (map2 Nat.max s1 s2) = length s1.
Proof.
  induction s1 as [| a s1 IH]; intros [| b s2] H; try discriminate H; cbn.
  - reflexivity.
  - f_equal. apply IH. now injection H.
Qed.

Lemma fast_shape_fits (s1 : list nat) : forall s2,
  length s1 = length s2 ->
  Forall2 le s1 (map next_fast_len (map2 Nat.max s1 s2)) /\
  Forall2 le s2 (map next_fast_len (map2 Nat.max s1 s2)) /\
  Forall2 le (map2 Nat.max s1 s2) (map next_fast_len (map2 Nat.max s1 s2)).
Proof.
  induction s1 as [| a s1 IH]; intros [| b s2] H; try discriminate H; cbn.
  - repeat split; constructor.
  - injection H as H. destruct (IH s2 H) as (H1 & H2 & H3).
    pose proof (next_fast_len_ge (Nat.max a b)).
    repeat split; constructor; try assumption; lia.
Qed.

Lemma slice_from_zero (n sz : nat) :
  (sz <= n)%nat -> slice_len n (0%Z, Z.of_nat sz) = sz.
Proof.
  intro H. unfold slice_len, slice_bound. cbn [fst snd].
  assert (E : (Z.of_nat sz <? 0)%Z = false) by (apply Z.ltb_ge; lia).
  rewrite E. cbn. rewrite Nat2Z.id. lia.
Qed.

Lemma slice_shape_from_zero (shp : list nat) : forall fshape,
  Forall2 le shp fshape ->
  slice_shape fshape (map (fun sz => (0%Z, Z.of_nat sz)) shp) = shp.
Proof.
  induction shp as [| sz shp IH]; intros fshape H; inversion H; subst.
  - reflexivity.
  - cbn [map slice_shape]. rewrite slice_from_zero by assumption.
    f_equal. now apply IH.
Qed.

Lemma rfft_winshape_ok (s : list nat) :
  s <> [] -> exists ws, rfft_winshape s = Ok ws.
Proof.
  intro H. unfold rfft_winshape.
  destruct (rev s) as [| n r] eqn:E.
  - exfalso. apply H. rewrite <- (rev_involutive s), E. reflexivity.
  - eexists. reflexivity.
Qed.

End FastLen.

Section Lengths.

Lemma fill_block_length (mode : pad_mode) (k : nat) (cs : list (list fl)) :
  length (fill_block mode k cs) = k.
Proof.
  destruct mode; cbn [fill_block];
    [apply repeat_length | now rewrite length_map, length_seq].
Qed.

Lemma pad_data_length (mode : pad_mode) (s : list nat) : forall pads d,
  length d = prod_shape s ->
  length (pad_data mode s pads d) = prod_shape (pad_shape s pads).
Proof.
  induction s as [| n s IH]; intros pads d Hlen; [exact Hlen |].
  destruct pads as [| [before after] pads]; [exact Hlen |].
  cbn [pad_data pad_shape prod_shape fold_right].
  cbn [prod_shape fold_right] in Hlen.
  fold (prod_shape s) in *. fold (prod_shape (pad_shape s pads)).
  rewrite flat_map_length_const with (m := prod_shape (pad_shape s pads)).
  - rewrite !length_app, !repeat_length, chunks_count. f_equal. lia.
  - rewrite !Forall_app. repeat split.
    + apply Forall_repeat, IH, fill_block_length.
    + eapply Forall_impl; [| now apply chunks_length]. intros c Hc. now apply IH.
    + apply Forall_repeat, IH, fill_block_length.
Qed.

Lemma rotl_length {A : Type} (k : nat) (l : list A) :
  length (rotl k l) = length l.
Proof.
  unfold rotl. rewrite length_app, Nat.add_comm, <- length_app.
  now rewrite firstn_skipn.
Qed.

Lemma rotl_Forall {A : Type} (P : A -> Prop) (k : nat) (l : list A) :
  Forall P l -> Forall P (rotl k l).
Proof.
  intro H. rewrite <- (firstn_skipn k l) in H.
  apply Forall_app in H as [H1 H2].
  unfold rotl. apply Forall_app. now split.
Qed.

Lemma ifftshift_data_length (s : list nat) : forall d,
  length d = prod_shape s -> length (ifftshift_data s d) = prod_shape s.
Proof.
  induction s as [| n s IH]; intros d Hlen; [exact Hlen |].
  cbn [ifftshift_data prod_shape fold_right].
  cbn [prod_shape fold_right] in Hlen. fold (prod_shape s) in *.
  rewrite flat_map_length_const with (m := prod_shape s).
  - now rewrite rotl_length, chunks_count.
  - apply rotl_Forall.
    eapply Forall_impl; [| now apply chunks_length]. intros c Hc. now apply IH.
Qed.

Lemma ifftshift_wf (a : ndarray) : wf a -> wf (ifftshift a).
Proof.
  unfold wf, size, ifftshift. cbn [data shape]. apply ifftshift_data_length.
Qed.

End Lengths.

Section FullShape.

Variables (freq : Type)
          (rfftn : ndarray -> res freq)
          (irfftn : freq -> list nat -> res ndarray)
          (fftn : ndarray -> list nat -> res freq)
          (ifftn_real : freq -> res ndarray)
          (fmul : freq -> freq -> res freq)
          (fwin : freq -> ndarray -> res freq).
Variables (in1 in2 : ndarray) (win_func : window_fun).

Let shp := map2 Nat.max (shape in1) (shape in2).
Let fshape := map next_fast_len shp.

(** On arrays of the padded size the transforms and the products of their
    spectra ([good] ones) return, the inverse transform has the shape it is
    asked for, and the window function builds its window. *)
Variable good : freq -> Prop.
Hypothesis rfftn_ok :
  forall a, shape a = fshape -> wf a -> exists f, rfftn a = Ok f /\ good f.
Hypothesis fmul_ok :
  forall f g, good f -> good g -> exists h, fmul f g = Ok h /\ good h.
Hypothesis fwin_ok :
  forall f w ws, good f -> rfft_winshape fshape = Ok ws ->
                 shape w = ws -> wf w ->
                 exists h, fwin f w = Ok h /\ good h.
Hypothesis irfftn_ok :
  forall f, good f ->
            exists a, irfftn f fshape = Ok a /\ shape a = fshape /\ wf a.
Hypothesis window_ok :
  forall ws, rfft_winshape fshape = Ok ws ->
             exists w, win_nd ws win_func = Ok w /\ shape w = ws /\ wf w.

Let conv := fftconvolve freq rfftn irfftn fftn ifftn_real fmul fwin true.

(** C6 (amended): for every pair of non-empty real arrays of one rank (at
    least 1), [fftconvolve] in ["full"] mode on the real path pads both
    operands to the common size [next_fast_len(max(s1, s2))] per axis (the
    first with the median, the second with zeros and then [ifftshift]-ed),
    multiplies their spectra and the shifted window, transforms back at
    that size and returns the crop from index 0 to [max(s1, s2)] per axis:
    an array of the shape [max(s1, s2)], not the direct linear convolution
    of shape [s1 + s2 - 1]. *)
Theorem fftconvolve_full_product :
  wf in1 -> wf in2 ->
  ndim in1 = ndim in2 ->
  ndim in1 <> 0%nat ->
  size in1 <> 0%nat ->
  size in2 <> 0%nat ->
  exists p1 p2 f1 f2 f12 ws w fw full ret,
    fft_pad in1 (shape_arg (fast_shape in1 in2)) Median = Ok p1 /\
    shape p1 = fast_shape in1 in2 /\
    fft_pad in2 (shape_arg (fast_shape in1 in2)) Constant = Ok p2 /\
    shape p2 = fast_shape in1 in2 /\
    rfftn p1 = Ok f1 /\
    rfftn (ifftshift p2) = Ok f2 /\
    fmul f1 f2 = Ok f12 /\
    rfft_winshape (fast_shape in1 in2) = Ok ws /\
    win_nd ws win_func = Ok w /\
    fwin f12 (ifftshift w) = Ok fw /\
    irfftn fw (fast_shape in1 in2) = Ok full /\
    getitem full (crop_to (full_shape in1 in2)) = Ok ret /\
    conv in1 in2 "full"%string win_func = Ok ret /\
    shape ret = full_shape in1 in2.
Proof.
  intros Hwf1 Hwf2 Hnd Hpos Hsz1 Hsz2.
  change (fast_shape in1 in2) with fshape.
  change (full_shape in1 in2) with shp.
  destruct (fast_shape_fits (shape in1) (shape in2) Hnd) as (Hf1 & Hf2 & Hf).
  fold shp in Hf1, Hf2, Hf. fold fshape in Hf1, Hf2, Hf.
  assert (Hrank1 : shape in1 <> []).
  { intro E. apply Hpos. unfold ndim. now rewrite E. }
  assert (Hrank2 : shape in2 <> []).
  { intro E. apply Hpos. rewrite Hnd. unfold ndim. now rewrite E. }
  assert (Hne : fshape <> []).
  { intro E. apply (f_equal (@length nat)) in E.
    unfold fshape, shp in E. rewrite length_map, map2_max_length in E by exact Hnd.
    unfold ndim in Hpos. cbn in E. lia. }
  destruct (rfft_winshape_ok fshape Hne) as [ws Hws].
  destruct (fft_pad_to_shape in1 fshape Median Hrank1 Hf1) as (pads1 & Hp1 & Hs1).
  set (p1 := mk_array fshape (pad_data Median (shape in1) pads1 (data in1))) in *.
  assert (Hp1wf : wf p1).
  { unfold wf, size, p1. cbn [data shape].
    rewrite pad_data_length by exact Hwf1. now rewrite Hs1. }
  destruct (rfftn_ok p1 eq_refl Hp1wf) as (f1 & Hr1 & Hg1).
  destruct (fft_pad_to_shape in2 fshape Constant Hrank2 Hf2) as (pads2 & Hp2 & Hs2).
  set (p2 := mk_array fshape (pad_data Constant (shape in2) pads2 (data in2))) in *.
  assert (Hp2wf : wf p2).
  { unfold wf, size, p2. cbn [data shape].
    rewrite pad_data_length by exact Hwf2. now rewrite Hs2. }
  destruct (rfftn_ok (ifftshift p2) eq_refl (ifftshift_wf p2 Hp2wf))
    as (f2 & Hr2 & Hg2).
  destruct (fmul_ok f1 f2 Hg1 Hg2) as (f12 & Hm & Hg12).
  destruct (window_ok ws Hws) as (w & Hw & Hwsh & Hwwf).
  destruct (fwin_ok f12 (ifftshift w) ws Hg12 Hws Hwsh (ifftshift_wf w Hwwf))
    as (fw & Hfw & Hgw).
  destruct (irfftn_ok fw Hgw) as (full & Hfull & Hfs & Hfwf).
  assert (Hcrop : getitem full (crop_to shp)
                  = Ok (mk_array (slice_shape (shape full) (crop_to shp))
                                 (slice_data (shape full) (crop_to shp) (data full)))).
  { unfold getitem.
    assert (Hlen : (ndim full <? length (crop_to shp))%nat = false).
    { apply Nat.ltb_ge. unfold ndim, crop_to. rewrite Hfs. unfold fshape.
      now rewrite !length_map. }
    now rewrite Hlen. }
  exists p1, p2, f1, f2, f12, ws, w, fw, full.
  eexists.
  split; [exact Hp1 |]. split; [reflexivity |].
  split; [exact Hp2 |]. split; [reflexivity |].
  split; [exact Hr1 |]. split; [exact Hr2 |]. split; [exact Hm |].
  split; [exact Hws |]. split; [exact Hw |]. split; [exact Hfw |].
  split; [exact Hfull |]. split; [exact Hcrop |].
  split.
  - unfold conv, fftconvolve.
    rewrite (proj2 (Nat.eqb_neq _ _) Hpos). cbn [andb].
    rewrite (proj2 (Nat.eqb_eq _ _) Hnd). cbn [negb].
    rewrite (proj2 (Nat.eqb_neq _ _) Hsz1), (proj2 (Nat.eqb_neq _ _) Hsz2).
    cbn [orb].
    unfold _inputs_swap_needed. cbn [String.eqb Ascii.eqb Bool.eqb bind].
    fold shp. fold fshape.
    rewrite Hws. cbn [bind]. rewrite Hp1. cbn [bind]. rewrite Hr1. cbn [bind].
    rewrite Hp2. cbn [bind]. rewrite Hr2. cbn [bind]. rewrite Hm. cbn [bind].
    rewrite Hw. cbn [bind]. rewrite Hfw. cbn [bind]. rewrite Hfull. cbn [bind].
    fold (crop_to shp). rewrite Hcrop. reflexivity.
  - cbn [shape]. rewrite Hfs. unfold crop_to. now apply slice_shape_from_zero.
Qed.

End FullShape.

(** C6, as worded, fails: two vectors of length 2 give a vector of length
    2, the circular product at the common size, where the direct linear
    convolution has length 3. *)
Lemma fftconvolve_full_is_not_direct :
  Small2.fftconvolve (Small2.vec [1; 2]%Z) (Small2.vec [3; 4]%Z) "full"%string np_ones
  = Ok (Small2.vec [10; 11]%Z) /\
  direct_convolve_vec (Small2.vec [1; 2]%Z) (Small2.vec [3; 4]%Z)
  = Small2.vec [3; 10; 8]%Z /\
  Small2.fftconvolve (Small2.vec [1; 2]%Z) (Small2.vec [3; 4]%Z) "full"%string np_ones
  <> Ok (direct_convolve_vec (Small2.vec [1; 2]%Z) (Small2.vec [3; 4]%Z)).
Proof.
  assert (H1 : Small2.fftconvolve (Small2.vec [1; 2]%Z) (Small2.vec [3; 4]%Z)
                                  "full"%string np_ones
               = Ok (Small2.vec [10; 11]%Z)) by same_array.
  assert (H2 : direct_convolve_vec (Small2.vec [1; 2]%Z) (Small2.vec [3; 4]%Z)
               = Small2.vec [3; 10; 8]%Z)
    by (apply array_same_eq; vm_compute; reflexivity).
  split; [exact H1 | split; [exact H2 |]].
  rewrite H1, H2. intro E. injection E as E. discriminate E.
Qed.

Lemma small2_array (a : ndarray) :
  shape a = [2%nat] -> length (data a) = 2%nat ->
  exists x y, a = mk_array [2%nat] [x; y].
Proof.
  destruct a as [s d]. cbn [shape data]. intros -> Hlen.
  destruct d as [| x [| y [| z d]]]; try discriminate Hlen.
  now exists x, y.
Qed.

Lemma small2_rfftn_ok (a : ndarray) :
  shape a = [2%nat] -> wf a ->
  exists f, Small2.rfftn a = Ok f /\ small2_good f.
Proof.
  intros Hs Hwf. unfold wf, size in Hwf. rewrite Hs in Hwf.
  destruct (small2_array a Hs Hwf) as (x & y & ->).
  eexists. split; [reflexivity | split; reflexivity].
Qed.

Lemma small2_mul_ok (f g : ndarray) :
  small2_good f -> shape g = [2%nat] -> wf g ->
  exists h, amap2 Fl.mul f g = Ok h /\ small2_good h.
Proof.
  intros [Hfs Hfl] Hgs Hgwf. unfold wf, size in Hgwf. rewrite Hgs in Hgwf.
  destruct (small2_array f Hfs Hfl) as (x & y & ->).
  destruct (small2_array g Hgs Hgwf) as (x' & y' & ->).
  eexists. split; [reflexivity | split; reflexivity].
Qed.

Lemma small2_irfftn_ok (f : ndarray) :
  small2_good f ->
  exists a, Small2.irfftn f [2%nat] = Ok a /\ shape a = [2%nat] /\ wf a.
Proof.
  intros [Hfs Hfl].
  destruct (small2_array f Hfs Hfl) as (x & y & ->).
  eexists. split; [reflexivity | split; reflexivity].
Qed.

Lemma fftconvolve_full_product_witness :
  wf (Small2.vec [1; 2]%Z) /\ wf (Small2.vec [3; 4]%Z) /\
  ndim (Small2.vec [1; 2]%Z) = ndim (Small2.vec [3; 4]%Z) /\
  ndim (Small2.vec [1; 2]%Z) <> 0%nat /\
  size (Small2.vec [1; 2]%Z) <> 0%nat /\
  size (Small2.vec [3; 4]%Z) <> 0%nat /\
  exists ret,
    Small2.fftconvolve (Small2.vec [1; 2]%Z) (Small2.vec [3; 4]%Z)
                       "full"%string np_ones = Ok ret /\
    shape ret = full_shape (Small2.vec [1; 2]%Z) (Small2.vec [3; 4]%Z).
Proof.
  assert (H1 : wf (Small2.vec [1; 2]%Z)) by reflexivity.
  assert (H2 : wf (Small2.vec [3; 4]%Z)) by reflexivity.
  assert (H3 : ndim (Small2.vec [1; 2]%Z) = ndim (Small2.vec [3; 4]%Z))
    by reflexivity.
  assert (H4 : ndim (Small2.vec [1; 2]%Z) <> 0%nat) by discriminate.
  assert (H5 : size (Small2.vec [1; 2]%Z) <> 0%nat) by discriminate.
  assert (H6 : size (Small2.vec [3; 4]%Z) <> 0%nat) by discriminate.
  repeat (split; [assumption |]).
  destruct (fftconvolve_full_product
              Small2.freq Small2.rfftn Small2.irfftn
              Small2.fftn Small2.ifftn_real Small2.fmul Small2.fwin
              (Small2.vec [1; 2]%Z) (Small2.vec [3; 4]%Z) np_ones small2_good)
    as (p1 & p2 & f1 & f2 & f12 & ws & w & fw & full & ret & Hrun);
    try assumption.
  - exact small2_rfftn_ok.
  - intros f g Hf [Hgs Hgl]. apply small2_mul_ok; [exact Hf | exact Hgs |].
    unfold wf, size. now rewrite Hgs.
  - intros f w ws Hf Hws Hw Hwwf. injection Hws as <-.
    now apply small2_mul_ok.
  - intros f Hf. now apply small2_irfftn_ok.
  - intros ws Hws. injection Hws as <-.
    eexists. split; [reflexivity | split; reflexivity].
  - exists ret. split; [apply Hrun | apply Hrun].
Defined.

(** ** The radial profile of a constant image *)

Section RadialFacts.

Local Open Scope Qc_scope.

Lemma round_sqrt_nonneg (q : Q) : (0 <= round_sqrt q)%Z.
Proof.
  unfold round_sqrt.
  set (m := Z.sqrt (4 * Qnum q / Z.pos (Qden q))).
  assert (Hm : (0 <= m)%Z) by apply Z.sqrt_nonneg.
  destruct (Z.even m) eqn:Ev.
  - apply Z.div_pos; lia.
  - assert (Hodd : (1 <= m)%Z).
    { destruct (Z.eq_dec m 0) as [E | E]; [rewrite E in Ev; discriminate Ev | lia]. }
    assert (Hk : (0 <= (m - 1) / 2)%Z) by (apply Z.div_pos; lia).
    destruct (_ && _)%bool; lia.
Qed.

Lemma mapM_res_ok {A B : Type} (f : A -> res B) (l : list A) :
  (forall x, In x l -> exists y, f x = Ok y) ->
  exists ys, mapM_res f l = Ok ys /\ length ys = length l.
Proof.
  induction l as [| x l IH]; intro H.
  - now exists [].
  - destruct (H x (or_introl eq_refl)) as [y Hy].
    destruct IH as (ys & Hys & Hlen); [intros; apply H; now right |].
    exists (y :: ys). cbn [mapM_res]. rewrite Hy, Hys. cbn.
    split; [reflexivity | now rewrite Hlen].
Qed.

Lemma radial_bins_length (rows cols : nat) (y0 x0 b : Qc) :
  length (radial_bins rows cols y0 x0 b) = (rows * cols)%nat.
Proof.
  unfold radial_bins.
  rewrite flat_map_length_const with (m := cols).
  - now rewrite length_seq.
  - apply Forall_forall. intros i _. now rewrite length_map, length_seq.
Qed.

(** With [binsize = 1] every pixel gets a bin [np.bincount] accepts. *)
Lemma radial_bins_unit_ok (rows cols : nat) (y0 x0 : Qc) :
  exists r, mapM_res bin_index (radial_bins rows cols y0 x0 1) = Ok r /\
            length r = (rows * cols)%nat.
Proof.
  destruct (mapM_res_ok bin_index (radial_bins rows cols y0 x0 1)) as (r & Hr & Hlen).
  - intros x Hx. unfold radial_bins in Hx.
    apply in_flat_map in Hx as (i & _ & Hx).
    apply in_map_iff in Hx as (j & <- & _).
    unfold radius_bin. change (1 ?= 0) with Gt. cbn [bin_index].
    match goal with |- context [round_sqrt ?q] =>
      pose proof (round_sqrt_nonneg q) as Hnn;
      destruct (Z.ltb_spec (round_sqrt q) 0) as [Hneg | _]
    end; [lia | eexists; reflexivity].
  - exists r. split; [exact Hr | now rewrite Hlen, radial_bins_length].
Qed.

Lemma qc_of_nat_S (c : nat) : qc_of_nat (S c) = 1 + qc_of_nat c.
Proof.
  unfold qc_of_nat. apply Qc_is_canon. QcFacts.to_Q.
  rewrite Nat2Z.inj_succ, <- Z.add_1_l, inject_Z_plus. reflexivity.
Qed.

Lemma sum_ones (c : nat) : Fl.sum (repeat one c) = fl_of_nat c.
Proof.
  replace (repeat one c) with (map Fin (repeat 1 c))
    by (induction c; [reflexivity | cbn; now f_equal]).
  rewrite sum_Fin. unfold fl_of_nat. f_equal.
  induction c as [| c IH]; [now apply Qc_is_canon |].
  cbn [repeat qsum]. now rewrite IH, qc_of_nat_S.
Qed.

Lemma weights_in_bin (k : nat) (r : list nat) : forall n,
  length r = n ->
  map snd (filter (fun p => (fst p =? k)%nat) (combine r (repeat one n)))
  = repeat one (bin_count r k).
Proof.
  unfold bin_count.
  induction r as [| x r IH]; intros n Hn; [reflexivity |].
  destruct n as [| n]; [discriminate Hn |]. injection Hn as Hn.
  cbn [repeat combine filter fst].
  destruct (x =? k)%nat; cbn [map snd length repeat]; now rewrite IH.
Qed.

Lemma qc_of_nat_pos (c : nat) : c <> 0%nat -> (qc_of_nat c ?= 0) = Gt.
Proof.
  intro H. apply Qcgt_alt. unfold qc_of_nat. QcFacts.to_Q.
  change 0%Q with (inject_Z 0). rewrite <- Zlt_Qlt. lia.
Qed.

(** One bin of the profile of an image of ones. *)
Lemma unit_bin (c : nat) :
  (c <> 0%nat -> (fl_of_nat c / fl_of_nat c)%fl = one) /\
  (c = 0%nat -> (fl_of_nat c / fl_of_nat c)%fl = NaN).
Proof.
  split; intro H.
  - unfold fl_of_nat, Fl.div, sgn. rewrite (qc_of_nat_pos c H).
    unfold one. f_equal. field.
    intro E. pose proof (qc_of_nat_pos c H) as Hp. rewrite E in Hp.
    discriminate Hp.
  - subst c. reflexivity.
Qed.

Lemma zip_with_map {A : Type} (f : fl -> fl -> fl) (g h : A -> fl) (l : list A) :
  zip_with f (map g l) (map h l) = map (fun k => f (g k) (h k)) l.
Proof. induction l as [| x l IH]; cbn; [reflexivity | now rewrite IH]. Qed.

Lemma nth_map_seq (g : nat -> fl) (len k : nat) (d : fl) :
  (k < len)%nat -> nth k (map g (seq 0 len)) d = g k.
Proof.
  intro H. rewrite nth_indep with (d' := g 0%nat)
    by (now rewrite length_map, length_seq).
  rewrite map_nth, seq_nth by exact H. reflexivity.
Qed.

End RadialFacts.

Section ProfileOfOnes.

Variable np_sqrt : fl -> fl.
Hypothesis sqrt_zero : np_sqrt zero = zero.

Lemma one_minus_square : (one - one * one)%fl = zero.
Proof. apply fl_same_eq. reflexivity. Qed.

Lemma one_square : (one * one)%fl = one.
Proof. apply fl_same_eq. reflexivity. Qed.


End ProfileOfOnes.



(** ** The identity kernel *)

Lemma half_power_nonzero (n : nat) : half_power n <> 0%Qc.
Proof.
  unfold half_power. induction n as [| n IH]; cbn [Qcpower].
  - intro E. apply (f_equal this) in E. discriminate E.
  - intro E. apply Qcmult_integral in E as [E | E]; [| now apply IH].
    apply (f_equal this) in E. discriminate E.
Qed.

Section IdentityKernel.

Local Open Scope Qc_scope.

Variables (freq : Type)
          (urfftn : ndarray -> res freq) (uirfftn : freq -> res ndarray)
          (fmul : freq -> freq -> res freq) (fconj : freq -> freq)
          (fwin : ndarray -> freq -> res freq).
Variable image : ndarray.
Variable otf : freq.
Variable k : nat.

Let c := half_power k.

(** The image has finite, strictly positive pixels.  [otf] is the transfer
    function of the unit impulse at the origin, and the transforms are
    exact on the two arrays an iteration hands them: the image blurred with
    [otf] is [2^-k] times the image, and the estimate from the constant
    ratio [2^k] is the array of ones (the unitary scaling on [4^k]
    pixels). *)
Hypothesis image_wf : wf image.
Hypothesis image_pos : positive_image image.
Hypothesis otf_of_impulse :
  (f <- urfftn (impulse0 (shape image)) ;; fwin (scalar one) f) = Ok otf.
Hypothesis reblur_exact :
  exists fy p, urfftn image = Ok fy /\ fmul otf fy = Ok p /\
               uirfftn p = Ok (amap (Fl.mul (Fin c)) image).
Hypothesis estimate_exact :
  exists fr p, urfftn (full_like image (Fin (/ c))) = Ok fr /\
               fmul (fconj otf) fr = Ok p /\
               uirfftn p = Ok (full_like image one).

Let update := rl_update freq urfftn uirfftn fmul fconj image otf.

Lemma c_nonzero : c <> 0.
Proof. apply half_power_nonzero. Qed.

Lemma positive_list (l : list fl) :
  Forall positive l -> exists vs, l = map Fin vs /\ Forall (fun v => 0 < v) vs.
Proof.
  induction 1 as [| x l (v & -> & Hv) Hl (vs & -> & Hvs)].
  - exists []. split; [reflexivity | constructor].
  - exists (v :: vs). split; [reflexivity | now constructor].
Qed.

Lemma finite_map_Fin (vs : list Qc) : forallb isfinite (map Fin vs) = true.
Proof. induction vs; [reflexivity | exact IHvs]. Qed.

Lemma ratio_elem (v : Qc) :
  0 < v -> (Fin v / (Fin c * Fin v))%fl = Fin (v / (c * v)).
Proof.
  intro Hv. cbn [Fl.mul Fl.div]. unfold sgn.
  assert (Hne : c * v <> 0).
  { intro E. apply Qcmult_integral in E as [E | E]; [now apply c_nonzero |].
    rewrite E in Hv. now apply (Qclt_not_eq _ _ Hv). }
  destruct (c * v ?= 0) eqn:E; try reflexivity.
  apply Qceq_alt in E. contradiction.
Qed.

(** The ratio of a positive pixel to its blurred value is [2^k]. *)
Lemma ratio_constant (vs : list Qc) :
  Forall (fun v => 0 < v) vs ->
  map (fun v => Fin (v / (c * v))) vs = repeat (Fin (/ c)) (length vs).
Proof.
  induction 1 as [| v vs Hv Hvs IH]; [reflexivity |].
  cbn [map length repeat]. rewrite IH. f_equal. f_equal.
  field. split; [exact c_nonzero |].
  intro E. rewrite E in Hv. now apply (Qclt_not_eq _ _ Hv).
Qed.

Lemma times_one (vs : list Qc) :
  zip_with Fl.mul (map Fin vs) (repeat one (length vs)) = map Fin vs.
Proof.
  induction vs as [| v vs IH]; [reflexivity |].
  cbn [map length repeat zip_with]. rewrite IH. f_equal.
  unfold one. cbn [Fl.mul]. f_equal. ring.
Qed.

Lemma positive_not_clamped (v : Qc) :
  0 < v -> (if Fl.ltb (Fin v) zero then zero else Fin v) = Fin v.
Proof.
  intro Hv. destruct (Fl.ltb (Fin v) zero) eqn:E; [| reflexivity].
  apply ltb_Fin in E. exfalso.
  apply (Qclt_not_le _ _ Hv). now apply Qclt_le_weak.
Qed.

(** On the image itself the Richardson-Lucy step is the identity. *)
Lemma update_identity : update image = Ok image.
Proof.
  destruct (positive_list _ image_pos) as (vs & Hvs & Hpos).
  unfold update, rl_update.
  destruct reblur_exact as (fy & p & H1 & H2 & H3).
  rewrite H1. cbn [bind]. rewrite H2. cbn [bind]. rewrite H3. cbn [bind].
  rewrite amap2_same_shape by (try apply amap_wf; auto).
  cbn [bind amap data shape]. rewrite Hvs, map_map, zip_with_map.
  rewrite map_ext_in with (g := fun v => Fin (v / (c * v))).
  2:{ intros v Hv. apply ratio_elem. rewrite Forall_forall in Hpos. auto. }
  rewrite (ratio_constant vs Hpos).
  destruct estimate_exact as (fr & p' & H4 & H5 & H6).
  unfold full_like in H4, H6. rewrite Hvs, length_map in H4, H6.
  rewrite H4. cbn [bind]. rewrite H5. cbn [bind]. rewrite H6. cbn [bind].
  assert (Hlen : length vs = prod_shape (shape image)).
  { unfold wf, size in image_wf. now rewrite Hvs, length_map in image_wf. }
  rewrite amap2_same_shape;
    [| exact image_wf
     | unfold wf, size; cbn [data shape]; now rewrite repeat_length
     | reflexivity].
  cbn [bind data shape]. rewrite Hvs, times_one.
  unfold clamp_below, amap. cbn [data shape].
  rewrite map_map, map_ext_in with (g := Fin).
  2:{ intros v Hv. rewrite Forall_forall in Hpos.
      apply positive_not_clamped. auto. }
  destruct image as [s d]. cbn [shape data] in *. now rewrite Hvs.
Qed.

Lemma zip_with_repeat (f : fl -> fl -> fl) (x y : fl) (n : nat) :
  zip_with f (repeat x n) (repeat y n) = repeat (f x y) n.
Proof. induction n as [| n IH]; cbn; [reflexivity | now rewrite IH]. Qed.

Lemma sum_zeros (n : nat) : Fl.sum (repeat zero n) = zero.
Proof.
  rewrite sum_finite by apply zeros_finite. now rewrite ftotal_zeros.
Qed.

Lemma zero_times_zero : (zero * zero)%fl = zero.
Proof. apply fl_same_eq. reflexivity. Qed.

Lemma zeros_like_wf : wf (zeros_like image).
Proof.
  unfold wf, size, zeros_like. cbn [data shape]. now rewrite repeat_length.
Qed.

Lemma all_finite_image : all_finite image = true.
Proof.
  destruct (positive_list _ image_pos) as (vs & Hvs & _).
  unfold all_finite. rewrite Hvs. apply finite_map_Fin.
Qed.

Lemma residual_zero : amap2 Fl.sub image image = Ok (zeros_like image).
Proof.
  destruct (positive_list _ image_pos) as (vs & Hvs & _).
  rewrite amap2_same_shape by auto.
  unfold zeros_like. do 2 f_equal. rewrite Hvs, zip_with_map, length_map.
  clear. induction vs as [| v vs IH]; [reflexivity |].
  cbn [map length repeat]. rewrite IH. f_equal.
  unfold Fl.sub, Fl.neg, Fl.add, zero. f_equal. ring.
Qed.

Lemma dot_zeros :
  dot (zeros_like image) (zeros_like image) = Ok zero /\
  sum_squares (zeros_like image) = zero.
Proof.
  split.
  - unfold dot. rewrite amap2_same_shape by (auto using zeros_like_wf).
    cbn [bind]. unfold asum, zeros_like. cbn [data].
    now rewrite zip_with_repeat, zero_times_zero, sum_zeros.
  - unfold sum_squares, asum, amap, zeros_like. cbn [data].
    now rewrite map_repeat, zero_times_zero, sum_zeros.
Qed.

(** With a zero residual the coefficient is 0: at first by the rule of the
    first two iterations, later because [0/0] is not finite. *)
Lemma alpha_of_zero_residuals (i : nat) (g2 : option ndarray) :
  ((1 < i)%nat -> g2 = Some (zeros_like image)) ->
  rl_alpha i (Some (zeros_like image)) g2 = Ok zero.
Proof.
  intro Hg2. destruct (Nat.le_gt_cases i 1) as [Hi | Hi].
  - now apply rl_alpha_early.
  - rewrite (Hg2 Hi). destruct dot_zeros as [Hdot Hsq].
    rewrite (rl_alpha_value i _ _ zero Hi Hdot), Hsq. reflexivity.
Qed.

Lemma image_not_clamped : clamp_below zero image = image.
Proof.
  destruct (positive_list _ image_pos) as (vs & Hvs & Hpos).
  unfold clamp_below, amap. destruct image as [s d]. cbn [shape data] in *.
  f_equal. rewrite Hvs, map_map. apply map_ext_in.
  intros v Hv. apply positive_not_clamped. rewrite Forall_forall in Hpos. auto.
Qed.

Lemma image_nonneg : forallb (fun x => Fl.geb x zero) (data image) = true.
Proof.
  destruct (positive_list _ image_pos) as (vs & Hvs & Hpos).
  rewrite Hvs. clear Hvs. induction Hpos as [| v vs Hv Hvs IH]; [reflexivity |].
  cbn [map forallb]. rewrite IH, andb_true_r.
  apply geb_zero_Fin. now apply Qclt_le_weak.
Qed.

Lemma rl_step_identity (prediction_order : Z) (i : nat) (st : rl_state) :
  identity_inv image i st ->
  exists st',
    rl_step freq urfftn uirfftn fmul fconj image otf prediction_order i st
    = Ok st' /\
    identity_inv image (S i) st'.
Proof.
  intros [Hy Hprev].
  unfold rl_step. rewrite Hy. fold update. rewrite update_identity. cbn [bind].
  rewrite residual_zero. cbn [bind].
  rewrite alpha_of_zero_residuals
    by (intro Hi; now destruct (Hprev ltac:(lia)) as [-> _]).
  cbn [bind].
  replace (negb (Fl.eqb zero zero)) with false by reflexivity.
  cbn [bind fst snd lookup].
  unfold zero at 1. rewrite add_scaled_zero. cbn [bind].
  destruct (half_square_finite 0) as [r Hr].
  change (Fin 0) with zero in Hr. rewrite Hr.
  rewrite add_scaled_zero. cbn [bind].
  unfold enusure_positive. rewrite all_finite_image, image_not_clamped.
  cbn [bind]. rewrite image_nonneg.
  eexists. split; [reflexivity |].
  unfold identity_inv. cbn [y_t g_tm1 u_t]. repeat split.
Qed.

Lemma rl_loop_identity (prediction_order : Z) (n : nat) : forall i st,
  identity_inv image i st ->
  exists st',
    rl_loop freq urfftn uirfftn fmul fconj image otf prediction_order n i st
    = Ok st' /\
    identity_inv image (i + n) st'.
Proof.
  induction n as [| n IH]; intros i st Hinv.
  - exists st. split; [reflexivity | now rewrite Nat.add_0_r].
  - destruct (rl_step_identity prediction_order i st Hinv) as (st1 & Hst1 & Hinv1).
    destruct (IH (S i) st1 Hinv1) as (st' & Hst' & Hinv').
    exists st'. cbn [rl_loop]. rewrite Hst1. cbn [bind].
    split; [exact Hst' | now rewrite Nat.add_succ_r].
Qed.


End IdentityKernel.

(** ** The identity kernel on 2 by 2 images *)

Lemma small_finite_array (y : ndarray) :
  shape y = [2%nat; 2%nat] -> wf y -> all_finite y = true ->
  exists a b c e, y = mk_array [2%nat; 2%nat] [Fin a; Fin b; Fin c; Fin e].
Proof.
  destruct y as [s d]. unfold wf, size, all_finite. cbn [shape data].
  intros -> Hlen Hfin.
  destruct d as [| x0 [| x1 [| x2 [| x3 [| x4 d]]]]]; try discriminate Hlen.
  cbn in Hfin.
  destruct x0 as [a | | |]; try discriminate Hfin.
  destruct x1 as [b | | |]; try discriminate Hfin.
  destruct x2 as [c | | |]; try discriminate Hfin.
  destruct x3 as [e | | |]; try discriminate Hfin.
  now exists a, b, c, e.
Qed.

Lemma small_half_value : this (Q2Qc (1 # 2)) = (1 # 2)%Q.
Proof. reflexivity. Qed.

Lemma small_otf_scales (y : ndarray) :
  shape y = [2%nat; 2%nat] -> wf y -> all_finite y = true ->
  exists fy p,
    Small.urfftn y = Ok fy /\
    Small.fmul small_identity_otf fy = Ok p /\
    Small.uirfftn p = Ok (amap (Fl.mul (Fin (Q2Qc (1 # 2)))) y).
Proof.
  intros Hs Hwf Hfin.
  destruct (small_finite_array y Hs Hwf Hfin) as (a & b & c & e & ->).
  eexists. eexists.
  split; [reflexivity |].
  split.
  { unfold Small.fmul. apply amap2_same_shape; reflexivity. }
  unfold Small.uirfftn, Small.urfftn, amap, small_identity_otf.
  cbn [shape data bind Small.hadamard map Fl.mul Fl.add Fl.sub Fl.neg
       Small.half of_Q zip_with repeat].
  do 2 f_equal.
  repeat match goal with |- _ :: _ = _ :: _ => apply f_equal2 end;
    try reflexivity;
    f_equal; apply Qc_is_canon; QcFacts.to_Q;
    rewrite ?small_half_value; ring.
Qed.


Lemma small_half_power : half_power 1 = Q2Qc (1 # 2).
Proof. apply Qc_is_canon. reflexivity. Qed.


(** The kernel of a single pixel is an identity kernel too, and [scale]
    turns it into [0/0]: the same assertion stops the first iteration. *)
Lemma single_pixel_kernel_raises :
  scale (Tiny.pixel 1) None = Ok (mk_array [1%nat] [NaN]) /\
  Tiny.richardson_lucy (Tiny.pixel 5) (Tiny.pixel 1) 1 false 2 None
  = Raise AssertionError.
Proof. split; reflexivity. Qed.

(** ** The centred unit impulse is an identity kernel *)

Section CentredImpulse.

Local Open Scope nat_scope.

Lemma prod_shape_pos (s : list nat) : Forall (le 1) s -> 1 <= prod_shape s.
Proof.
  induction 1 as [| n s Hn Hs IH]; [cbn; lia |].
  cbn [prod_shape fold_right]. fold (prod_shape s). nia.
Qed.

Lemma half_split (n : nat) : 1 <= n -> n / 2 + 1 + (n - n / 2 - 1) = n.
Proof.
  intro H. pose proof (Nat.div_lt n 2 ltac:(lia) ltac:(lia)). lia.
Qed.

Lemma centred_data_length (s : list nat) :
  Forall (le 1) s -> length (centred_data s) = prod_shape s.
Proof.
  induction 1 as [| n s Hn Hs IH]; [reflexivity |].
  cbn [centred_data prod_shape fold_right]. fold (prod_shape s).
  rewrite !length_app, !repeat_length, IH.
  pose proof (half_split n Hn). nia.
Qed.

Lemma origin_data_length (s : list nat) :
  Forall (le 1) s -> length (origin_data s) = prod_shape s.
Proof.
  induction 1 as [| n s Hn Hs IH]; [reflexivity |].
  cbn [origin_data prod_shape fold_right]. fold (prod_shape s).
  rewrite length_app, repeat_length, IH. nia.
Qed.

Lemma origin_data_head (s : list nat) :
  Forall (le 1) s -> origin_data s = one :: repeat zero (prod_shape s - 1).
Proof.
  induction 1 as [| n s Hn Hs IH]; [reflexivity |].
  cbn [origin_data prod_shape fold_right]. fold (prod_shape s).
  rewrite IH. cbn [app]. f_equal. rewrite <- repeat_app. f_equal.
  pose proof (prod_shape_pos s Hs). nia.
Qed.

Lemma origin_is_impulse0 (s : list nat) :
  Forall (le 1) s -> mk_array s (origin_data s) = impulse0 s.
Proof.
  intro H. unfold impulse0. rewrite (origin_data_head s H).
  pose proof (prod_shape_pos s H).
  destruct (prod_shape s) as [| n]; [lia |].
  cbn [Nat.sub]. now rewrite Nat.sub_0_r.
Qed.

Lemma chunks_app (a k : nat) : forall b l1 l2,
  length l1 = a * k ->
  chunks (a + b) k (l1 ++ l2) = chunks a k l1 ++ chunks b k l2.
Proof.
  induction a as [| a IH]; intros b l1 l2 Hlen.
  - destruct l1; [reflexivity | discriminate Hlen].
  - cbn [Nat.add chunks app]. cbn [Nat.mul] in Hlen.
    rewrite firstn_app, skipn_app.
    assert (Hk : k - length l1 = 0) by lia. rewrite Hk.
    cbn [firstn skipn]. rewrite app_nil_r.
    rewrite IH by (rewrite length_skipn; lia). reflexivity.
Qed.

Lemma chunks_zeros (a k : nat) :
  chunks a k (repeat zero (a * k)) = repeat (repeat zero k) a.
Proof.
  induction a as [| a IH]; [reflexivity |].
  cbn [Nat.mul chunks repeat]. rewrite repeat_app.
  rewrite firstn_app, skipn_app, repeat_length, Nat.sub_diag.
  cbn [firstn skipn]. rewrite app_nil_r.
  rewrite firstn_all2 by (rewrite repeat_length; lia).
  rewrite skipn_all2 by (rewrite repeat_length; lia).
  cbn [app]. now rewrite IH.
Qed.

Lemma chunks_one (k : nat) (l : list fl) :
  length l = k -> chunks 1 k l = [l].
Proof.
  intro H. cbn [chunks]. now rewrite firstn_all2 by lia.
Qed.

Lemma concat_repeat_zeros (a k : nat) :
  concat (repeat (repeat zero k) a) = repeat zero (a * k).
Proof.
  induction a as [| a IH]; [reflexivity |].
  cbn [repeat concat Nat.mul]. now rewrite IH, repeat_app.
Qed.

End CentredImpulse.

Section CentredShift.

Local Open Scope nat_scope.

Lemma rotl_app {A : Type} (k : nat) (l1 l2 : list A) :
  length l1 = k -> rotl k (l1 ++ l2) = l2 ++ l1.
Proof.
  intro H. unfold rotl. rewrite skipn_app, firstn_app.
  rewrite skipn_all2, firstn_all2 by lia.
  replace (k - length l1) with 0 by lia. cbn [skipn firstn app].
  now rewrite app_nil_r.
Qed.

Lemma rotl_repeat {A : Type} (k n : nat) (x : A) :
  rotl k (repeat x n) = repeat x n.
Proof.
  assert (H : rotl k (repeat x n)
              = repeat x (length (rotl k (repeat x n)))).
  { apply Forall_eq_repeat. apply rotl_Forall.
    apply Forall_forall. intros y Hy. symmetry. now apply repeat_spec in Hy. }
  rewrite H, rotl_length, repeat_length. reflexivity.
Qed.

Lemma flat_map_zero_blocks (f : list fl -> list fl) (k a : nat) :
  f (repeat zero k) = repeat zero k ->
  flat_map f (repeat (repeat zero k) a) = repeat zero (a * k).
Proof.
  intro H. rewrite flat_map_id by (now apply Forall_repeat).
  apply concat_repeat_zeros.
Qed.

(** Shifting an array of zeros leaves it as it is. *)
Lemma ifftshift_zeros (s : list nat) :
  ifftshift_data s (repeat zero (prod_shape s)) = repeat zero (prod_shape s).
Proof.
  induction s as [| n s IH]; [reflexivity |].
  cbn [ifftshift_data prod_shape fold_right]. fold (prod_shape s).
  now rewrite chunks_zeros, rotl_repeat, flat_map_zero_blocks.
Qed.

(** [ifftshift] brings the centre to the origin. *)
Lemma ifftshift_centred (s : list nat) :
  Forall (le 1) s -> ifftshift_data s (centred_data s) = origin_data s.
Proof.
  induction 1 as [| n s Hn Hs IH]; [reflexivity |].
  cbn [ifftshift_data centred_data origin_data].
  set (P := prod_shape s). set (k := n / 2). set (m := n - k - 1).
  assert (Hsplit : n = k + (1 + m)) by (pose proof (half_split n Hn); lia).
  rewrite Hsplit at 1.
  rewrite chunks_app by (now rewrite repeat_length).
  rewrite chunks_app by (rewrite centred_data_length by exact Hs; lia).
  rewrite chunks_one by (now apply centred_data_length).
  rewrite !chunks_zeros.
  rewrite rotl_app by (now rewrite repeat_length).
  rewrite !flat_map_app. cbn [flat_map]. rewrite app_nil_r, IH.
  rewrite !flat_map_zero_blocks by apply ifftshift_zeros.
  rewrite <- app_assoc, <- repeat_app. do 2 f_equal.
  rewrite <- Nat.mul_add_distr_r. f_equal. lia.
Qed.

End CentredShift.

Section CentredNormalised.

Local Open Scope nat_scope.

Lemma centred_data_values (s : list nat) : Forall zero_or_one (centred_data s).
Proof.
  induction s as [| n s IH]; [repeat constructor; now right |].
  cbn [centred_data]. rewrite !Forall_app. repeat split;
    [apply Forall_repeat; now left | exact IH | apply Forall_repeat; now left].
Qed.

Lemma centred_data_has_one (s : list nat) : In one (centred_data s).
Proof.
  induction s as [| n s IH]; [now left |].
  cbn [centred_data]. rewrite !in_app_iff. right. now left.
Qed.

Lemma centred_data_has_zero (s : list nat) :
  Forall (le 1) s -> 2 <= prod_shape s -> In zero (centred_data s).
Proof.
  induction 1 as [| n s Hn Hs IH]; intro Hsize; [cbn in Hsize; lia |].
  cbn [centred_data prod_shape fold_right] in *. fold (prod_shape s) in *.
  rewrite !in_app_iff.
  destruct (Nat.eq_dec n 1) as [-> | Hn1].
  - right. left. apply IH. lia.
  - left. pose proof (prod_shape_pos s Hs) as HP.
    assert (Hk : 1 <= n / 2) by (apply Nat.div_le_lower_bound; lia).
    destruct (n / 2 * prod_shape s) as [| j] eqn:E; [nia | now left].
Qed.

Lemma centred_data_total (s : list nat) : ftotal (centred_data s) = 1%Qc.
Proof.
  induction s as [| n s IH]; [unfold ftotal; cbn; ring |].
  cbn [centred_data]. rewrite !ftotal_app, !ftotal_zeros, IH. ring.
Qed.

Lemma centred_data_finite (s : list nat) :
  forallb isfinite (centred_data s) = true.
Proof.
  pose proof (centred_data_values s) as H.
  induction H as [| x l [-> | ->] Hl IH]; [reflexivity | exact IH | exact IH].
Qed.

(** The extremes of a list of zeros and ones in which both occur. *)
Lemma extremes_of_bits (l : list fl) :
  Forall zero_or_one l -> In zero l -> In one l ->
  nanmin l = zero /\ nanmax l = one.
Proof.
  intros Hbits H0 H1.
  assert (Hfin : forallb isfinite l = true).
  { clear H0 H1. induction Hbits as [| x l [-> | ->] Hl IH];
      [reflexivity | exact IH | exact IH]. }
  destruct (finite_list l Hfin) as [qs ->].
  destruct qs as [| q qs]; [contradiction |].
  destruct (nan_extremes q qs) as (m & M & Hm & HM & Hall & Hmin & HMin).
  rewrite Hm, HM. rewrite Forall_forall in Hall, Hbits.
  assert (Hin : forall v, In (Fin v) (map Fin (q :: qs)) -> In v (q :: qs)).
  { intros v Hv. apply in_map_iff in Hv as (w & E & Hw). now injection E as <-. }
  assert (Hle0 : (m <= 0)%Qc) by (apply Hall, Hin, H0).
  assert (Hge1 : (1 <= M)%Qc) by (apply Hall, Hin, H1).
  assert (Hm01 : zero_or_one (Fin m)) by (apply Hbits, in_map, Hmin).
  assert (HM01 : zero_or_one (Fin M)) by (apply Hbits, in_map, HMin).
  split.
  - destruct Hm01 as [E | E]; [exact E |].
    injection E as ->. exfalso. revert Hle0. QcFacts.to_Q. lra.
  - destruct HM01 as [E | E]; [| exact E].
    injection E as ->. exfalso. revert Hge1. QcFacts.to_Q. lra.
Qed.

Lemma scale_bits_elem (x : fl) :
  zero_or_one x ->
  add64 (mul64 (div64 (sub64 x zero) (sub64 one zero)) (sub64 one zero)) zero
  = x.
Proof. intros [-> | ->]; apply fl_same_eq; vm_compute; reflexivity. Qed.

Lemma divide_by_one (x : fl) : zero_or_one x -> (x / one)%fl = x.
Proof. intros [-> | ->]; apply fl_same_eq; reflexivity. Qed.

Lemma map_fixed (f : fl -> fl) (P : fl -> Prop) (l : list fl) :
  (forall x, P x -> f x = x) -> Forall P l -> map f l = l.
Proof.
  intros Hf. induction 1 as [| x l Hx Hl IH]; [reflexivity |].
  cbn [map]. now rewrite Hf, IH.
Qed.

Lemma scale_centred (s : list nat) :
  Forall (le 1) s -> 2 <= prod_shape s ->
  scale (centred_impulse s) None = Ok (centred_impulse s).
Proof.
  intros Hs Hsize.
  destruct (extremes_of_bits (centred_data s) (centred_data_values s)
              (centred_data_has_zero s Hs Hsize) (centred_data_has_one s))
    as [Hmin Hmax].
  unfold scale, centred_impulse, amap. cbn [data shape].
  rewrite Hmin, Hmax.
  destruct (centred_data s) eqn:E.
  - pose proof (centred_data_has_one s) as H. rewrite E in H. contradiction.
  - rewrite <- E. do 2 f_equal.
    apply map_fixed with (P := zero_or_one);
      [exact scale_bits_elem | apply centred_data_values].
Qed.

Lemma zip_pads_same (s : list nat) :
  zip_pads (map Z.of_nat s) (map (fun n => Some (Z.of_nat n)) s)
  = map (fun _ => (0, 0)%Z) s.
Proof.
  induction s as [| n s IH]; [reflexivity |].
  cbn [map zip_pads]. rewrite IH. f_equal.
  unfold _calc_pad. rewrite Z.sub_diag. reflexivity.
Qed.

Lemma pad_data_none (mode : pad_mode) (s : list nat) : forall d,
  length d = prod_shape s ->
  pad_data mode s (map (fun _ => (0, 0)) s) d = d /\
  pad_shape s (map (fun _ => (0, 0)) s) = s.
Proof.
  induction s as [| n s IH]; intros d Hlen; [split; reflexivity |].
  cbn [map pad_data pad_shape repeat app].
  cbn [prod_shape fold_right] in Hlen. fold (prod_shape s) in *.
  split.
  - rewrite app_nil_r, flat_map_id; [now apply chunks_concat |].
    eapply Forall_impl; [| now apply chunks_length].
    intros c Hc. now apply IH.
  - f_equal; [lia |].
    now apply (IH (repeat zero (prod_shape s))), repeat_length.
Qed.

(** Padding to the shape the array already has changes nothing. *)
Lemma fft_pad_same_shape (a : ndarray) (mode : pad_mode) :
  shape a <> [] -> wf a -> fft_pad a (shape_arg (shape a)) mode = Ok a.
Proof.
  intros Hrank Hwf. unfold fft_pad, shape_arg, np_pad. cbn [bind].
  rewrite zip_pads_same.
  assert (Hne : (length (map (fun _ => (0, 0)%Z) (shape a)) =? 0)%nat = false).
  { apply Nat.eqb_neq. rewrite length_map.
    destruct (shape a); [now contradiction Hrank | discriminate]. }
  assert (Hneg : existsb pad_negative (map (fun _ => (0, 0)%Z) (shape a)) = false)
    by (clear; induction (shape a); [reflexivity | assumption]).
  rewrite Hne, Hneg. unfold ndim. rewrite length_map, Nat.eqb_refl, map_map.
  change (fun x : nat => pad_to_nat (0%Z, 0%Z)) with (fun _ : nat => (0, 0)).
  destruct (pad_data_none mode (shape a) (data a) Hwf) as [-> ->].
  now destruct a.
Qed.

(** A centred unit impulse of the image's shape is an identity kernel: it
    is its own normalised form, and [ifftshift] brings it to the origin. *)
Lemma centred_impulse_is_identity_kernel (s : list nat) :
  Forall (le 1) s -> 2 <= prod_shape s ->
  psf_normalize (centred_impulse s) s = Ok (centred_impulse s) /\
  ifftshift (centred_impulse s) = impulse0 s.
Proof.
  intros Hs Hsize. split.
  - unfold psf_normalize. rewrite scale_centred by assumption. cbn [bind].
    change s with (shape (centred_impulse s)) at 2.
    rewrite fft_pad_same_shape;
      [| unfold centred_impulse; cbn [shape]; intro E; rewrite E in Hsize;
         cbn in Hsize; lia
       | unfold wf, size; cbn [data shape]; now apply centred_data_length].
    cbn [bind]. unfold asum, amap, centred_impulse. cbn [data shape].
    rewrite sum_finite by apply centred_data_finite.
    rewrite centred_data_total. do 2 f_equal.
    apply map_fixed with (P := zero_or_one);
      [exact divide_by_one | apply centred_data_values].
  - unfold ifftshift, centred_impulse. cbn [data shape].
    rewrite ifftshift_centred by exact Hs.
    now apply origin_is_impulse0.
Qed.

End CentredNormalised.

(** * Further properties of the module *)

(** A computation that evaluates to a result returns it. *)
Lemma returns_ok {A : Type} (r : res A) :
  returns r = true -> exists a, r = Ok a.
Proof. destruct r; [eexists; reflexivity | discriminate]. Qed.

(** ** [nextpow2] *)

Lemma bit_length_bounds (m : Z) :
  (0 < m)%Z -> (2 ^ (bit_length m - 1) <= m < 2 ^ bit_length m)%Z.
Proof.
  intro Hm. unfold bit_length.
  destruct (Z.eqb_spec m 0) as [E | _]; [lia |].
  rewrite Z.abs_eq by lia.
  replace (Z.log2 m + 1 - 1)%Z with (Z.log2 m) by lia.
  pose proof (Z.log2_spec m Hm) as H.
  replace (Z.succ (Z.log2 m)) with (Z.log2 m + 1)%Z in H by lia.
  exact H.
Qed.

Lemma nextpow2_nonneg (n : Z) :
  (0 <= n)%Z ->
  exists k, (0 <= k)%Z /\ nextpow2 n = Ok (2 ^ k)%Z /\
            (n <= 2 ^ k)%Z /\
            ((1 <= n)%Z -> (2 ^ k < 2 * n)%Z) /\
            (n = 0%Z -> k = 1%Z).
Proof.
  intro Hn. unfold nextpow2.
  assert (E : (n <? 0)%Z = false) by (apply Z.ltb_ge; lia). rewrite E.
  destruct (Z.eq_dec n 0) as [-> | Hn0].
  { exists 1%Z. repeat split; try reflexivity; lia. }
  destruct (Z.eq_dec n 1) as [-> | Hn1].
  { exists 0%Z. repeat split; try reflexivity; lia. }
  assert (Hm : (0 < n - 1)%Z) by lia.
  pose proof (bit_length_bounds (n - 1) Hm) as [Hlo Hhi].
  assert (Hk : (1 <= bit_length (n - 1))%Z).
  { unfold bit_length. destruct (Z.eqb_spec (n - 1) 0); [lia |].
    pose proof (Z.log2_nonneg (Z.abs (n - 1))). lia. }
  exists (bit_length (n - 1)). repeat split.
  - lia.
  - rewrite Z.shiftl_1_l. reflexivity.
  - lia.
  - intros _.
    replace (bit_length (n - 1)) with (bit_length (n - 1) - 1 + 1)%Z by lia.
    rewrite Z.pow_add_r by lia. change (2 ^ 1)%Z with 2%Z. lia.
  - intro; lia.
Qed.

(** X1: [nextpow2] raises on a negative number; on [n >= 1] it returns the
    smallest power of two that is not below [n]; on 0 it returns 2. *)
Theorem nextpow2_smallest_power (n : Z) :
  ((n < 0)%Z -> nextpow2 n = Raise ValueError) /\
  ((0 <= n)%Z ->
   exists k, (0 <= k)%Z /\ nextpow2 n = Ok (2 ^ k)%Z /\
             (n <= 2 ^ k)%Z /\
             ((1 <= n)%Z -> (2 ^ k < 2 * n)%Z) /\
             (n = 0%Z -> k = 1%Z)).
Proof.
  split; intro Hn.
  - unfold nextpow2. apply Z.ltb_lt in Hn. now rewrite Hn.
  - now apply nextpow2_nonneg.
Qed.

Lemma nextpow2_smallest_power_witness :
  (0 <= 10)%Z /\ (1 <= 10)%Z /\
  exists k, nextpow2 10 = Ok (2 ^ k)%Z /\ (10 <= 2 ^ k)%Z /\ (2 ^ k < 2 * 10)%Z.
Proof.
  assert (H0 : (0 <= 10)%Z) by lia.
  assert (H1 : (1 <= 10)%Z) by lia.
  split; [exact H0 | split; [exact H1 |]].
  destruct (proj2 (nextpow2_smallest_power 10) H0) as (k & _ & Hk & Hle & Hlt & _).
  exists k. repeat split; [exact Hk | exact Hle | exact (Hlt H1)].
Defined.

(** ** [slice_maker] *)

Lemma centred_slice_make (width c : Z) :
  centred_slice width c
    (mk_slice (Z.max 0 (c - width / 2)) (c + (width - width / 2))).
Proof.
  unfold centred_slice. cbn [slice_start slice_stop].
  repeat split; lia.
Qed.

(** X2: [slice_maker] returns two slices, for the rows and for the columns,
    each around the integer part of its centre: no slice starts below 0,
    none is longer than [width], and a slice whose centre is at least
    [width // 2] away from 0 has exactly [width] elements. *)
Theorem slice_maker_centred (y0 x0 : Qc) (width : Z) :
  exists sy sx,
    slice_maker y0 x0 width = [sy; sx] /\
    centred_slice width (py_int y0) sy /\
    centred_slice width (py_int x0) sx.
Proof.
  eexists. eexists. split; [reflexivity |].
  split; apply centred_slice_make.
Qed.

Lemma slice_maker_centred_witness :
  (25 / 2 <= py_int (Q2Qc 30))%Z /\
  slice_maker (Q2Qc 30) (Q2Qc 20) 25
  = [mk_slice 18 43; mk_slice 8 33] /\
  exists sy sx,
    slice_maker (Q2Qc 30) (Q2Qc 20) 25 = [sy; sx] /\
    (slice_stop sy - slice_start sy = 25)%Z.
Proof.
  assert (H : (25 / 2 <= py_int (Q2Qc 30))%Z) by (vm_compute; discriminate).
  split; [exact H | split; [reflexivity |]].
  destruct (slice_maker_centred (Q2Qc 30) (Q2Qc 20) 25)
    as (sy & sx & E & (_ & _ & _ & Hy) & _).
  exists sy, sx. split; [exact E | exact (proj2 (Hy H))].
Defined.

(** ** [fft_pad] *)

Section FftPadFacts.

Lemma pow2_ceil_spec (n : nat) :
  nextpow2 (Z.of_nat n) = Ok (Z.of_nat (pow2_ceil n)) /\
  (n <= pow2_ceil n)%nat /\ power_of_two (pow2_ceil n).
Proof.
  destruct (nextpow2_nonneg (Z.of_nat n) ltac:(lia)) as (k & Hk & Hv & Hle & _).
  assert (Hpow : pow2_ceil n = (2 ^ Z.to_nat k)%nat).
  { unfold pow2_ceil. unfold nextpow2 in Hv.
    assert (E : (Z.of_nat n <? 0)%Z = false) by (apply Z.ltb_ge; lia).
    rewrite E in Hv. injection Hv as ->.
    rewrite <- (Z2Nat.id k) at 1 by exact Hk.
    change 2%Z with (Z.of_nat 2). rewrite <- Nat2Z.inj_pow. apply Nat2Z.id. }
  assert (Hz : Z.of_nat (pow2_ceil n) = (2 ^ k)%Z).
  { rewrite Hpow, Nat2Z.inj_pow, Z2Nat.id by exact Hk. reflexivity. }
  repeat split.
  - now rewrite Hv, Hz.
  - lia.
  - now exists (Z.to_nat k).
Qed.

Lemma nextpow2_shape (s : list nat) :
  mapM_res nextpow2 (map Z.of_nat s) = Ok (map Z.of_nat (map pow2_ceil s)).
Proof.
  induction s as [| n s IH]; [reflexivity |].
  cbn [map mapM_res]. destruct (pow2_ceil_spec n) as (-> & _).
  cbn [bind]. now rewrite IH.
Qed.

Lemma pow2_ceil_fits (s : list nat) : Forall2 le s (map pow2_ceil s).
Proof.
  induction s as [| n s IH]; constructor; [apply pow2_ceil_spec | exact IH].
Qed.

Lemma has_axis (a : ndarray) : ndim a <> 0%nat -> shape a <> [].
Proof. intros H E. apply H. unfold ndim. now rewrite E. Qed.

(** X3: Without a target, [fft_pad] pads every axis of a non-empty array
    that has at least one axis to the power of two that [nextpow2] gives
    for its length, whatever the mode, and does not raise. *)
Theorem fft_pad_default_shape (a : ndarray) (mode : pad_mode) :
  wf a ->
  ndim a <> 0%nat ->
  size a <> 0%nat ->
  exists b,
    fft_pad a PwNone mode = Ok b /\
    shape b = map pow2_ceil (shape a) /\
    wf b /\
    Forall2 le (shape a) (shape b) /\
    Forall power_of_two (shape b).
Proof.
  intros Hwf Hrank _.
  destruct (fft_pad_to_shape a (map pow2_ceil (shape a)) mode
              (has_axis a Hrank) (pow2_ceil_fits (shape a)))
    as (pads & Hpad & Hshape).
  eexists. split.
  { unfold fft_pad. rewrite nextpow2_shape. cbn [bind].
    unfold fft_pad, shape_arg in Hpad. cbn [bind] in Hpad.
    rewrite map_map. exact Hpad. }
  cbn [shape data]. repeat split.
  - unfold wf, size. cbn [data shape].
    rewrite pad_data_length by exact Hwf. now rewrite Hshape.
  - apply pow2_ceil_fits.
  - apply Forall_forall. intros m Hm. apply in_map_iff in Hm as (n & <- & _).
    apply pow2_ceil_spec.
Qed.

Lemma fft_pad_default_shape_witness :
  wf (Small2.vec [1; 2; 3]%Z) /\
  ndim (Small2.vec [1; 2; 3]%Z) <> 0%nat /\
  size (Small2.vec [1; 2; 3]%Z) <> 0%nat /\
  exists b,
    fft_pad (Small2.vec [1; 2; 3]%Z) PwNone Constant = Ok b /\
    shape b = [4%nat] /\ wf b.
Proof.
  assert (H : wf (Small2.vec [1; 2; 3]%Z)) by reflexivity.
  assert (H0 : ndim (Small2.vec [1; 2; 3]%Z) <> 0%nat) by discriminate.
  assert (H1 : size (Small2.vec [1; 2; 3]%Z) <> 0%nat) by discriminate.
  split; [exact H | split; [exact H0 | split; [exact H1 |]]].
  destruct (fft_pad_default_shape (Small2.vec [1; 2; 3]%Z) Constant H H0 H1)
    as (b & Hb & Hs & Hw & _).
  exists b. repeat split; [exact Hb | exact Hs | exact Hw].
Defined.

Lemma zip_pads_too_small (s0 : list nat) : forall s,
  length s0 = length s ->
  ~ Forall2 le s0 s ->
  existsb pad_negative
          (zip_pads (map Z.of_nat s0) (map (fun n => Some (Z.of_nat n)) s))
  = true.
Proof.
  induction s0 as [| o s0 IH]; intros [| n s] Hlen Hnot; try discriminate Hlen.
  - exfalso. apply Hnot. constructor.
  - cbn [map zip_pads existsb]. injection Hlen as Hlen.
    destruct (le_gt_dec o n) as [Hle | Hgt].
    + rewrite IH; [apply orb_true_r | exact Hlen |].
      intro H. apply Hnot. now constructor.
    + apply orb_true_iff. left.
      unfold pad_negative, _calc_pad. cbn [fst snd].
      apply orb_true_iff. right. apply Z.ltb_lt.
      apply Z.div_lt_upper_bound; lia.
Qed.

Lemma fft_pad_smaller_shape (a : ndarray) (s : list nat) (mode : pad_mode) :
  length s = ndim a ->
  ~ Forall2 le (shape a) s ->
  fft_pad a (shape_arg s) mode = Raise ValueError.
Proof.
  intros Hlen Hnot. unfold fft_pad, shape_arg, np_pad. cbn [bind].
  rewrite zip_pads_too_small; [| now symmetry | exact Hnot].
  now destruct (_ =? _)%nat.
Qed.

(** X4: Cropping is not done: a target that is smaller than the array along
    some axis makes [fft_pad] raise, whatever the mode. *)
Theorem fft_pad_smaller_target_raises (a : ndarray) (s : list nat)
    (mode : pad_mode) :
  length s = ndim a ->
  ~ Forall2 le (shape a) s ->
  fft_pad a (shape_arg s) mode = Raise ValueError.
Proof. apply fft_pad_smaller_shape. Qed.

Lemma fft_pad_smaller_target_raises_witness :
  length [2%nat] = ndim (Small2.vec [1; 2; 3]%Z) /\
  ~ Forall2 le (shape (Small2.vec [1; 2; 3]%Z)) [2%nat] /\
  fft_pad (Small2.vec [1; 2; 3]%Z) (shape_arg [2%nat]) Median = Raise ValueError.
Proof.
  assert (H1 : length [2%nat] = ndim (Small2.vec [1; 2; 3]%Z)) by reflexivity.
  assert (H2 : ~ Forall2 le (shape (Small2.vec [1; 2; 3]%Z)) [2%nat]).
  { intro H. inversion H; subst. lia. }
  split; [exact H1 | split; [exact H2 |]].
  exact (fft_pad_smaller_target_raises _ _ Median H1 H2).
Defined.

Lemma zip_pads_keep (s : list nat) : forall l,
  Forall2 (fun o t => t = None \/ t = Some (Z.of_nat o)) s l ->
  zip_pads (map Z.of_nat s) l = map (fun _ => (0, 0)%Z) s.
Proof.
  induction s as [| o s IH]; intros l H; inversion H; subst; [reflexivity |].
  cbn [map zip_pads]. rewrite IH by assumption. f_equal.
  match goal with Ht : _ \/ _ |- _ => destruct Ht as [-> | ->] end;
    unfold _calc_pad; rewrite Z.sub_diag; reflexivity.
Qed.

(** X5: For an array with at least one axis, a target that gives, for
    every axis, either [None] or the length the axis already has leaves the
    array as it is, whatever the mode. *)
Theorem fft_pad_same_target_unchanged (a : ndarray) (l : list (option Z))
    (mode : pad_mode) :
  wf a ->
  ndim a <> 0%nat ->
  Forall2 (fun o t => t = None \/ t = Some (Z.of_nat o)) (shape a) l ->
  fft_pad a (PwSeq l) mode = Ok a.
Proof.
  intros Hwf Hrank Hl. unfold fft_pad, np_pad. cbn [bind].
  rewrite (zip_pads_keep _ _ Hl).
  assert (Hne : (length (map (fun _ => (0, 0)%Z) (shape a)) =? 0)%nat = false).
  { apply Nat.eqb_neq. now rewrite length_map. }
  assert (Hneg : existsb pad_negative (map (fun _ => (0, 0)%Z) (shape a)) = false).
  { clear Hl Hwf Hrank Hne.
    induction (shape a) as [| n s IH]; [reflexivity | exact IH]. }
  rewrite Hne, Hneg. unfold ndim. rewrite length_map, Nat.eqb_refl, map_map.
  change (fun x : nat => pad_to_nat (0%Z, 0%Z)) with (fun _ : nat => (0%nat, 0%nat)).
  destruct (pad_data_none mode (shape a) (data a) Hwf) as [-> ->].
  now destruct a.
Qed.

Lemma fft_pad_same_target_unchanged_witness :
  wf (Small.img 1 2 3 4) /\
  ndim (Small.img 1 2 3 4) <> 0%nat /\
  Forall2 (fun o t => t = None \/ t = Some (Z.of_nat o))
          (shape (Small.img 1 2 3 4)) [None; Some 2%Z] /\
  fft_pad (Small.img 1 2 3 4) (PwSeq [None; Some 2%Z]) Median
  = Ok (Small.img 1 2 3 4).
Proof.
  assert (H1 : wf (Small.img 1 2 3 4)) by reflexivity.
  assert (H2 : Forall2 (fun o t => t = None \/ t = Some (Z.of_nat o))
                       (shape (Small.img 1 2 3 4)) [None; Some 2%Z]).
  { constructor; [left; reflexivity |].
    constructor; [right; reflexivity | constructor]. }
  assert (H0 : ndim (Small.img 1 2 3 4) <> 0%nat) by discriminate.
  split; [exact H1 | split; [exact H0 | split; [exact H2 |]]].
  exact (fft_pad_same_target_unchanged _ _ Median H1 H0 H2).
Defined.

(** X6: Zero padding adds zeros and nothing else: towards a shape that is
    nowhere smaller, [fft_pad] in mode ['constant'] returns, for an array
    with at least one axis, an array of that shape whose elements are those
    of the input and zeros; it is finite when the input is. *)
Theorem fft_pad_constant_adds_zeros (a : ndarray) (s : list nat) :
  wf a ->
  ndim a <> 0%nat ->
  Forall2 le (shape a) s ->
  exists b,
    fft_pad a (shape_arg s) Constant = Ok b /\
    shape b = s /\ wf b /\
    zero_padded (data a) (data b) /\
    (all_finite a = true -> all_finite b = true).
Proof.
  intros Hwf Hrank Hfit.
  destruct (fft_pad_to_shape a s Constant (has_axis a Hrank) Hfit)
    as (pads & Hpad & Hshape).
  destruct (pad_constant_facts (shape a) pads (data a) Hwf) as (Hlen & _ & Hf).
  pose proof (pad_constant_perm (shape a) pads (data a) Hwf) as Hperm.
  eexists. split; [exact Hpad |]. cbn [shape data].
  split; [reflexivity |].
  split; [unfold wf, size; cbn [data shape]; now rewrite Hlen, Hshape |].
  split.
  - unfold zero_padded. unfold wf, size in Hwf. now rewrite Hlen, Hwf.
  - unfold all_finite. cbn [data]. exact Hf.
Qed.

Lemma fft_pad_constant_adds_zeros_witness :
  wf (Small2.vec [1; 2; 3]%Z) /\
  ndim (Small2.vec [1; 2; 3]%Z) <> 0%nat /\
  Forall2 le (shape (Small2.vec [1; 2; 3]%Z)) [8%nat] /\
  exists b,
    fft_pad (Small2.vec [1; 2; 3]%Z) (shape_arg [8%nat]) Constant = Ok b /\
    shape b = [8%nat] /\ wf b /\
    zero_padded (data (Small2.vec [1; 2; 3]%Z)) (data b) /\
    (all_finite (Small2.vec [1; 2; 3]%Z) = true -> all_finite b = true).
Proof.
  assert (H1 : wf (Small2.vec [1; 2; 3]%Z)) by reflexivity.
  assert (H2 : ndim (Small2.vec [1; 2; 3]%Z) <> 0%nat) by discriminate.
  assert (H3 : Forall2 le (shape (Small2.vec [1; 2; 3]%Z)) [8%nat])
    by (repeat constructor).
  split; [exact H1 | split; [exact H2 | split; [exact H3 |]]].
  exact (fft_pad_constant_adds_zeros _ _ H1 H2 H3).
Defined.

End FftPadFacts.

(** ** [enusure_positive] and the coefficient *)

(** X7: [enusure_positive] raises exactly when some element is not finite;
    otherwise the array it has changed in place keeps its shape, its
    elements are finite and not below 0, the elements that were not
    negative being kept and the others set to 0. *)
Theorem enusure_positive_result (a : ndarray) :
  (all_finite a = false -> enusure_positive a = Raise AssertionError) /\
  (all_finite a = true ->
   exists b,
     enusure_positive a = Ok b /\
     shape b = shape a /\
     data b = map (fun x => if Fl.ltb x zero then zero else x) (data a) /\
     all_finite b = true /\
     forallb (fun x => Fl.geb x zero) (data b) = true).
Proof.
  unfold enusure_positive. split; intro H; rewrite H; [reflexivity |].
  exists (clamp_below zero a).
  split; [reflexivity | split; [reflexivity | split; [reflexivity |]]].
  assert (Hfin : all_finite (clamp_below zero a) = true).
  { unfold all_finite, clamp_below, amap in *. cbn [data].
    induction (data a) as [| x l IH]; [reflexivity |].
    cbn [map forallb] in *. apply andb_true_iff in H as [Hx Hl].
    rewrite (IH Hl), andb_true_r. now destruct (Fl.ltb x zero). }
  split; [exact Hfin | now apply clamped_nonneg].
Qed.

Lemma enusure_positive_result_witness :
  all_finite (Small2.vec [3; -2]%Z) = true /\
  enusure_positive (Small2.vec [3; -2]%Z) = Ok (Small2.vec [3; 0]%Z) /\
  exists b,
    enusure_positive (Small2.vec [3; -2]%Z) = Ok b /\
    forallb (fun x => Fl.geb x zero) (data b) = true.
Proof.
  assert (H : all_finite (Small2.vec [3; -2]%Z) = true) by reflexivity.
  split; [exact H | split; [same_array |]].
  destruct (proj2 (enusure_positive_result (Small2.vec [3; -2]%Z)) H)
    as (b & Hb & _ & _ & _ & Hnn).
  exists b. split; [exact Hb | exact Hnn].
Defined.

(** X8: Whatever the residuals are, the coefficient [rl_alpha] returns is a
    finite number between 0 and 1, and its two assertions never fail: the
    only errors are those of the operands ([None], shapes that do not
    broadcast). *)
Theorem rl_alpha_in_unit_interval (i : nat) (g1 g2 : option ndarray) :
  match rl_alpha i g1 g2 with
  | Ok a => exists q, a = Fin q /\ (0 <= q <= 1)%Qc
  | Raise e => e <> AssertionError
  end.
Proof.
  unfold rl_alpha. destruct (1 <? i)%nat.
  - destruct g1 as [a |]; cbn [need bind]; [| discriminate].
    destruct g2 as [b |]; cbn [need bind]; [| discriminate].
    unfold dot. destruct (amap2 Fl.mul a b) as [p | e] eqn:E; cbn [bind].
    + destruct (alpha_in_unit (asum p / sum_squares b)%fl) as (q & Hq & H0 & H1).
      rewrite Hq, geb_zero_Fin by exact H0.
      unfold one. rewrite leb_Fin by exact H1. cbn [negb].
      exists q. now split.
    + unfold amap2 in E. destruct (broadcast_shape _ _); [discriminate E |].
      injection E as <-. discriminate.
  - exists 0%Qc. split; [reflexivity |]. split; QcFacts.to_Q; lra.
Qed.

(** ** [richardson_lucy]: the prediction order and the iteration count *)

Section PredictionOrder.

Variables (freq : Type)
          (urfftn : ndarray -> res freq) (uirfftn : freq -> res ndarray)
          (fmul : freq -> freq -> res freq) (fconj : freq -> freq)
          (fwin : ndarray -> freq -> res freq).

Let step := rl_step freq urfftn uirfftn fmul fconj.
Let loop := rl_loop freq urfftn uirfftn fmul fconj.
Let rl := richardson_lucy freq urfftn uirfftn fmul fconj fwin.

Lemma rl_step_early (image : ndarray) (otf : freq) (o1 o2 : Z) (i : nat)
    (st : rl_state) :
  (i <= 1)%nat -> step image otf o1 i st = step image otf o2 i st.
Proof.
  intro Hi. unfold step, rl_step.
  destruct (rl_update freq urfftn uirfftn fmul fconj image otf (y_t st))
    as [u |]; cbn [bind]; [| reflexivity].
  destruct (amap2 Fl.sub u (y_t st)) as [g |]; cbn [bind]; [| reflexivity].
  rewrite rl_alpha_early by exact Hi. cbn [bind].
  replace (negb (Fl.eqb zero zero)) with false by reflexivity.
  reflexivity.
Qed.

Lemma rl_loop_early (image : ndarray) (otf : freq) (o1 o2 : Z) (n : nat) :
  forall i st, (i + n <= 2)%nat ->
               loop image otf o1 n i st = loop image otf o2 n i st.
Proof.
  induction n as [| n IH]; intros i st Hn; [reflexivity |].
  unfold loop in *. cbn [rl_loop]. fold step.
  rewrite (rl_step_early image otf o1 o2 i st) by lia.
  destruct (step image otf o2 i st) as [st' |]; cbn [bind]; [| reflexivity].
  apply IH. lia.
Qed.

(** X9: The first two iterations are never accelerated: with at most two
    iterations [richardson_lucy] returns the same result, or raises the
    same error, for every prediction order. *)
Theorem two_iterations_ignore_order (image psf : ndarray) (iterations : Z)
    (clip : bool) (o1 o2 : Z) (win_func : option window_fun) :
  (iterations <= 2)%Z ->
  rl image psf iterations clip o1 win_func
  = rl image psf iterations clip o2 win_func.
Proof.
  intro Hit. unfold rl, richardson_lucy.
  destruct (negb (ndim psf =? ndim image)%nat); [reflexivity |].
  destruct (rl_window image win_func) as [w |]; cbn [bind]; [| reflexivity].
  destruct (psf_normalize psf (shape image)) as [pn |]; cbn [bind];
    [| reflexivity].
  destruct (rl_otf freq urfftn fwin w pn) as [otf |]; cbn [bind];
    [| reflexivity].
  fold loop. rewrite (rl_loop_early image otf o1 o2) by lia. reflexivity.
Qed.

Lemma rl_step_order_tests (image : ndarray) (otf : freq) (o1 o2 : Z) (i : nat)
    (st : rl_state) :
  (0 <? o1)%Z = (0 <? o2)%Z -> (1 <? o1)%Z = (1 <? o2)%Z ->
  step image otf o1 i st = step image otf o2 i st.
Proof.
  intros H0 H1. unfold step, rl_step. now rewrite H0, H1.
Qed.

Lemma rl_loop_order_tests (image : ndarray) (otf : freq) (o1 o2 : Z) (n : nat) :
  (0 <? o1)%Z = (0 <? o2)%Z -> (1 <? o1)%Z = (1 <? o2)%Z ->
  forall i st, loop image otf o1 n i st = loop image otf o2 n i st.
Proof.
  intros H0 H1. induction n as [| n IH]; intros i st; [reflexivity |].
  unfold loop in *. cbn [rl_loop]. fold step.
  rewrite (rl_step_order_tests image otf o1 o2 i st H0 H1).
  destruct (step image otf o2 i st) as [st' |]; cbn [bind]; [| reflexivity].
  apply IH.
Qed.

(** X10: The prediction order is not validated and only compared with 0 and 1:
    every order above 2 behaves as 2 (second-order prediction) and every
    order below 0 as 0 (no prediction). *)
Theorem prediction_order_saturates (image psf : ndarray) (iterations : Z)
    (clip : bool) (order : Z) (win_func : option window_fun) :
  ((2 <= order)%Z ->
   rl image psf iterations clip order win_func
   = rl image psf iterations clip 2%Z win_func) /\
  ((order <= 0)%Z ->
   rl image psf iterations clip order win_func
   = rl image psf iterations clip 0%Z win_func).
Proof.
  assert (Hgen : forall o1 o2,
             (0 <? o1)%Z = (0 <? o2)%Z -> (1 <? o1)%Z = (1 <? o2)%Z ->
             rl image psf iterations clip o1 win_func
             = rl image psf iterations clip o2 win_func).
  { intros o1 o2 H0 H1. unfold rl, richardson_lucy.
    destruct (negb (ndim psf =? ndim image)%nat); [reflexivity |].
    destruct (rl_window image win_func) as [w |]; cbn [bind]; [| reflexivity].
    destruct (psf_normalize psf (shape image)) as [pn |]; cbn [bind];
      [| reflexivity].
    destruct (rl_otf freq urfftn fwin w pn) as [otf |]; cbn [bind];
      [| reflexivity].
    fold loop. now rewrite (rl_loop_order_tests image otf o1 o2). }
  split; intro H; apply Hgen.
  - transitivity true; [apply Z.ltb_lt; lia | reflexivity].
  - transitivity true; [apply Z.ltb_lt; lia | reflexivity].
  - transitivity false; [apply Z.ltb_ge; lia | reflexivity].
  - transitivity false; [apply Z.ltb_ge; lia | reflexivity].
Qed.

(** X11: Without iterations there is no estimate: for an iteration count of 0
    or less, once the PSF is normalised and its transfer function built,
    [richardson_lucy] returns [None], and raises [TypeError] when asked to
    clip it. *)
Theorem no_iteration_returns_none (image psf : ndarray) (iterations : Z)
    (clip : bool) (order : Z) (win_func : option window_fun)
    (w psf_norm : ndarray) (otf : freq) :
  (iterations <= 0)%Z ->
  ndim psf = ndim image ->
  rl_window image win_func = Ok w ->
  psf_normalize psf (shape image) = Ok psf_norm ->
  rl_otf freq urfftn fwin w psf_norm = Ok otf ->
  rl image psf iterations clip order win_func
  = if clip then Raise TypeError else Ok None.
Proof.
  intros Hit Hnd Hw Hpn Hotf. unfold rl, richardson_lucy.
  apply Nat.eqb_eq in Hnd. rewrite Hnd. cbn [negb].
  rewrite Hw. cbn [bind]. rewrite Hpn. cbn [bind]. rewrite Hotf. cbn [bind].
  replace (Z.to_nat iterations) with 0%nat by lia.
  cbn [rl_loop bind rl_init u_t]. now destruct clip.
Qed.

(** X12: A PSF that is larger than the image along some axis cannot be padded:
    without a window function [richardson_lucy] raises [ValueError]. *)
Theorem larger_psf_raises (image psf : ndarray) (iterations : Z)
    (clip : bool) (order : Z) :
  ndim psf = ndim image ->
  ~ Forall2 le (shape psf) (shape image) ->
  rl image psf iterations clip order None = Raise ValueError.
Proof.
  intros Hnd Hbig. unfold rl, richardson_lucy.
  pose proof Hnd as Hnd'. apply Nat.eqb_eq in Hnd'. rewrite Hnd'.
  cbn [negb rl_window bind].
  unfold psf_normalize, scale.
  destruct (data psf) as [| x l] eqn:E; [reflexivity |].
  cbn [bind].
  rewrite fft_pad_smaller_shape; [reflexivity | | exact Hbig].
  unfold ndim in *. cbn [amap shape]. now rewrite Hnd.
Qed.

End PredictionOrder.

Lemma two_iterations_ignore_order_witness :
  (2 <= 2)%Z /\
  Small.richardson_lucy (Small.img 4 2 1 3) (Small.img 0 1 1 4) 2 false 2 None
  = Small.richardson_lucy (Small.img 4 2 1 3) (Small.img 0 1 1 4) 2 false 0 None.
Proof.
  assert (H1 : (2 <= 2)%Z) by lia.
  split; [exact H1 |].
  exact (two_iterations_ignore_order
           Small.freq Small.urfftn Small.uirfftn Small.fmul Small.fconj Small.fwin
           (Small.img 4 2 1 3) (Small.img 0 1 1 4) 2%Z false 2%Z 0%Z None H1).
Defined.

Lemma prediction_order_saturates_witness :
  (2 <= 5)%Z /\ (-3 <= 0)%Z /\
  Small.richardson_lucy (Small.img 4 2 1 3) (Small.img 0 1 1 4) 4 false 5 None
  = Small.richardson_lucy (Small.img 4 2 1 3) (Small.img 0 1 1 4) 4 false 2 None /\
  Small.richardson_lucy (Small.img 4 2 1 3) (Small.img 0 1 1 4) 4 false (-3) None
  = Small.richardson_lucy (Small.img 4 2 1 3) (Small.img 0 1 1 4) 4 false 0 None.
Proof.
  assert (H1 : (2 <= 5)%Z) by lia.
  assert (H2 : (-3 <= 0)%Z) by lia.
  split; [exact H1 | split; [exact H2 | split]].
  - exact (proj1 (prediction_order_saturates
                    Small.freq Small.urfftn Small.uirfftn Small.fmul Small.fconj
                    Small.fwin (Small.img 4 2 1 3) (Small.img 0 1 1 4) 4%Z false
                    5%Z None) H1).
  - exact (proj2 (prediction_order_saturates
                    Small.freq Small.urfftn Small.uirfftn Small.fmul Small.fconj
                    Small.fwin (Small.img 4 2 1 3) (Small.img 0 1 1 4) 4%Z false
                    (-3)%Z None) H2).
Defined.

Lemma no_iteration_returns_none_witness :
  (0 <= 0)%Z /\
  ndim (Small.img 0 0 0 1) = ndim (Small.img 4 2 1 3) /\
  rl_window (Small.img 4 2 1 3) None = Ok (scalar one) /\
  psf_normalize (Small.img 0 0 0 1) (shape (Small.img 4 2 1 3))
  = Ok (mk_array [2%nat; 2%nat] [zero; zero; zero; one]) /\
  Small.rl_otf (scalar one) (mk_array [2%nat; 2%nat] [zero; zero; zero; one])
  = Ok small_identity_otf /\
  Small.richardson_lucy (Small.img 4 2 1 3) (Small.img 0 0 0 1) 0 true 2 None
  = Raise TypeError.
Proof.
  assert (H1 : (0 <= 0)%Z) by lia.
  assert (H2 : ndim (Small.img 0 0 0 1) = ndim (Small.img 4 2 1 3))
    by reflexivity.
  assert (H3 : rl_window (Small.img 4 2 1 3) None = Ok (scalar one))
    by reflexivity.
  assert (H4 : psf_normalize (Small.img 0 0 0 1) (shape (Small.img 4 2 1 3))
               = Ok (mk_array [2%nat; 2%nat] [zero; zero; zero; one]))
    by same_array.
  assert (H5 : Small.rl_otf (scalar one)
                 (mk_array [2%nat; 2%nat] [zero; zero; zero; one])
               = Ok small_identity_otf) by same_array.
  repeat (split; [assumption |]).
  exact (no_iteration_returns_none
           Small.freq Small.urfftn Small.uirfftn Small.fmul Small.fconj Small.fwin
           (Small.img 4 2 1 3) (Small.img 0 0 0 1) 0%Z true 2%Z None
           (scalar one) (mk_array [2%nat; 2%nat] [zero; zero; zero; one])
           small_identity_otf H1 H2 H3 H4 H5).
Defined.

Lemma larger_psf_raises_witness :
  ndim (mk_array [3%nat] [of_Z 1; of_Z 2; of_Z 1])
  = ndim (mk_array [2%nat] [of_Z 4; of_Z 2]) /\
  ~ Forall2 le (shape (mk_array [3%nat] [of_Z 1; of_Z 2; of_Z 1]))
               (shape (mk_array [2%nat] [of_Z 4; of_Z 2])) /\
  Small.richardson_lucy (mk_array [2%nat] [of_Z 4; of_Z 2])
                        (mk_array [3%nat] [of_Z 1; of_Z 2; of_Z 1])
                        3 false 1 None
  = Raise ValueError.
Proof.
  assert (H1 : ndim (mk_array [3%nat] [of_Z 1; of_Z 2; of_Z 1])
               = ndim (mk_array [2%nat] [of_Z 4; of_Z 2])) by reflexivity.
  assert (H3 : ~ Forall2 le (shape (mk_array [3%nat] [of_Z 1; of_Z 2; of_Z 1]))
                            (shape (mk_array [2%nat] [of_Z 4; of_Z 2]))).
  { cbn [shape]. intro H. inversion H. lia. }
  repeat (split; [assumption |]).
  exact (larger_psf_raises
           Small.freq Small.urfftn Small.uirfftn Small.fmul Small.fconj Small.fwin
           (mk_array [2%nat] [of_Z 4; of_Z 2])
           (mk_array [3%nat] [of_Z 1; of_Z 2; of_Z 1]) 3%Z false 1%Z H1 H3).
Defined.

(** ** [richardson_lucy]: the bounds of the estimate *)

Section Estimate.

Variables (freq : Type)
          (urfftn : ndarray -> res freq) (uirfftn : freq -> res ndarray)
          (fmul : freq -> freq -> res freq) (fconj : freq -> freq)
          (fwin : ndarray -> freq -> res freq).

Let step := rl_step freq urfftn uirfftn fmul fconj.
Let loop := rl_loop freq urfftn uirfftn fmul fconj.
Let rl := richardson_lucy freq urfftn uirfftn fmul fconj fwin.

Lemma clamp_below_no_negative (a : ndarray) : no_negative (clamp_below zero a).
Proof.
  unfold no_negative, clamp_below, amap. cbn [data].
  apply Forall_forall. intros x Hx. apply in_map_iff in Hx as (y & <- & _).
  destruct (Fl.ltb y zero) eqn:E; [reflexivity | exact E].
Qed.

Lemma rl_update_no_negative (image : ndarray) (otf : freq) (y u : ndarray) :
  rl_update freq urfftn uirfftn fmul fconj image otf y = Ok u ->
  no_negative u.
Proof.
  unfold rl_update.
  repeat match goal with
         | |- bind ?m _ = _ -> _ =>
             destruct m; [cbn [bind] | discriminate]
         end.
  intro H. injection H as <-. apply clamp_below_no_negative.
Qed.

Lemma rl_step_estimate (image : ndarray) (otf : freq) (order : Z) (i : nat)
    (st st' : rl_state) :
  step image otf order i st = Ok st' ->
  exists u, u_t st' = Some u /\ no_negative u.
Proof.
  unfold step, rl_step.
  destruct (rl_update freq urfftn uirfftn fmul fconj image otf (y_t st))
    as [u |] eqn:Hu; [cbn [bind] | discriminate].
  repeat match goal with
         | |- bind ?m _ = _ -> _ =>
             destruct m; [cbn [bind] | discriminate]
         end.
  destruct (forallb _ _); [| discriminate].
  intro H. injection H as <-. exists u. cbn [u_t].
  split; [reflexivity | exact (rl_update_no_negative _ _ _ _ Hu)].
Qed.

Lemma rl_loop_estimate (image : ndarray) (otf : freq) (order : Z) (n : nat) :
  forall i st st',
    loop image otf order (S n) i st = Ok st' ->
    exists u, u_t st' = Some u /\ no_negative u.
Proof.
  induction n as [| n IH]; intros i st st'; unfold loop in *.
  - cbn [rl_loop]. fold step.
    destruct (step image otf order i st) as [st1 |] eqn:E;
      [cbn [bind] | discriminate].
    intro H. injection H as <-. exact (rl_step_estimate _ _ _ _ _ _ E).
  - change (rl_loop freq urfftn uirfftn fmul fconj image otf order (S (S n)) i st)
      with (st1 <- step image otf order i st ;;
            rl_loop freq urfftn uirfftn fmul fconj image otf order (S n) (S i) st1).
    destruct (step image otf order i st) as [st1 |];
      [cbn [bind] | discriminate].
    apply IH.
Qed.

Lemma not_below_minus_one (y : fl) :
  Fl.ltb y zero = false -> Fl.ltb y (neg one) = false.
Proof.
  destruct y as [q | | |]; try reflexivity; try discriminate.
  intro H. apply ltb_Fin_false in H.
  change (neg one) with (Fin (- Q2Qc 1)%Qc). apply ltb_Fin_false.
  apply Qcle_trans with (y := 0%Qc); [| exact H].
  apply Qcnot_lt_le. intro Hlt. apply Qclt_alt in Hlt. discriminate Hlt.
Qed.

Lemma clip_array_bounds (a : ndarray) :
  no_negative a -> no_negative (clip_array a) /\ none_above_one (clip_array a).
Proof.
  unfold no_negative, none_above_one, clip_array, amap. cbn [data].
  rewrite map_map. intro H.
  split; apply Forall_forall; intros x Hx;
    apply in_map_iff in Hx as (y & <- & Hy);
    (assert (Hy0 : Fl.ltb y zero = false)
      by (exact (proj1 (Forall_forall _ _) H y Hy)));
    clear H Hy.
  - destruct (Fl.gtb y one) eqn:E1.
    + reflexivity.
    + rewrite (not_below_minus_one y Hy0). exact Hy0.
  - destruct (Fl.gtb y one) eqn:E1.
    + reflexivity.
    + rewrite (not_below_minus_one y Hy0). exact E1.
Qed.

(** X13: Each new estimate has its negative values set to 0: whenever
    [richardson_lucy] runs at least one iteration and returns, it returns
    an array with no element below 0, and with [clip] none above 1. *)
Theorem estimate_never_negative (image psf : ndarray) (iterations : Z)
    (clip : bool) (order : Z) (win_func : option window_fun)
    (r : option ndarray) :
  (0 < iterations)%Z ->
  rl image psf iterations clip order win_func = Ok r ->
  exists a, r = Some a /\ no_negative a /\
            (clip = true -> none_above_one a).
Proof.
  intros Hit. unfold rl, richardson_lucy.
  destruct (negb (ndim psf =? ndim image)%nat); [discriminate |].
  destruct (rl_window image win_func) as [w |]; cbn [bind]; [| discriminate].
  destruct (psf_normalize psf (shape image)) as [pn |]; cbn [bind];
    [| discriminate].
  destruct (rl_otf freq urfftn fwin w pn) as [otf |]; cbn [bind];
    [| discriminate].
  destruct (Z.to_nat iterations) as [| n] eqn:En; [lia |].
  fold loop.
  destruct (loop image otf order (S n) 0%nat (rl_init image)) as [st |] eqn:E;
    cbn [bind]; [| discriminate].
  destruct (rl_loop_estimate _ _ _ _ _ _ _ E) as (u & Hu & Hpos).
  rewrite Hu. destruct clip; cbn [need bind].
  - intro H. injection H as <-. exists (clip_array u).
    destruct (clip_array_bounds u Hpos) as [H0 H1].
    split; [reflexivity | split; [exact H0 | intros _; exact H1]].
  - intro H. injection H as <-. exists u.
    split; [reflexivity | split; [exact Hpos | discriminate]].
Qed.

End Estimate.

Lemma estimate_never_negative_witness :
  (0 < 3)%Z /\
  exists r,
    Small.richardson_lucy (Small.img 4 2 1 3) (Small.img 0 1 1 4) 3 true 2 None
    = Ok r /\
    exists a, r = Some a /\ no_negative a /\ (true = true -> none_above_one a).
Proof.
  assert (H1 : (0 < 3)%Z) by lia.
  split; [exact H1 |].
  unfold Small.richardson_lucy.
  assert (Hret : exists r,
             richardson_lucy Small.freq Small.urfftn Small.uirfftn Small.fmul
                             Small.fconj Small.fwin
                             (Small.img 4 2 1 3) (Small.img 0 1 1 4)
                             3 true 2 None = Ok r)
    by (apply returns_ok; vm_compute; reflexivity).
  destruct Hret as [r Hrun].
  exists r. split; [exact Hrun |].
  exact (estimate_never_negative
           Small.freq Small.urfftn Small.uirfftn Small.fmul Small.fconj Small.fwin
           (Small.img 4 2 1 3) (Small.img 0 1 1 4) 3%Z true 2%Z None r H1 Hrun).
Defined.

(** ** [fftconvolve]: the modes *)

Section CentredSlices.

Lemma centred_slice_len (n s : nat) (k : Z) :
  (0 <= k <= Z.of_nat s)%Z -> Z.of_nat n = k ->
  slice_len s (((Z.of_nat s - k) / 2)%Z, ((Z.of_nat s - k) / 2 + k)%Z) = n.
Proof.
  intros Hk Hn. unfold slice_len, slice_bound. cbn [fst snd].
  set (st := ((Z.of_nat s - k) / 2)%Z).
  assert (Hst : (0 <= st /\ st <= Z.of_nat s - k)%Z).
  { unfold st. split; [apply Z.div_pos; lia |].
    apply Z.div_le_upper_bound; lia. }
  assert (E1 : (st + k <? 0)%Z = false) by (apply Z.ltb_ge; lia).
  assert (E2 : (st <? 0)%Z = false) by (apply Z.ltb_ge; lia).
  rewrite E1, E2. lia.
Qed.

Lemma centered_slice_shape (newshape : list nat) : forall (s : list nat) (ks : list Z),
  Forall2 le newshape s ->
  ks = map Z.of_nat newshape ->
  slice_shape s
    (map (fun cn => let startind := ((fst cn - snd cn) / 2)%Z in
                    (startind, (startind + snd cn)%Z))
         (combine (map Z.of_nat s) ks))
  = newshape.
Proof.
  induction newshape as [| n ns IH]; intros s ks H ->; inversion H; subst.
  - reflexivity.
  - cbn [map combine slice_shape fst snd]. f_equal.
    + apply centred_slice_len; [lia | reflexivity].
    + now apply IH.
Qed.

Lemma centered_ok (arr : ndarray) (newshape : list nat) (ks : list Z) :
  Forall2 le newshape (shape arr) ->
  ks = map Z.of_nat newshape ->
  exists r, _centered arr ks = Ok r /\ shape r = newshape.
Proof.
  intros H Hks. unfold _centered, getitem.
  assert (Hlen : length newshape = length (shape arr))
    by exact (Forall2_length H).
  cbv zeta.
  match goal with
  | |- context [(ndim arr <? ?n)%nat] =>
      assert (E : (ndim arr <? n)%nat = false)
  end.
  { apply Nat.ltb_ge. rewrite length_map, length_combine, Hks, !length_map.
    unfold ndim. lia. }
  rewrite E. eexists. split; [reflexivity |].
  cbn [shape]. now apply centered_slice_shape.
Qed.

Lemma max_fits_left (s1 : list nat) : forall s2,
  length s1 = length s2 -> Forall2 le s1 (map2 Nat.max s1 s2).
Proof.
  induction s1 as [| a s1 IH]; intros [| b s2] H; try discriminate H;
    cbn [map2]; constructor; [lia | apply IH; now injection H].
Qed.

Lemma max_of_larger (s1 : list nat) : forall s2,
  Forall2 le s2 s1 -> map2 Nat.max s1 s2 = s1.
Proof.
  induction s1 as [| a s1 IH]; intros s2 H; inversion H; subst;
    [reflexivity |].
  cbn [map2]. f_equal; [lia | now apply IH].
Qed.

Lemma map2_max_comm (s1 : list nat) : forall s2,
  map2 Nat.max s1 s2 = map2 Nat.max s2 s1.
Proof.
  induction s1 as [| a s1 IH]; intros [| b s2]; try reflexivity.
  cbn [map2]. f_equal; [apply Nat.max_comm | apply IH].
Qed.

Lemma valid_shape_fits (s1 : list nat) : forall s2,
  Forall2 le s2 s1 -> Forall (le 1) s2 ->
  Forall2 le (valid_shape s1 s2) s1 /\
  map2 (fun a b => (Z.of_nat a - Z.of_nat b + 1)%Z) s1 s2
  = map Z.of_nat (valid_shape s1 s2).
Proof.
  induction s1 as [| a s1 IH]; intros s2 H Hpos;
    inversion H as [| b ? s2' ? Hba Hrest]; subst.
  - split; [constructor | reflexivity].
  - inversion Hpos as [| ? ? Hb Hpos']; subst.
    destruct (IH s2' Hrest Hpos') as [IH1 IH2].
    unfold valid_shape in *. cbn [map2 map].
    split; [constructor; [lia | exact IH1] |].
    f_equal; [lia | exact IH2].
Qed.

Lemma positive_extents (s : list nat) :
  prod_shape s <> 0%nat -> Forall (le 1) s.
Proof.
  induction s as [| n s IH]; [constructor |].
  cbn [prod_shape fold_right]. fold (prod_shape s). intro H.
  constructor; [nia | apply IH; nia].
Qed.

Lemma fits_forallb (s1 : list nat) : forall s2,
  Forall2 le s2 s1 ->
  forallb (fun p => (snd p <=? fst p)%nat) (combine s1 s2) = true.
Proof.
  induction s1 as [| a s1 IH]; intros s2 H; inversion H; subst;
    [reflexivity |].
  cbn [combine forallb fst snd]. apply andb_true_iff.
  split; [now apply Nat.leb_le | now apply IH].
Qed.

Lemma forallb_fits (s1 : list nat) : forall s2,
  length s1 = length s2 ->
  forallb (fun p => (snd p <=? fst p)%nat) (combine s1 s2) = true ->
  Forall2 le s2 s1.
Proof.
  induction s1 as [| a s1 IH]; intros [| b s2] H; try discriminate H;
    [constructor |].
  cbn [combine forallb fst snd]. intro E. apply andb_true_iff in E as [E1 E2].
  constructor; [now apply Nat.leb_le | apply IH; [now injection H | exact E2]].
Qed.

Lemma forallb_swap (s1 : list nat) : forall s2,
  forallb (fun p => (fst p <=? snd p)%nat) (combine s1 s2)
  = forallb (fun p => (snd p <=? fst p)%nat) (combine s2 s1).
Proof.
  induction s1 as [| a s1 IH]; intros [| b s2]; try reflexivity.
  cbn [combine forallb fst snd]. now rewrite IH.
Qed.

End CentredSlices.

Section Modes.

Variables (freq : Type)
          (rfftn : ndarray -> res freq)
          (irfftn : freq -> list nat -> res ndarray)
          (fftn : ndarray -> list nat -> res freq)
          (ifftn_real : freq -> res ndarray)
          (fmul : freq -> freq -> res freq)
          (fwin : freq -> ndarray -> res freq)
          (rfft_free : bool).
Variable win_func : window_fun.

Let conv (in1 in2 : ndarray) (mode : String.string) :=
  fftconvolve freq rfftn irfftn fftn ifftn_real fmul fwin rfft_free
              in1 in2 mode win_func.

(** What stands before the transforms for operands of one rank that are
    not both scalars and not empty. *)
Ltac enter_convolution Hnd Hpos Hsz1 Hsz2 :=
  unfold conv, fftconvolve;
  rewrite (proj2 (Nat.eqb_neq _ _) Hpos); cbn [andb];
  rewrite (proj2 (Nat.eqb_eq _ _) Hnd); cbn [negb];
  rewrite (proj2 (Nat.eqb_neq _ _) Hsz1), (proj2 (Nat.eqb_neq _ _) Hsz2);
  cbn [orb].

(** X14: The mode is looked at after the work is done: where ["full"] returns
    an array, a mode that is none of ["full"], ["same"] and ["valid"]
    raises [ValueError]. *)
Theorem unknown_mode_raises (in1 in2 : ndarray) (mode : String.string)
    (ret : ndarray) :
  ~ known_mode mode ->
  ndim in1 <> 0%nat ->
  size in1 <> 0%nat -> size in2 <> 0%nat ->
  conv in1 in2 "full"%string = Ok ret ->
  conv in1 in2 mode = Raise ValueError.
Proof.
  intros Hmode Hpos Hsz1 Hsz2.
  assert (Hfull : String.eqb mode "full"%string = false).
  { apply String.eqb_neq. intro E. apply Hmode. now left. }
  assert (Hsame : String.eqb mode "same"%string = false).
  { apply String.eqb_neq. intro E. apply Hmode. right. now left. }
  assert (Hvalid : String.eqb mode "valid"%string = false).
  { apply String.eqb_neq. intro E. apply Hmode. right. now right. }
  destruct (Nat.eq_dec (ndim in1) (ndim in2)) as [Hnd | Hnd].
  - enter_convolution Hnd Hpos Hsz1 Hsz2.
    unfold _inputs_swap_needed. rewrite Hvalid, Hfull, Hsame.
    cbn [String.eqb Ascii.eqb Bool.eqb bind].
    match goal with
    | |- bind ?m _ = _ -> _ => destruct m as [r |]; cbn [bind]
    end; [reflexivity | discriminate].
  - unfold conv, fftconvolve.
    rewrite (proj2 (Nat.eqb_neq _ _) Hpos). cbn [andb].
    rewrite (proj2 (Nat.eqb_neq _ _) Hnd). cbn [negb]. discriminate.
Qed.

(** X15: Mode ["same"] cuts the centre of the ["full"] result to the shape of
    the first operand: where ["full"] returns an array of the shape
    [max(s1, s2)], ["same"] returns one of the shape [s1]. *)
Theorem same_mode_shape (in1 in2 ret : ndarray) :
  ndim in1 <> 0%nat ->
  size in1 <> 0%nat -> size in2 <> 0%nat ->
  conv in1 in2 "full"%string = Ok ret ->
  shape ret = map2 Nat.max (shape in1) (shape in2) ->
  exists r, conv in1 in2 "same"%string = Ok r /\ shape r = shape in1.
Proof.
  intros Hpos Hsz1 Hsz2.
  destruct (Nat.eq_dec (ndim in1) (ndim in2)) as [Hnd | Hnd].
  - enter_convolution Hnd Hpos Hsz1 Hsz2.
    unfold _inputs_swap_needed.
    cbn [String.eqb Ascii.eqb Bool.eqb bind].
    match goal with
    | |- bind ?m _ = _ -> _ => destruct m as [r |]; cbn [bind]
    end; [| discriminate].
    intros H Hshape. injection H as ->.
    apply centered_ok; [| reflexivity].
    rewrite Hshape. apply max_fits_left. exact Hnd.
  - unfold conv, fftconvolve.
    rewrite (proj2 (Nat.eqb_neq _ _) Hpos). cbn [andb].
    rewrite (proj2 (Nat.eqb_neq _ _) Hnd). cbn [negb]. discriminate.
Qed.

(** X16: Mode ["valid"] with the first operand at least as large as the second
    along every axis: where ["full"] returns an array of the shape
    [max(s1, s2)], ["valid"] returns one of the shape [s1 - s2 + 1]. *)
Theorem valid_mode_shape (in1 in2 ret : ndarray) :
  fits_in (shape in2) (shape in1) ->
  ndim in1 <> 0%nat ->
  size in1 <> 0%nat -> size in2 <> 0%nat ->
  conv in1 in2 "full"%string = Ok ret ->
  shape ret = map2 Nat.max (shape in1) (shape in2) ->
  exists r, conv in1 in2 "valid"%string = Ok r /\
            shape r = valid_shape (shape in1) (shape in2).
Proof.
  intros Hfit Hpos Hsz1 Hsz2.
  assert (Hnd : ndim in1 = ndim in2).
  { unfold ndim. symmetry. exact (Forall2_length Hfit). }
  enter_convolution Hnd Hpos Hsz1 Hsz2.
  unfold _inputs_swap_needed.
  cbn [String.eqb Ascii.eqb Bool.eqb].
  rewrite (fits_forallb _ _ Hfit). cbn [orb negb bind].
  match goal with
  | |- bind ?m _ = _ -> _ => destruct m as [r |]; cbn [bind]
  end; [| discriminate].
  intros H Hshape. injection H as ->.
  destruct (valid_shape_fits (shape in1) (shape in2) Hfit
              (positive_extents _ Hsz2)) as [Hle Hks].
  apply centered_ok; [| exact Hks].
  rewrite Hshape, (max_of_larger _ _ Hfit). exact Hle.
Qed.

(** X17: Mode ["valid"] needs one operand at least as large as the other along
    every axis: otherwise it raises [ValueError], whatever the transforms
    do. *)
Theorem valid_mode_incomparable_raises (in1 in2 : ndarray) :
  ndim in1 = ndim in2 ->
  size in1 <> 0%nat -> size in2 <> 0%nat ->
  ~ fits_in (shape in2) (shape in1) ->
  ~ fits_in (shape in1) (shape in2) ->
  conv in1 in2 "valid"%string = Raise ValueError.
Proof.
  intros Hnd Hsz1 Hsz2 Hn1 Hn2.
  assert (Hpos : ndim in1 <> 0%nat).
  { intro E. apply Hn1. unfold ndim in Hnd, E. rewrite E in Hnd.
    destruct (shape in1); [| discriminate E].
    destruct (shape in2); [constructor | discriminate Hnd]. }
  enter_convolution Hnd Hpos Hsz1 Hsz2.
  unfold _inputs_swap_needed.
  cbn [String.eqb Ascii.eqb Bool.eqb].
  destruct (forallb (fun p => (snd p <=? fst p)%nat)
                    (combine (shape in1) (shape in2))) eqn:E1.
  { exfalso. apply Hn1. now apply forallb_fits. }
  rewrite forallb_swap.
  destruct (forallb (fun p => (snd p <=? fst p)%nat)
                    (combine (shape in2) (shape in1))) eqn:E2.
  { exfalso. apply Hn2. apply forallb_fits; [now symmetry | exact E2]. }
  reflexivity.
Qed.

(** X18: In mode ["valid"] the larger operand is made the first one: with a
    first operand that fits in the second and is smaller along some axis,
    the call is the one with the operands exchanged. *)
Theorem valid_mode_swaps_operands (in1 in2 : ndarray) :
  fits_in (shape in1) (shape in2) ->
  ~ fits_in (shape in2) (shape in1) ->
  conv in1 in2 "valid"%string = conv in2 in1 "valid"%string.
Proof.
  intros Hfit Hnot.
  assert (Hnd : ndim in1 = ndim in2).
  { unfold ndim. exact (Forall2_length Hfit). }
  unfold conv, fftconvolve.
  rewrite <- Hnd, Nat.eqb_refl, andb_diag. cbn [negb].
  destruct (ndim in1 =? 0)%nat eqn:E0.
  { exfalso. apply Hnot. apply Nat.eqb_eq in E0.
    unfold ndim in Hnd, E0. rewrite E0 in Hnd.
    destruct (shape in1); [| discriminate E0].
    destruct (shape in2); [constructor | discriminate Hnd]. }
  rewrite (orb_comm (size in2 =? 0)%nat).
  destruct ((size in1 =? 0) || (size in2 =? 0))%nat; [reflexivity |].
  unfold _inputs_swap_needed.
  cbn [String.eqb Ascii.eqb Bool.eqb].
  rewrite (forallb_swap (shape in1) (shape in2)).
  rewrite (forallb_swap (shape in2) (shape in1)).
  rewrite (fits_forallb _ _ Hfit).
  destruct (forallb (fun p => (snd p <=? fst p)%nat)
                    (combine (shape in1) (shape in2))) eqn:E1.
  { exfalso. apply Hnot. apply forallb_fits; [exact Hnd | exact E1]. }
  cbn [orb negb bind].
  rewrite (map2_max_comm (shape in2) (shape in1)). reflexivity.
Qed.

End Modes.

Lemma unknown_mode_raises_witness :
  ~ known_mode "circular"%string /\
  ndim (Small2.vec [1; 2]%Z) <> 0%nat /\
  size (Small2.vec [1; 2]%Z) <> 0%nat /\
  size (Small2.vec [3; 4]%Z) <> 0%nat /\
  Small2.fftconvolve (Small2.vec [1; 2]%Z) (Small2.vec [3; 4]%Z)
                     "full"%string np_ones
  = Ok (Small2.vec [10; 11]%Z) /\
  Small2.fftconvolve (Small2.vec [1; 2]%Z) (Small2.vec [3; 4]%Z)
                     "circular"%string np_ones
  = Raise ValueError.
Proof.
  assert (H1 : ~ known_mode "circular"%string).
  { intros [H | [H | H]]; discriminate H. }
  assert (H2 : ndim (Small2.vec [1; 2]%Z) <> 0%nat) by discriminate.
  assert (H3 : size (Small2.vec [1; 2]%Z) <> 0%nat) by discriminate.
  assert (H4 : size (Small2.vec [3; 4]%Z) <> 0%nat) by discriminate.
  assert (H5 : Small2.fftconvolve (Small2.vec [1; 2]%Z) (Small2.vec [3; 4]%Z)
                                  "full"%string np_ones
               = Ok (Small2.vec [10; 11]%Z)) by same_array.
  repeat (split; [assumption |]).
  exact (unknown_mode_raises
           Small2.freq Small2.rfftn Small2.irfftn Small2.fftn Small2.ifftn_real
           Small2.fmul Small2.fwin true np_ones
           (Small2.vec [1; 2]%Z) (Small2.vec [3; 4]%Z) "circular"%string
           (Small2.vec [10; 11]%Z) H1 H2 H3 H4 H5).
Defined.

Lemma same_mode_shape_witness :
  ndim (Small2.vec [1; 2]%Z) <> 0%nat /\
  size (Small2.vec [1; 2]%Z) <> 0%nat /\
  size (Small2.vec [3; 4]%Z) <> 0%nat /\
  Small2.fftconvolve (Small2.vec [1; 2]%Z) (Small2.vec [3; 4]%Z)
                     "full"%string np_ones
  = Ok (Small2.vec [10; 11]%Z) /\
  shape (Small2.vec [10; 11]%Z)
  = map2 Nat.max (shape (Small2.vec [1; 2]%Z)) (shape (Small2.vec [3; 4]%Z)) /\
  exists r,
    Small2.fftconvolve (Small2.vec [1; 2]%Z) (Small2.vec [3; 4]%Z)
                       "same"%string np_ones = Ok r /\
    shape r = shape (Small2.vec [1; 2]%Z).
Proof.
  assert (H2 : ndim (Small2.vec [1; 2]%Z) <> 0%nat) by discriminate.
  assert (H3 : size (Small2.vec [1; 2]%Z) <> 0%nat) by discriminate.
  assert (H4 : size (Small2.vec [3; 4]%Z) <> 0%nat) by discriminate.
  assert (H5 : Small2.fftconvolve (Small2.vec [1; 2]%Z) (Small2.vec [3; 4]%Z)
                                  "full"%string np_ones
               = Ok (Small2.vec [10; 11]%Z)) by same_array.
  assert (H6 : shape (Small2.vec [10; 11]%Z)
               = map2 Nat.max (shape (Small2.vec [1; 2]%Z))
                              (shape (Small2.vec [3; 4]%Z))) by reflexivity.
  repeat (split; [assumption |]).
  exact (same_mode_shape
           Small2.freq Small2.rfftn Small2.irfftn Small2.fftn Small2.ifftn_real
           Small2.fmul Small2.fwin true np_ones
           (Small2.vec [1; 2]%Z) (Small2.vec [3; 4]%Z) (Small2.vec [10; 11]%Z)
           H2 H3 H4 H5 H6).
Defined.

Lemma valid_mode_shape_witness :
  fits_in (shape (Small2.vec [5]%Z)) (shape (Small2.vec [3; 4]%Z)) /\
  ndim (Small2.vec [3; 4]%Z) <> 0%nat /\
  size (Small2.vec [3; 4]%Z) <> 0%nat /\
  size (Small2.vec [5]%Z) <> 0%nat /\
  Small2.fftconvolve (Small2.vec [3; 4]%Z) (Small2.vec [5]%Z)
                     "full"%string np_ones
  = Ok (Small2.vec [15; 20]%Z) /\
  shape (Small2.vec [15; 20]%Z)
  = map2 Nat.max (shape (Small2.vec [3; 4]%Z)) (shape (Small2.vec [5]%Z)) /\
  exists r,
    Small2.fftconvolve (Small2.vec [3; 4]%Z) (Small2.vec [5]%Z)
                       "valid"%string np_ones = Ok r /\
    shape r = valid_shape (shape (Small2.vec [3; 4]%Z)) (shape (Small2.vec [5]%Z)).
Proof.
  assert (H1 : fits_in (shape (Small2.vec [5]%Z)) (shape (Small2.vec [3; 4]%Z))).
  { unfold fits_in. cbn. constructor; [lia | constructor]. }
  assert (H2 : ndim (Small2.vec [3; 4]%Z) <> 0%nat) by discriminate.
  assert (H3 : size (Small2.vec [3; 4]%Z) <> 0%nat) by discriminate.
  assert (H4 : size (Small2.vec [5]%Z) <> 0%nat) by discriminate.
  assert (H5 : Small2.fftconvolve (Small2.vec [3; 4]%Z) (Small2.vec [5]%Z)
                                  "full"%string np_ones
               = Ok (Small2.vec [15; 20]%Z)) by same_array.
  assert (H6 : shape (Small2.vec [15; 20]%Z)
               = map2 Nat.max (shape (Small2.vec [3; 4]%Z))
                              (shape (Small2.vec [5]%Z))) by reflexivity.
  repeat (split; [assumption |]).
  exact (valid_mode_shape
           Small2.freq Small2.rfftn Small2.irfftn Small2.fftn Small2.ifftn_real
           Small2.fmul Small2.fwin true np_ones
           (Small2.vec [3; 4]%Z) (Small2.vec [5]%Z) (Small2.vec [15; 20]%Z)
           H1 H2 H3 H4 H5 H6).
Defined.

Lemma valid_mode_incomparable_raises_witness :
  ndim (mk_array [1%nat; 2%nat] [of_Z 1; of_Z 2])
  = ndim (mk_array [2%nat; 1%nat] [of_Z 3; of_Z 4]) /\
  size (mk_array [1%nat; 2%nat] [of_Z 1; of_Z 2]) <> 0%nat /\
  size (mk_array [2%nat; 1%nat] [of_Z 3; of_Z 4]) <> 0%nat /\
  ~ fits_in (shape (mk_array [2%nat; 1%nat] [of_Z 3; of_Z 4]))
            (shape (mk_array [1%nat; 2%nat] [of_Z 1; of_Z 2])) /\
  ~ fits_in (shape (mk_array [1%nat; 2%nat] [of_Z 1; of_Z 2]))
            (shape (mk_array [2%nat; 1%nat] [of_Z 3; of_Z 4])) /\
  Small2.fftconvolve (mk_array [1%nat; 2%nat] [of_Z 1; of_Z 2])
                     (mk_array [2%nat; 1%nat] [of_Z 3; of_Z 4])
                     "valid"%string np_ones
  = Raise ValueError.
Proof.
  assert (H1 : ndim (mk_array [1%nat; 2%nat] [of_Z 1; of_Z 2])
               = ndim (mk_array [2%nat; 1%nat] [of_Z 3; of_Z 4])) by reflexivity.
  assert (H2 : size (mk_array [1%nat; 2%nat] [of_Z 1; of_Z 2]) <> 0%nat)
    by discriminate.
  assert (H3 : size (mk_array [2%nat; 1%nat] [of_Z 3; of_Z 4]) <> 0%nat)
    by discriminate.
  assert (H4 : ~ fits_in (shape (mk_array [2%nat; 1%nat] [of_Z 3; of_Z 4]))
                         (shape (mk_array [1%nat; 2%nat] [of_Z 1; of_Z 2]))).
  { unfold fits_in. cbn [shape]. intro H. inversion H. lia. }
  assert (H5 : ~ fits_in (shape (mk_array [1%nat; 2%nat] [of_Z 1; of_Z 2]))
                         (shape (mk_array [2%nat; 1%nat] [of_Z 3; of_Z 4]))).
  { unfold fits_in. cbn [shape]. intro H.
    inversion H as [| ? ? ? ? _ H']. inversion H'. lia. }
  repeat (split; [assumption |]).
  exact (valid_mode_incomparable_raises
           Small2.freq Small2.rfftn Small2.irfftn Small2.fftn Small2.ifftn_real
           Small2.fmul Small2.fwin true np_ones
           (mk_array [1%nat; 2%nat] [of_Z 1; of_Z 2])
           (mk_array [2%nat; 1%nat] [of_Z 3; of_Z 4]) H1 H2 H3 H4 H5).
Defined.

Lemma valid_mode_swaps_operands_witness :
  fits_in (shape (Small2.vec [5]%Z)) (shape (Small2.vec [3; 4]%Z)) /\
  ~ fits_in (shape (Small2.vec [3; 4]%Z)) (shape (Small2.vec [5]%Z)) /\
  Small2.fftconvolve (Small2.vec [5]%Z) (Small2.vec [3; 4]%Z)
                     "valid"%string np_ones
  = Small2.fftconvolve (Small2.vec [3; 4]%Z) (Small2.vec [5]%Z)
                       "valid"%string np_ones.
Proof.
  assert (H1 : fits_in (shape (Small2.vec [5]%Z)) (shape (Small2.vec [3; 4]%Z))).
  { unfold fits_in. cbn. constructor; [lia | constructor]. }
  assert (H2 : ~ fits_in (shape (Small2.vec [3; 4]%Z)) (shape (Small2.vec [5]%Z))).
  { unfold fits_in. cbn. intro H. inversion H. lia. }
  repeat (split; [assumption |]).
  exact (valid_mode_swaps_operands
           Small2.freq Small2.rfftn Small2.irfftn Small2.fftn Small2.ifftn_real
           Small2.fmul Small2.fwin true np_ones
           (Small2.vec [5]%Z) (Small2.vec [3; 4]%Z) H1 H2).
Defined.

(** ** [scale_uint16] and [scale] on arrays with [nan]s *)

Section ScaleMore.

Local Open Scope Qc_scope.

Lemma py_int_bounds (q : Qc) (n : Z) :
  0 <= q -> q <= Q2Qc (inject_Z n) -> (0 <= py_int q <= n)%Z.
Proof.
  intros H0 Hn. unfold py_int.
  unfold Qcle in H0, Hn. cbn [this Q2Qc] in Hn. rewrite Qred_correct in Hn.
  unfold Qle in H0, Hn. cbn in H0, Hn.
  assert (Hnum : (0 <= Qnum q)%Z) by lia.
  rewrite Z.quot_div_nonneg by lia.
  split; [apply Z.div_pos; lia |].
  apply Z.div_le_upper_bound; lia.
Qed.

Lemma py_int_of_Z (n : Z) : py_int (Q2Qc (inject_Z n)) = n.
Proof.
  unfold py_int. cbn [this Q2Qc].
  assert (E : Qred (inject_Z n) = inject_Z n).
  { apply Qred_identity. cbn. apply Z.gcd_1_r. }
  rewrite E. cbn. apply Z.quot_1_r.
Qed.

Lemma to_uint16_bounds (r : Qc) :
  0 <= r <= 1 -> (0 <= to_uint16 r <= 65535)%Z.
Proof.
  intros [H0 H1]. apply py_int_bounds.
  - replace 0 with (0 * Q2Qc (inject_Z 65535)) by ring.
    apply Qcmult_le_compat_r; [exact H0 | discriminate].
  - replace (Q2Qc (inject_Z 65535)) with (1 * Q2Qc (inject_Z 65535)) at 2 by ring.
    apply Qcmult_le_compat_r; [exact H1 | discriminate].
Qed.

Lemma astype_uint16_scaled (special : fl) (r : Qc) :
  0 <= r <= 1 ->
  astype_uint16 special (Fin r * of_Z (2 ^ 16 - 1))%fl = of_Z (to_uint16 r).
Proof.
  intro Hr. pose proof (to_uint16_bounds r Hr) as Hb.
  change (astype_uint16 special (Fin r * of_Z (2 ^ 16 - 1))%fl)
    with (of_Z (to_uint16 r mod 65536)).
  f_equal. apply Z.mod_small. lia.
Qed.

Lemma nanmin2_skip : forall (l : list fl) (acc : fl),
  fold_left nanmin2 l acc = fold_left nanmin2 (filter not_nan l) acc.
Proof.
  induction l as [| x l IH]; intro acc; [reflexivity |].
  cbn [fold_left filter]. destruct x as [q | | |]; cbn [not_nan isnan negb fold_left];
    try apply IH.
  replace (nanmin2 acc NaN) with acc by (now destruct acc). apply IH.
Qed.

Lemma nanmax2_skip : forall (l : list fl) (acc : fl),
  fold_left nanmax2 l acc = fold_left nanmax2 (filter not_nan l) acc.
Proof.
  induction l as [| x l IH]; intro acc; [reflexivity |].
  cbn [fold_left filter]. destruct x as [q | | |]; cbn [not_nan isnan negb fold_left];
    try apply IH.
  replace (nanmax2 acc NaN) with acc by (now destruct acc). apply IH.
Qed.

Lemma finite_entries (l : list fl) :
  finite_or_nan l -> exists qs, filter not_nan l = map Fin qs.
Proof.
  induction 1 as [| x l Hx Hl (qs & IH)]; [now exists [] |].
  destruct Hx as [Hx | ->].
  - destruct x as [q | | |]; try discriminate Hx.
    exists (q :: qs). cbn [filter not_nan isnan negb map]. now rewrite IH.
  - exists qs. exact IH.
Qed.

End ScaleMore.

(** X19: On an array of finite floats that are not all equal and whose range
    [dmax - dmin] does not overflow, [scale_uint16] returns whole numbers
    between 0 and 65535, both reached, in the shape of its argument; what
    the conversion does to values that are not finite plays no part. *)
Theorem scale_uint16_range (special : fl) (a : ndarray) :
  all_finite a = true ->
  nanmin (data a) <> nanmax (data a) ->
  range_fits (data a) ->
  exists ks : list Z,
    scale_uint16 special a = Ok (mk_array (shape a) (map of_Z ks)) /\
    length ks = length (data a) /\
    Forall (fun k => 0 <= k <= 65535)%Z ks /\
    In 65535%Z ks /\ In 0%Z ks.
Proof.
  intros Hfin Hrange Hfit.
  destruct (scale_finite_form a Hfin Hrange Hfit)
    as (out & Hs & Hlen & Hin01 & H1 & H0).
  exists (map to_uint16 out).
  split.
  { unfold scale_uint16. rewrite Hs. cbn [bind]. unfold amap.
    cbn [shape data]. do 2 f_equal. rewrite !map_map.
    apply map_ext_in. intros r Hr.
    apply astype_uint16_scaled. now apply Hin01. }
  split; [now rewrite length_map |].
  split.
  { apply Forall_forall. intros k Hk. apply in_map_iff in Hk as (r & <- & Hr).
    apply to_uint16_bounds. now apply Hin01. }
  split; apply in_map_iff.
  - exists 1%Qc. split; [| exact H1].
    unfold to_uint16. rewrite Qcmult_1_l. apply py_int_of_Z.
  - exists 0%Qc. split; [| exact H0]. reflexivity.
Qed.

Lemma scale_uint16_range_witness :
  all_finite (Small2.vec [1; 2; 4]%Z) = true /\
  nanmin (data (Small2.vec [1; 2; 4]%Z)) <> nanmax (data (Small2.vec [1; 2; 4]%Z)) /\
  range_fits (data (Small2.vec [1; 2; 4]%Z)) /\
  exists ks : list Z,
    scale_uint16 NaN (Small2.vec [1; 2; 4]%Z)
    = Ok (mk_array (shape (Small2.vec [1; 2; 4]%Z)) (map of_Z ks)) /\
    length ks = length (data (Small2.vec [1; 2; 4]%Z)) /\
    Forall (fun k => 0 <= k <= 65535)%Z ks /\
    In 65535%Z ks /\ In 0%Z ks.
Proof.
  assert (H1 : all_finite (Small2.vec [1; 2; 4]%Z) = true) by reflexivity.
  assert (H2 : nanmin (data (Small2.vec [1; 2; 4]%Z))
               <> nanmax (data (Small2.vec [1; 2; 4]%Z))).
  { intro E. apply (f_equal (fun x => fl_same x (of_Z 1))) in E.
    vm_compute in E. discriminate E. }
  assert (H3 : range_fits (data (Small2.vec [1; 2; 4]%Z)))
    by (vm_compute; reflexivity).
  split; [exact H1 | split; [exact H2 | split; [exact H3 |]]].
  exact (scale_uint16_range NaN (Small2.vec [1; 2; 4]%Z) H1 H2 H3).
Defined.

(** X20: [scale] leaves the [nan]s out of the range: on an array of finite
    floats and [nan]s whose finite values are not all equal and whose
    range [dmax - dmin] does not overflow, every [nan] stays a [nan] and
    every finite value becomes one between 0 and 1, in the same place. *)
Theorem scale_skips_nan (a : ndarray) :
  finite_or_nan (data a) ->
  nanmin (data a) <> nanmax (data a) ->
  range_fits (data a) ->
  exists b,
    scale a None = Ok b /\
    shape b = shape a /\
    Forall2 scaled_value (data a) (data b).
Proof.
  intros Hmix Hrange Hfit.
  destruct (finite_entries _ Hmix) as [qs Hqs].
  unfold nanmin, nanmax in Hrange.
  rewrite nanmin2_skip, nanmax2_skip, Hqs in Hrange.
  destruct qs as [| q qs]; [now contradiction Hrange |].
  destruct (nan_extremes q qs) as (m & M & Hm & HM & Hall & Hmin & HMin).
  unfold nanmin, nanmax in Hm, HM.
  assert (HmM : m <> M) by (intros ->; apply Hrange; congruence).
  assert (Hdmin : nanmin (data a) = Fin m).
  { unfold nanmin. now rewrite nanmin2_skip, Hqs. }
  assert (Hdmax : nanmax (data a) = Fin M).
  { unfold nanmax. now rewrite nanmax2_skip, Hqs. }
  pose proof (range_fits_Fin (data a) m M Hdmin Hdmax Hfit) as Hb.
  assert (Hne : data a <> []).
  { intro E. rewrite E in Hqs. discriminate Hqs. }
  eexists. split.
  { unfold scale. destruct (data a) as [| x l] eqn:E;
      [now contradiction Hne |].
    rewrite <- E. reflexivity. }
  split; [reflexivity |].
  unfold amap. cbn [data]. rewrite Hdmin, Hdmax.
  assert (Hmem : forall v, In (Fin v) (data a) -> (m <= v <= M)%Qc).
  { intros v Hv.
    assert (Hv' : In (Fin v) (filter not_nan (data a)))
      by (apply filter_In; split; [exact Hv | reflexivity]).
    rewrite Hqs in Hv'. apply in_map_iff in Hv' as (w & Hw & Hin).
    injection Hw as ->. rewrite Forall_forall in Hall. now apply Hall. }
  clear Hqs Hrange Hdmin Hdmax Hne Hfit.
  induction (data a) as [| x l IH]; [constructor |].
  cbn [map]. inversion Hmix as [| ? ? Hx Hl]; subst.
  constructor.
  - destruct Hx as [Hx | ->].
    + destruct x as [v | | |]; try discriminate Hx.
      right. exists v, (unit_scaled m M v).
      destruct (Hmem v (or_introl eq_refl)) as [H1 H2].
      assert (Hlt : (m < M)%Qc).
      { destruct (Qclt_le_dec m M) as [H | H]; [exact H |].
        exfalso. apply HmM. apply Qcle_antisym; [| exact H].
        now apply Qcle_trans with (y := v). }
      split; [reflexivity |].
      split; [now apply scale_elem |].
      now apply QcFacts.ratio_bounds.
    + left. split; [reflexivity |].
      apply fl_same_eq. unfold sub64, div64, mul64, add64. reflexivity.
  - apply IH; [exact Hl |]. intros v Hv. apply Hmem. now right.
Qed.

Lemma scale_skips_nan_witness :
  finite_or_nan (data (mk_array [3%nat] [of_Z 1; NaN; of_Z 3])) /\
  nanmin (data (mk_array [3%nat] [of_Z 1; NaN; of_Z 3]))
  <> nanmax (data (mk_array [3%nat] [of_Z 1; NaN; of_Z 3])) /\
  range_fits (data (mk_array [3%nat] [of_Z 1; NaN; of_Z 3])) /\
  exists b,
    scale (mk_array [3%nat] [of_Z 1; NaN; of_Z 3]) None = Ok b /\
    shape b = shape (mk_array [3%nat] [of_Z 1; NaN; of_Z 3]) /\
    Forall2 scaled_value (data (mk_array [3%nat] [of_Z 1; NaN; of_Z 3])) (data b).
Proof.
  assert (H1 : finite_or_nan (data (mk_array [3%nat] [of_Z 1; NaN; of_Z 3]))).
  { unfold finite_or_nan. cbn [data].
    constructor; [now left |].
    constructor; [now right |].
    constructor; [now left | constructor]. }
  assert (H2 : nanmin (data (mk_array [3%nat] [of_Z 1; NaN; of_Z 3]))
               <> nanmax (data (mk_array [3%nat] [of_Z 1; NaN; of_Z 3]))).
  { intro E. apply (f_equal (fun x => fl_same x (of_Z 1))) in E.
    vm_compute in E. discriminate E. }
  assert (H3 : range_fits (data (mk_array [3%nat] [of_Z 1; NaN; of_Z 3])))
    by (vm_compute; reflexivity).
  split; [exact H1 | split; [exact H2 | split; [exact H3 |]]].
  exact (scale_skips_nan (mk_array [3%nat] [of_Z 1; NaN; of_Z 3]) H1 H2 H3).
Defined.

(** ** [radial_profile] of a constant image *)

Section ProfileFacts.

Local Open Scope Qc_scope.

(** With a positive [binsize] every pixel gets a bin [np.bincount]
    accepts. *)
Lemma radial_bins_ok (rows cols : nat) (y0 x0 b : Qc) :
  0 < b ->
  exists r, mapM_res bin_index (radial_bins rows cols y0 x0 b) = Ok r /\
            length r = (rows * cols)%nat.
Proof.
  intro Hb.
  assert (Hgt : (b ?= 0) = Gt) by now apply Qcgt_alt.
  destruct (mapM_res_ok bin_index (radial_bins rows cols y0 x0 b))
    as (r & Hr & Hlen).
  - intros x Hx. unfold radial_bins in Hx.
    apply in_flat_map in Hx as (i & _ & Hx).
    apply in_map_iff in Hx as (j & <- & _).
    unfold radius_bin. rewrite Hgt. cbn [bin_index].
    match goal with |- context [round_sqrt ?q] =>
      pose proof (round_sqrt_nonneg q) as Hnn;
      destruct (Z.ltb_spec (round_sqrt q) 0) as [Hneg | _]
    end; [lia | eexists; reflexivity].
  - exists r. split; [exact Hr | now rewrite Hlen, radial_bins_length].
Qed.

Lemma constant_in_bin (x : fl) (k : nat) (r : list nat) : forall n,
  length r = n ->
  map snd (filter (fun p => (fst p =? k)%nat) (combine r (repeat x n)))
  = repeat x (bin_count r k).
Proof.
  unfold bin_count.
  induction r as [| y r IH]; intros n Hn; [reflexivity |].
  destruct n as [| n]; [discriminate Hn |]. injection Hn as Hn.
  cbn [repeat combine filter fst].
  destruct (y =? k)%nat; cbn [map snd length repeat]; now rewrite IH.
Qed.

Lemma sum_constant (v : Qc) (c : nat) :
  Fl.sum (repeat (Fin v) c) = Fin (v * qc_of_nat c).
Proof.
  replace (repeat (Fin v) c) with (map Fin (repeat v c))
    by (induction c; [reflexivity | cbn; now f_equal]).
  rewrite sum_Fin. f_equal.
  induction c as [| c IH].
  - cbn [repeat qsum]. replace (qc_of_nat 0) with 0 by now apply Qc_is_canon.
    ring.
  - cbn [repeat qsum]. rewrite IH, qc_of_nat_S. ring.
Qed.

(** One bin that holds [c] pixels of the value [v]. *)
Lemma constant_bin (v : Qc) (c : nat) :
  c <> 0%nat ->
  (Fin (v * qc_of_nat c) / fl_of_nat c)%fl = Fin v /\
  (Fin (v * v * qc_of_nat c) / fl_of_nat c - Fin v * Fin v)%fl = zero.
Proof.
  intro H.
  assert (Hne : qc_of_nat c <> 0).
  { intro E. pose proof (qc_of_nat_pos c H) as Hp. rewrite E in Hp.
    discriminate Hp. }
  unfold fl_of_nat, Fl.div, sgn. rewrite (qc_of_nat_pos c H).
  split.
  - f_equal. field. exact Hne.
  - cbn [Fl.sub Fl.mul Fl.neg Fl.add]. unfold zero. f_equal. field. exact Hne.
Qed.

End ProfileFacts.

Section ProfileOfConstant.

Variable np_sqrt : fl -> fl.
Hypothesis sqrt_zero : np_sqrt zero = zero.

(** In exact arithmetic the profile of a constant image is that constant,
    for every positive [binsize]. *)
Lemma profile_of_constant_exact (rows cols : nat)
    (center : option (Qc * Qc)) (binsize v : Qc) :
  (0 < binsize)%Qc ->
  exists r mean std,
    mapM_res bin_index
             (radial_bins rows cols (fst (profile_center rows cols center))
                          (snd (profile_center rows cols center)) binsize)
    = Ok r /\
    radial_profile np_sqrt (np_full rows cols (Fin v)) center binsize
    = Ok (mean, std) /\
    length mean = bincount_len r /\
    length std = bincount_len r /\
    forall k, (k < bincount_len r)%nat -> bin_count r k <> 0%nat ->
      nth k mean NaN = Fin v /\ nth k std NaN = zero.
Proof.
  intro Hb.
  set (c := profile_center rows cols center).
  destruct (radial_bins_ok rows cols (fst c) (snd c) binsize Hb)
    as (r & Hr & Hlen).
  set (C := fun k => fl_of_nat (bin_count r k)).
  set (T := fun k => Fin (v * qc_of_nat (bin_count r k))%Qc).
  set (T2 := fun k => Fin (v * v * qc_of_nat (bin_count r k))%Qc).
  set (len := bincount_len r).
  assert (Htbin : bincount_weighted r (repeat (Fin v) (rows * cols))
                  = map T (seq 0 len)).
  { unfold bincount_weighted. apply map_ext. intro k.
    rewrite constant_in_bin by exact Hlen. apply sum_constant. }
  assert (Htbin2 : bincount_weighted r (repeat (Fin (v * v)%Qc) (rows * cols))
                   = map T2 (seq 0 len)).
  { unfold bincount_weighted. apply map_ext. intro k.
    rewrite constant_in_bin by exact Hlen. apply sum_constant. }
  assert (Hnr : map fl_of_nat (bincount r) = map C (seq 0 len)).
  { unfold bincount. now rewrite map_map. }
  exists r, (map (fun k => (T k / C k)%fl) (seq 0 len)),
    (map (fun k => np_sqrt ((T2 k / C k) - (T k / C k) * (T k / C k))%fl)
         (seq 0 len)).
  split; [exact Hr |].
  split.
  { unfold radial_profile, np_full. cbn [shape data]. fold c.
    rewrite Hr. cbn [bind].
    rewrite map_repeat. cbn [Fl.mul]. rewrite Htbin, Htbin2, Hnr.
    rewrite !zip_with_map, map_map, zip_with_map, map_map. reflexivity. }
  split; [now rewrite length_map, length_seq |].
  split; [now rewrite length_map, length_seq |].
  intros k Hk Hc.
  rewrite !nth_map_seq by exact Hk.
  destruct (constant_bin v (bin_count r k) Hc) as [Hmean Hstd].
  fold (C k) (T k) in Hmean. fold (C k) (T2 k) in Hstd.
  rewrite Hmean. split; [reflexivity |].
  rewrite Hstd. exact sqrt_zero.
Qed.


End ProfileOfConstant.


(** ** [richardson_lucy]: the shape of the estimate *)

Section EstimateShape.

Variables (freq : Type)
          (urfftn : ndarray -> res freq) (uirfftn : freq -> res ndarray)
          (fmul : freq -> freq -> res freq) (fconj : freq -> freq)
          (fwin : ndarray -> freq -> res freq).
Variable image : ndarray.

(** The image is an array numpy can build, and the inverse transform
    returns arrays of the image's shape. *)
Hypothesis image_wf : wf image.
Hypothesis uirfftn_shape :
  forall f a, uirfftn f = Ok a -> shape a = shape image /\ wf a.

Let step := rl_step freq urfftn uirfftn fmul fconj image.
Let loop := rl_loop freq urfftn uirfftn fmul fconj image.
Let rl := richardson_lucy freq urfftn uirfftn fmul fconj fwin.

Lemma like_amap (f : fl -> fl) (a : ndarray) :
  like image a -> like image (amap f a).
Proof.
  intros [Hs Hwf]. split; [exact Hs | now apply amap_wf].
Qed.

Lemma like_amap2 (f : fl -> fl -> fl) (a b c : ndarray) :
  like image a -> like image b -> amap2 f a b = Ok c -> like image c.
Proof.
  intros [Has Hawf] [Hbs Hbwf] H.
  destruct (amap2_same_shape_wf f a b c Hawf Hbwf ltac:(congruence) H)
    as [Hcs Hcwf].
  split; [congruence | exact Hcwf].
Qed.

Lemma like_add_scaled (a c : ndarray) (s : fl) (h : hval) :
  like image a -> hval_like image h -> add_scaled a s h = Ok c ->
  like image c.
Proof.
  intros Ha Hh. destruct h as [| b]; cbn [add_scaled hval_like] in *.
  - intro H. injection H as <-. now apply like_amap.
  - apply like_amap2; [exact Ha | now apply like_amap].
Qed.

Lemma like_lookup (o : option hval) (h : hval) :
  bound_like image o -> lookup o = Ok h -> hval_like image h.
Proof.
  destruct o as [h' |]; cbn [lookup bound_like]; [| discriminate].
  intros Hh H. now injection H as <-.
Qed.

Lemma rl_step_shape (otf : freq) (order : Z) (i : nat) (st st' : rl_state) :
  shape_inv image st ->
  step otf order i st = Ok st' ->
  shape_inv image st' /\ exists u, u_t st' = Some u /\ like image u.
Proof.
  intros ((Hys & Hywf) & Hut & Hutm1 & Hh2).
  unfold step, rl_step.
  destruct (rl_update freq urfftn uirfftn fmul fconj image otf (y_t st))
    as [u |] eqn:Hu; [cbn [bind] | discriminate].
  destruct (rl_update_shape freq urfftn uirfftn fmul fconj image uirfftn_shape
              otf (y_t st) u Hys Hywf Hu) as (Hus & Huwf & _).
  assert (Hul : like image u) by (split; assumption).
  destruct (amap2 Fl.sub u (y_t st)) as [g |]; [cbn [bind] | discriminate].
  destruct (rl_alpha i (Some g) (g_tm1 st)) as [a |];
    [cbn [bind] | discriminate].
  match goal with
  | |- bind ?m _ = _ -> _ => destruct m as [hs |] eqn:Hhs
  end; [cbn [bind] | discriminate].
  assert (Hhs' : bound_like image (fst hs) /\ bound_like image (snd hs)).
  { destruct (negb (Fl.eqb a zero));
      [| injection Hhs as <-; cbn; tauto].
    destruct (0 <? order)%Z;
      [| injection Hhs as <-; cbn [fst snd bound_like hval_like];
         split; [exact I | exact Hh2]].
    destruct (u_t st) as [prev |]; cbn [need bind] in Hhs; [| discriminate Hhs].
    cbn [opt_like] in Hut.
    destruct (amap2 Fl.sub u prev) as [h1 |] eqn:Hh1; cbn [bind] in Hhs;
      [| discriminate Hhs].
    assert (Hh1l : like image h1) by exact (like_amap2 _ _ _ _ Hul Hut Hh1).
    destruct (1 <? order)%Z.
    - destruct (amap2 Fl.sub u (amap (Fl.mul (of_Z 2)) prev)) as [twice |] eqn:Ht;
        cbn [bind] in Hhs; [| discriminate Hhs].
      assert (Htl : like image twice)
        by exact (like_amap2 _ _ _ _ Hul (like_amap _ _ Hut) Ht).
      destruct (u_tm1 st) as [prev2 |]; cbn [need bind] in Hhs;
        [| discriminate Hhs].
      cbn [opt_like] in Hutm1.
      destruct (amap2 Fl.add twice prev2) as [h2 |] eqn:E2; cbn [bind] in Hhs;
        [| discriminate Hhs].
      injection Hhs as <-. cbn [fst snd bound_like hval_like].
      split; [exact Hh1l | exact (like_amap2 _ _ _ _ Htl Hutm1 E2)].
    - injection Hhs as <-. cbn [fst snd bound_like hval_like].
      split; [exact Hh1l | exact I]. }
  destruct Hhs' as [Hfst Hsnd]. clear Hhs.
  destruct (lookup (fst hs)) as [h1 |] eqn:Hl1; [cbn [bind] | discriminate].
  destruct (add_scaled u a h1) as [first |] eqn:Hf; [cbn [bind] | discriminate].
  assert (Hfl : like image first)
    by exact (like_add_scaled _ _ _ _ Hul (like_lookup _ _ Hfst Hl1) Hf).
  destruct (lookup (snd hs)) as [h2 |] eqn:Hl2; [cbn [bind] | discriminate].
  match goal with
  | |- bind ?m _ = _ -> _ => destruct m as [y |] eqn:Hy
  end; [cbn [bind] | discriminate].
  assert (Hyl : like image y)
    by exact (like_add_scaled _ _ _ _ Hfl (like_lookup _ _ Hsnd Hl2) Hy).
  unfold enusure_positive.
  destruct (all_finite y); [cbn [bind] | discriminate].
  destruct (forallb _ _); [| discriminate].
  intro H. injection H as <-.
  unfold shape_inv. cbn [y_t u_t u_tm1 h2_t opt_like].
  split.
  - split; [now apply like_amap | split; [exact Hul | split; assumption]].
  - exists u. split; [reflexivity | exact Hul].
Qed.

Lemma rl_loop_shape (otf : freq) (order : Z) (n : nat) : forall i st st',
  shape_inv image st ->
  loop otf order (S n) i st = Ok st' ->
  exists u, u_t st' = Some u /\ like image u.
Proof.
  induction n as [| n IH]; intros i st st' Hinv; unfold loop in *.
  - cbn [rl_loop]. fold step.
    destruct (step otf order i st) as [st1 |] eqn:E;
      [cbn [bind] | discriminate].
    intro H. injection H as <-.
    exact (proj2 (rl_step_shape _ _ _ _ _ Hinv E)).
  - change (rl_loop freq urfftn uirfftn fmul fconj image otf order (S (S n)) i st)
      with (st1 <- step otf order i st ;;
            rl_loop freq urfftn uirfftn fmul fconj image otf order (S n) (S i) st1).
    destruct (step otf order i st) as [st1 |] eqn:E;
      [cbn [bind] | discriminate].
    apply IH. exact (proj1 (rl_step_shape _ _ _ _ _ Hinv E)).
Qed.

(** X22: With an inverse transform that returns arrays of the shape of the
    image, whatever [richardson_lucy] returns after at least one iteration
    is an array numpy can build of the shape of the image, for every
    prediction order, window and value of [clip]. *)
Theorem estimate_has_image_shape (psf : ndarray) (iterations : Z)
    (clip : bool) (order : Z) (win_func : option window_fun)
    (r : option ndarray) :
  (0 < iterations)%Z ->
  rl image psf iterations clip order win_func = Ok r ->
  exists a, r = Some a /\ shape a = shape image /\ wf a.
Proof.
  intros Hit. unfold rl, richardson_lucy.
  destruct (negb (ndim psf =? ndim image)%nat); [discriminate |].
  destruct (rl_window image win_func) as [w |]; cbn [bind]; [| discriminate].
  destruct (psf_normalize psf (shape image)) as [pn |]; cbn [bind];
    [| discriminate].
  destruct (rl_otf freq urfftn fwin w pn) as [otf |]; cbn [bind];
    [| discriminate].
  destruct (Z.to_nat iterations) as [| n] eqn:En; [lia |].
  fold loop.
  destruct (loop otf order (S n) 0%nat (rl_init image)) as [st |] eqn:E;
    cbn [bind]; [| discriminate].
  assert (Hinit : shape_inv image (rl_init image)).
  { unfold shape_inv, rl_init, like. cbn. tauto. }
  destruct (rl_loop_shape _ _ _ _ _ _ Hinit E) as (u & Hu & Hul).
  rewrite Hu. destruct clip; cbn [need bind].
  - intro H. injection H as <-. exists (clip_array u).
    split; [reflexivity |].
    unfold clip_array. exact (like_amap _ _ (like_amap _ _ Hul)).
  - intro H. injection H as <-. exists u. split; [reflexivity | exact Hul].
Qed.

End EstimateShape.

Lemma estimate_has_image_shape_witness :
  wf (Small.img 4 2 1 3) /\
  (forall f a, Small.uirfftn f = Ok a ->
               shape a = shape (Small.img 4 2 1 3) /\ wf a) /\
  (0 < 3)%Z /\
  exists r,
    Small.richardson_lucy (Small.img 4 2 1 3) (Small.img 0 1 1 4) 3 false 1 None
    = Ok r /\
    exists a, r = Some a /\ shape a = shape (Small.img 4 2 1 3) /\ wf a.
Proof.
  assert (H1 : wf (Small.img 4 2 1 3)) by reflexivity.
  assert (H2 : (0 < 3)%Z) by lia.
  split; [exact H1 | split; [exact small_uirfftn_shape | split; [exact H2 |]]].
  unfold Small.richardson_lucy.
  assert (Hret : exists r,
             richardson_lucy Small.freq Small.urfftn Small.uirfftn Small.fmul
                             Small.fconj Small.fwin
                             (Small.img 4 2 1 3) (Small.img 0 1 1 4)
                             3 false 1 None = Ok r)
    by (apply returns_ok; vm_compute; reflexivity).
  destruct Hret as [r Hrun].
  exists r. split; [exact Hrun |].
  exact (estimate_has_image_shape
           Small.freq Small.urfftn Small.uirfftn Small.fmul Small.fconj Small.fwin
           (Small.img 4 2 1 3) H1 small_uirfftn_shape
           (Small.img 0 1 1 4) 3%Z false 1%Z None r H2 Hrun).
Defined.

(** ** [win_nd]: an axis of length 0 *)

Section WindowFacts.

Variable win_func : window_fun.

(** The window function returns as many values as it is asked for. *)
Hypothesis win_length : forall n, length (win_func n) = n.

Let step (nd : nat) :=
  fun (acc : res ndarray) (jk : nat * nat) =>
    toreturn <- acc ;;
    let newshape := axis_shape nd (fst jk) (snd jk) in
    let w := win_func (list_max newshape) in
    if (length w =? prod_shape newshape)%nat
    then amap2 Fl.mul toreturn (mk_array newshape w)
    else Raise ValueError.

Lemma prod_shape_zero (s : list nat) : In 0%nat s -> prod_shape s = 0%nat.
Proof.
  induction s as [| n s IH]; intro H; [contradiction H |].
  cbn [prod_shape fold_right]. fold (prod_shape s).
  destruct H as [-> | H]; [reflexivity | rewrite (IH H); lia].
Qed.

Lemma list_max_member (x : nat) (l : list nat) :
  In x l -> (x <= list_max l)%nat.
Proof.
  intro H.
  pose proof (proj1 (list_max_le l (list_max l)) (Nat.le_refl _)) as Hall.
  rewrite Forall_forall in Hall. now apply Hall.
Qed.

Lemma axis_shape_zero (nd j : nat) :
  (j < nd)%nat -> (2 <= nd)%nat ->
  list_max (axis_shape nd j 0) = 1%nat /\
  prod_shape (axis_shape nd j 0) = 0%nat.
Proof.
  intros Hj Hnd. unfold axis_shape. split.
  - apply Nat.le_antisymm.
    + apply list_max_le. apply Forall_forall. intros x Hx.
      apply in_map_iff in Hx as (i & <- & _).
      destruct (i =? j)%nat; lia.
    + apply list_max_member. apply in_map_iff.
      exists (if (j =? 0)%nat then 1%nat else 0%nat).
      destruct (Nat.eqb_spec j 0) as [-> | Hne].
      * split; [reflexivity | apply in_seq; lia].
      * split; [| apply in_seq; lia].
        destruct (Nat.eqb_spec 0 j) as [E | _]; [lia | reflexivity].
  - apply prod_shape_zero. apply in_map_iff.
    exists j. split; [now rewrite Nat.eqb_refl | apply in_seq; lia].
Qed.

Lemma win_step_error (nd : nat) (acc : res ndarray) (jk : nat * nat) :
  (acc = Raise ValueError \/ exists a, acc = Ok a) ->
  step nd acc jk = Raise ValueError \/ exists a, step nd acc jk = Ok a.
Proof.
  intros [-> | [a ->]]; unfold step; cbn [bind]; [now left |].
  destruct (_ =? _)%nat; [| now left].
  unfold amap2. destruct (broadcast_shape _ _); [right; eexists; reflexivity |].
  now left.
Qed.

Lemma win_step_zero (nd j : nat) (acc : res ndarray) :
  (j < nd)%nat -> (2 <= nd)%nat ->
  (acc = Raise ValueError \/ exists a, acc = Ok a) ->
  step nd acc (j, 0%nat) = Raise ValueError.
Proof.
  intros Hj Hnd [-> | [a ->]]; unfold step; cbn [bind fst snd];
    [reflexivity |].
  destruct (axis_shape_zero nd j Hj Hnd) as [Hmax Hprod].
  rewrite Hmax, Hprod, win_length. reflexivity.
Qed.

Lemma win_fold_raised (nd : nat) (l : list (nat * nat)) :
  fold_left (step nd) l (Raise ValueError) = Raise ValueError.
Proof. induction l as [| jk l IH]; [reflexivity | exact IH]. Qed.

Lemma win_fold_zero (nd : nat) (l : list (nat * nat)) : forall acc,
  (2 <= nd)%nat ->
  (exists j, In (j, 0%nat) l /\ (j < nd)%nat) ->
  (acc = Raise ValueError \/ exists a, acc = Ok a) ->
  fold_left (step nd) l acc = Raise ValueError.
Proof.
  induction l as [| jk l IH]; intros acc Hnd (j & Hin & Hj) Hacc;
    [contradiction Hin |].
  cbn [fold_left]. destruct Hin as [-> | Hin].
  - rewrite (win_step_zero nd j acc Hj Hnd Hacc). apply win_fold_raised.
  - apply IH; [exact Hnd | now exists j | now apply win_step_error].
Qed.

Lemma indexed_member (x : nat) (sz : list nat) : forall s,
  In x sz ->
  exists j, In (j, x) (combine (seq s (length sz)) sz) /\
            (j < s + length sz)%nat.
Proof.
  induction sz as [| y sz IH]; intros s H; [contradiction H |].
  cbn [length seq combine]. destruct H as [-> | H].
  - exists s. split; [now left | lia].
  - destruct (IH (S s) H) as (j & Hin & Hj).
    exists j. split; [now right | lia].
Qed.

(** X23: An axis of length 0 among two or more cannot be windowed: the values
    of the window function for the length 1 do not fit the empty shape,
    and [win_nd] raises [ValueError]. *)
Theorem win_nd_zero_extent_raises (sz : list nat) :
  (2 <= length sz)%nat ->
  In 0%nat sz ->
  win_nd sz win_func = Raise ValueError.
Proof.
  intros Hnd Hin. unfold win_nd.
  destruct (indexed_member 0 sz 0 Hin) as (j & Hj & Hlt).
  change (fold_left (step (length sz)) (combine (seq 0 (length sz)) sz)
                    (Ok (mk_array [] [one])) = Raise ValueError).
  apply win_fold_zero; [exact Hnd | now exists j |].
  right. eexists. reflexivity.
Qed.

End WindowFacts.

Lemma win_nd_zero_extent_raises_witness :
  (forall n, length (np_ones n) = n) /\
  (2 <= length [3%nat; 0%nat])%nat /\
  In 0%nat [3%nat; 0%nat] /\
  win_nd [3%nat; 0%nat] np_ones = Raise ValueError.
Proof.
  assert (H1 : forall n, length (np_ones n) = n)
    by (intro n; apply repeat_length).
  assert (H2 : (2 <= length [3%nat; 0%nat])%nat) by (cbn; lia).
  assert (H3 : In 0%nat [3%nat; 0%nat]) by (right; left; reflexivity).
  repeat (split; [assumption |]).
  exact (win_nd_zero_extent_raises np_ones H1 [3%nat; 0%nat] H2 H3).
Defined.
